(** * PC-kouzi: the real-time update layer

    A shallow embedding of the change detector, the polling scheduler, the
    cache manager and the state store of the real-time pipeline, with the
    properties their specification states about them. *)

From stdpp Require Import base option list strings pretty gmap.
From Stdlib Require Import Ascii ZArith Lia.

Local Set Warnings "-register-all,-clear-no-such-hyp".
Local Open Scope string_scope.
Local Open Scope Z_scope.

(** ** Calls that may throw *)

Module Js.

Inductive Result (A : Type) : Type :=
| Ok (a : A)
| Thrown (error : string).
Arguments Ok {A} a.
Arguments Thrown {A} error.

End Js.

(** ** JSON values

    The collections handed to the detector and the values kept by the cache
    are parsed JSON documents.  Numbers are restricted to integers, which
    JavaScript prints in plain decimal below 10^21. *)

Module Json.

Inductive value : Type :=
| VNull
| VBool (b : bool)
| VNum (n : Z)
| VStr (s : string)
| VArr (elems : list value)
| VObj (fields : list (string * value)).

(** JavaScript truthiness: [null], [false], [0] and the empty string are
    falsy, every object and array is truthy. *)
Definition truthy (v : value) : bool :=
  match v with
  | VNull => false
  | VBool b => b
  | VNum n => negb (n =? 0)
  | VStr s => negb (String.eqb s "")
  | VArr _ | VObj _ => true
  end.

(** [typeof v === 'object' && v !== null] *)
Definition is_object (v : value) : bool :=
  match v with
  | VArr _ | VObj _ => true
  | _ => false
  end.

(** [a === b].  Two primitives are compared by value.  Two objects are
    compared by reference: the two collections come from separate parses, so
    an object of one is never the same reference as an object of the other. *)
Definition strict_equals (a b : value) : bool :=
  match a, b with
  | VNull, VNull => true
  | VBool x, VBool y => Bool.eqb x y
  | VNum x, VNum y => x =? y
  | VStr x, VStr y => String.eqb x y
  | _, _ => false
  end.

(** Association-list lookup, first entry wins. *)
Fixpoint assoc {A : Type} (k : string) (l : list (string * A)) : option A :=
  match l with
  | [] => None
  | (k', v) :: l' => if String.eqb k' k then Some v else assoc k l'
  end.

Definition chars (s : string) : list value :=
  (λ c, VStr (String c EmptyString)) <$> String.list_ascii_of_string s.

Definition indexed (l : list value) : list (string * value) :=
  imap (λ i v, (pretty i, v)) l.

(** The own enumerable properties of a value, as [Object.keys] lists them:
    the fields of an object, the indices of an array or of a string. *)
Definition props (v : value) : list (string * value) :=
  match v with
  | VObj fields => fields
  | VArr elems => indexed elems
  | VStr s => indexed (chars s)
  | _ => []
  end.

Definition keys (v : value) : list string := (props v).*1.

(** The names that every object answers to without having them as
    fields: the properties of [Object.prototype]. *)
Definition inherited : list string :=
  ["constructor"; "__defineGetter__"; "__defineSetter__"; "hasOwnProperty";
   "__lookupGetter__"; "__lookupSetter__"; "isPrototypeOf"; "propertyIsEnumerable";
   "toString"; "valueOf"; "__proto__"; "toLocaleString"].

(** [v[k]] read from the properties of [v] itself, with [None] for
    [undefined].  Arrays and strings also answer to [length].  What a
    prototype answers is left out: for an object and a name that is among its
    fields or not [inherited], this is the whole of [v[k]]. *)
Definition get (v : value) (k : string) : option value :=
  match assoc k (props v) with
  | Some x => Some x
  | None =>
      if String.eqb k "length" then
        match v with
        | VArr elems => Some (VNum (Z.of_nat (length elems)))
        | VStr s => Some (VNum (Z.of_nat (String.length s)))
        | _ => None
        end
      else None
  end.

(** [includes] on an array of strings. *)
Definition includes (l : list string) (k : string) : bool :=
  existsb (String.eqb k) l.

Fixpoint join (sep : string) (l : list string) : string :=
  match l with
  | [] => ""
  | [s] => s
  | s :: l' => s +:+ sep +:+ join sep l'
  end.

(** [String(v)] as [Array.prototype.join] applies it to an element: [null]
    prints as the empty string, a nested array joins with commas. *)
Fixpoint to_string (v : value) : string :=
  match v with
  | VNull => ""
  | VBool true => "true"
  | VBool false => "false"
  | VNum n => pretty n
  | VStr s => s
  | VArr elems => join "," (map to_string elems)
  | VObj _ => "[object Object]"
  end.

Definition dquote : ascii := ascii_of_nat 34.
Definition backslash : ascii := ascii_of_nat 92.

Definition hex_digit (n : nat) : ascii :=
  if (n <? 10)%nat then ascii_of_nat (48 + n) else ascii_of_nat (87 + n).

(** One code unit inside a JSON string literal. *)
Definition escape_char (c : ascii) : string :=
  let n := nat_of_ascii c in
  if Ascii.eqb c dquote then String backslash (String dquote "")
  else if Ascii.eqb c backslash then String backslash (String backslash "")
  else if (n =? 8)%nat then String backslash "b"
  else if (n =? 9)%nat then String backslash "t"
  else if (n =? 10)%nat then String backslash "n"
  else if (n =? 12)%nat then String backslash "f"
  else if (n =? 13)%nat then String backslash "r"
  else if (n <? 32)%nat then
    String backslash ("u00" +:+ String (hex_digit (n / 16)) (String (hex_digit (n mod 16)) ""))
  else String c "".

Fixpoint escape (s : string) : string :=
  match s with
  | EmptyString => ""
  | String c s' => escape_char c +:+ escape s'
  end.

Definition quote (s : string) : string :=
  String dquote (escape s +:+ String dquote "").

(** [JSON.stringify v] without indentation. *)
Fixpoint stringify (v : value) : string :=
  match v with
  | VNull => "null"
  | VBool true => "true"
  | VBool false => "false"
  | VNum n => pretty n
  | VStr s => quote s
  | VArr elems => "[" +:+ join "," (map stringify elems) +:+ "]"
  | VObj fields =>
      "{" +:+ join "," ((fix members (fs : list (string * value)) : list string :=
                          match fs with
                          | [] => []
                          | (k, x) :: fs' => (quote k +:+ ":" +:+ stringify x) :: members fs'
                          end) fields) +:+ "}"
  end.

End Json.

(** ** ChangeDetector *)

(** The records of a diff: [Entry] is the shape of an element of [added],
    [removed] and [unchanged], [Updated] the shape of an element of
    [updated]. *)
Module Entry.
Record t : Type := mk {
  key : string;
  data : Json.value;
  position : Z
}.
End Entry.

Module FieldChange.
Record t : Type := mk {
  field : string;
  oldValue : option Json.value;
  newValue : option Json.value;
  type : string
}.
End FieldChange.

Module Updated.
Record t : Type := mk {
  key : string;
  old : Json.value;
  new : Json.value;
  changes : list FieldChange.t;
  position : Z
}.
End Updated.

Module Summary.
Record t : Type := mk {
  totalAdded : Z;
  totalUpdated : Z;
  totalRemoved : Z;
  totalUnchanged : Z;
  oldTotal : Z;
  newTotal : Z
}.
End Summary.

Module ChangeSet.
Record t : Type := mk {
  hasChanges : bool;
  added : list Entry.t;
  updated : list Updated.t;
  removed : list Entry.t;
  unchanged : list Entry.t;
  summary : Summary.t;
  error : option string
}.
End ChangeSet.

(** A data set handed to [batchDetectChanges] is an object whose [old]
    and [current] are collections; either may be missing.  An element of
    the answer pairs the place of the data set with its diff. *)
Module DataSet.
Record t : Type := mk {
  old : option (list Json.value);
  current : option (list Json.value)
}.
End DataSet.

Module BatchResult.
Record t : Type := mk {
  index : Z;
  changes : ChangeSet.t
}.
End BatchResult.

Module ChangeDetector.
Import Json.

Import Js.

(** A custom comparison function either answers or throws. *)
Record Options : Type := {
  keyFields : list string;
  compareFunction : option (value → value → Result bool);
  deepCompare : bool;
  ignoreFields : list string
}.

(** The options the constructor fills in when none are given. *)
Definition defaultOptions : Options :=
  {| keyFields := ["id"];
     compareFunction := None;
     deepCompare := true;
     ignoreFields := ["last_updated"; "generated_at"] |}.

Section Detector.
Context (options : Options).

Definition ignored (k : string) : bool := includes (ignoreFields options) k.

(** [getItemKey]: [None] is the [null] returned for a falsy item; the key
    joins the values of the key fields the item defines. *)
Definition getItemKey (item : value) : option string :=
  if truthy item then
    Some (join "::" (to_string <$> omap (get item) (keyFields options)))
  else None.

(** A JavaScript [Map] from strings: entries in insertion order, one per
    key; [set] on a present key replaces the value where it stands. *)
Fixpoint map_set (m : list (string * value)) (k : string) (v : value)
  : list (string * value) :=
  match m with
  | [] => [(k, v)]
  | (k', v') :: m' =>
      if String.eqb k' k then (k', v) :: m' else (k', v') :: map_set m' k v
  end.

Definition map_get (m : list (string * value)) (k : string) : option value :=
  assoc k m.

Definition map_has (m : list (string * value)) (k : string) : bool :=
  bool_decide (is_Some (map_get m k)).

(** [buildDataMap]: an item whose key is [null] or empty is left out. *)
Definition buildDataMap (data : list value) : list (string * value) :=
  foldl (λ m item,
           match getItemKey item with
           | Some key => if String.eqb key "" then m else map_set m key item
           | None => m
           end) [] data.

(** [deepEqual]: identical values are equal; two objects are equal when
    they have as many not-ignored keys and every such key of the first is a
    key of the second with a deeply equal value.  [walk] is the loop over
    the keys of an object, [walk_elems] the same loop over the indices of an
    array. *)
Fixpoint deepEqual (obj1 obj2 : value) {struct obj1} : bool :=
  if strict_equals obj1 obj2 then true
  else if negb (is_object obj1 && is_object obj2) then false
  else
    let keys2 := filter (λ k, negb (ignored k)) (keys obj2) in
    let walk :=
      fix walk (ps : list (string * value)) : bool :=
        match ps with
        | [] => true
        | (k, x) :: ps' =>
            if ignored k then walk ps'
            else if negb (includes keys2 k) then false
            else
              match get obj2 k with
              | Some y => if deepEqual x y then walk ps' else false
              | None => false
              end
        end in
    let walk_elems :=
      fix walk_elems (i : nat) (xs : list value) : bool :=
        match xs with
        | [] => true
        | x :: xs' =>
            let k := pretty i in
            if ignored k then walk_elems (S i) xs'
            else if negb (includes keys2 k) then false
            else
              match get obj2 k with
              | Some y => if deepEqual x y then walk_elems (S i) xs' else false
              | None => false
              end
        end in
    if negb (length (filter (λ k, negb (ignored k)) (keys obj1)) =? length keys2)%nat
    then false
    else
      match obj1 with
      | VObj fields => walk fields
      | VArr elems => walk_elems 0%nat elems
      | _ => false
      end.

(** [deepEqual] on two property reads, either of which may be
    [undefined]. *)
Definition deepEqual_read (x y : option value) : bool :=
  match x, y with
  | None, None => true
  | Some a, Some b => deepEqual a b
  | _, _ => false
  end.

(** [areItemsEqual]: the custom function when there is one, else the deep
    comparison, else the comparison of the two serialisations. *)
Definition areItemsEqual (item1 item2 : value) : Result bool :=
  match compareFunction options with
  | Some compare => compare item1 item2
  | None =>
      if deepCompare options then Ok (deepEqual item1 item2)
      else Ok (String.eqb (stringify item1) (stringify item2))
  end.

Definition typeof (x : option value) : string :=
  match x with
  | None => "undefined"
  | Some (VBool _) => "boolean"
  | Some (VNum _) => "number"
  | Some (VStr _) => "string"
  | Some VNull | Some (VArr _) | Some (VObj _) => "object"
  end.

(** The elements of [new Set(l)], in the order of their first occurrence. *)
Definition uniq (l : list string) : list string :=
  foldl (λ seen k, if includes seen k then seen else (seen ++ [k])%list) [] l.

(** [getSpecificChanges]; the values of a field are read with [get],
    which is the read of the code on two objects none of whose field names is
    [inherited]. *)
Definition getSpecificChanges (oldItem newItem : value) : list FieldChange.t :=
  let allKeys := uniq (keys oldItem ++ keys newItem)%list in
  foldl (λ changes k,
           if ignored k then changes
           else if deepEqual_read (get oldItem k) (get newItem k) then changes
           else (changes ++ [FieldChange.mk k (get oldItem k) (get newItem k)
                                            (typeof (get oldItem k))])%list)
        [] allKeys.

(** [findItemPosition]: the first index whose item has the key, else -1. *)
Fixpoint findItemPosition_from (i : Z) (data : list value) (k : string) : Z :=
  match data with
  | [] => -1
  | item :: data' =>
      if bool_decide (getItemKey item = Some k) then i
      else findItemPosition_from (i + 1) data' k
  end.

Definition findItemPosition (data : list value) (k : string) : Z :=
  findItemPosition_from 0 data k.

Definition emptyChanges (oldData newData : list value) : ChangeSet.t :=
  ChangeSet.mk false [] [] [] []
    (Summary.mk 0 0 0 0 (Z.of_nat (length oldData)) (Z.of_nat (length newData)))
    None.

(** One turn of the loop over the new map. *)
Definition visitNew (oldMap : list (string * value)) (newData : list value)
    (changes : ChangeSet.t) (entry : string * value) : Result ChangeSet.t :=
  let '(k, newItem) := entry in
  let 'ChangeSet.mk flag a u r n sm e := changes in
  match map_get oldMap k with
  | None =>
      Ok (ChangeSet.mk true
                 (a ++ [Entry.mk k newItem (findItemPosition newData k)])%list u r n sm e)
  | Some oldItem =>
      match areItemsEqual oldItem newItem with
      | Thrown msg => Thrown msg
      | Ok false =>
          Ok (ChangeSet.mk true a
                     (u ++ [Updated.mk k oldItem newItem
                              (getSpecificChanges oldItem newItem)
                              (findItemPosition newData k)])%list r n sm e)
      | Ok true =>
          Ok (ChangeSet.mk flag a u r
                     (n ++ [Entry.mk k newItem (findItemPosition newData k)])%list sm e)
      end
  end.

(** One turn of the loop over the old map. *)
Definition visitOld (newMap : list (string * value)) (oldData : list value)
    (changes : ChangeSet.t) (entry : string * value) : ChangeSet.t :=
  let '(k, oldItem) := entry in
  let 'ChangeSet.mk flag a u r n sm e := changes in
  if map_has newMap k then changes
  else ChangeSet.mk true a u
         (r ++ [Entry.mk k oldItem (findItemPosition oldData k)])%list n sm e.

(** A loop whose body may throw. *)
Fixpoint forEach {A B : Type} (body : A → B → Result A) (acc : A) (l : list B)
  : Result A :=
  match l with
  | [] => Ok acc
  | x :: l' =>
      match body acc x with
      | Ok acc' => forEach body acc' l'
      | Thrown msg => Thrown msg
      end
  end.

Definition updateSummary (changes : ChangeSet.t) : ChangeSet.t :=
  let 'ChangeSet.mk flag a u r n sm e := changes in
  ChangeSet.mk flag a u r n
    (Summary.mk (Z.of_nat (length a)) (Z.of_nat (length u))
       (Z.of_nat (length r)) (Z.of_nat (length n))
       (Summary.oldTotal sm) (Summary.newTotal sm)) e.

(** [detectChanges]: the [try] block, and the [catch] that answers an
    empty change set carrying the message. *)
Definition detectChanges (oldData newData : list value) : ChangeSet.t :=
  let changes := emptyChanges oldData newData in
  let oldMap := buildDataMap oldData in
  let newMap := buildDataMap newData in
  match forEach (visitNew oldMap newData) changes newMap with
  | Ok changes1 =>
      updateSummary (foldl (visitOld newMap oldData) changes1 oldMap)
  | Thrown msg =>
      ChangeSet.mk false [] [] [] []
        (Summary.mk 0 0 0 0 (Z.of_nat (length oldData)) (Z.of_nat (length newData)))
        (Some msg)
  end.

(** The loop of [hasChanges]: [true] as soon as a new key is missing from
    the old map or its items differ. *)
Fixpoint anyChanged (oldMap newMap : list (string * value)) : Result bool :=
  match newMap with
  | [] => Ok false
  | (k, newItem) :: newMap' =>
      match map_get oldMap k with
      | None => Ok true
      | Some oldItem =>
          match areItemsEqual oldItem newItem with
          | Thrown msg => Thrown msg
          | Ok false => Ok true
          | Ok true => anyChanged oldMap newMap'
          end
      end
  end.

(** [hasChanges], the quick check; nothing catches what the comparison
    function throws. *)
Definition hasChanges (oldData newData : list value) : Result bool :=
  if negb (length oldData =? length newData)%nat then Ok true
  else
    let oldMap := buildDataMap oldData in
    let newMap := buildDataMap newData in
    if negb (length oldMap =? length newMap)%nat then Ok true
    else anyChanged oldMap newMap.


End Detector.
End ChangeDetector.

(** ** PollingService

    The service runs on the browser's event loop.  The model keeps, beside
    the service's own [state], what the loop holds for it: the clock, the
    pending timers, the number of fetches still in flight and the record of
    the callbacks made so far.  Each function below is one uninterrupted run
    of the service's code: a method or handler up to the point where it
    waits, or the rest of [executePollingCycle] once what it waited for has
    happened. *)

Module PollingService.

Record PollingConfig : Type := {
  normalInterval : Z;
  activeInterval : Z;
  backgroundInterval : Z;
  retryDelay : Z;
  maxRetries : Z
}.

(** The [pollingConfig] a caller passes: any field may be missing. *)
Record ConfigInput : Type := {
  given_normalInterval : option Z;
  given_activeInterval : option Z;
  given_backgroundInterval : option Z;
  given_retryDelay : option Z;
  given_maxRetries : option Z
}.

Definition noConfig : ConfigInput :=
  {| given_normalInterval := None; given_activeInterval := None;
     given_backgroundInterval := None; given_retryDelay := None;
     given_maxRetries := None |}.

(** [x || d] on a number that may be [undefined]. *)
Definition orDefault (x : option Z) (d : Z) : Z :=
  match x with
  | Some v => if v =? 0 then d else v
  | None => d
  end.

(** [Object.assign(target, source)] on one field. *)
Definition assigned (x : option Z) (old : Z) : Z :=
  match x with
  | Some v => v
  | None => old
  end.

(** The callbacks are the caller's code: the model only knows which are
    configured. *)
Record Options : Type := {
  fetchFunction : bool;
  onSuccess : bool;
  onError : bool;
  pollingConfig : PollingConfig
}.

Record State : Type := {
  isActive : bool;
  currentInterval : Z;
  retryCount : Z;
  isOnline : bool;
  isVisible : bool;
  isUserActive : bool;
  timerId : option positive;
  lastFetchTime : option Z;
  lastSuccessTime : option Z;
  lastError : option string
}.

Definition set_isActive (b : bool) (st : State) : State :=
  {| isActive := b; currentInterval := currentInterval st; retryCount := retryCount st;
     isOnline := isOnline st; isVisible := isVisible st; isUserActive := isUserActive st;
     timerId := timerId st; lastFetchTime := lastFetchTime st;
     lastSuccessTime := lastSuccessTime st; lastError := lastError st |}.

Definition set_currentInterval (n : Z) (st : State) : State :=
  {| isActive := isActive st; currentInterval := n; retryCount := retryCount st;
     isOnline := isOnline st; isVisible := isVisible st; isUserActive := isUserActive st;
     timerId := timerId st; lastFetchTime := lastFetchTime st;
     lastSuccessTime := lastSuccessTime st; lastError := lastError st |}.

Definition set_retryCount (n : Z) (st : State) : State :=
  {| isActive := isActive st; currentInterval := currentInterval st; retryCount := n;
     isOnline := isOnline st; isVisible := isVisible st; isUserActive := isUserActive st;
     timerId := timerId st; lastFetchTime := lastFetchTime st;
     lastSuccessTime := lastSuccessTime st; lastError := lastError st |}.

Definition set_isOnline (b : bool) (st : State) : State :=
  {| isActive := isActive st; currentInterval := currentInterval st;
     retryCount := retryCount st; isOnline := b; isVisible := isVisible st;
     isUserActive := isUserActive st; timerId := timerId st;
     lastFetchTime := lastFetchTime st; lastSuccessTime := lastSuccessTime st;
     lastError := lastError st |}.

Definition set_isVisible (b : bool) (st : State) : State :=
  {| isActive := isActive st; currentInterval := currentInterval st;
     retryCount := retryCount st; isOnline := isOnline st; isVisible := b;
     isUserActive := isUserActive st; timerId := timerId st;
     lastFetchTime := lastFetchTime st; lastSuccessTime := lastSuccessTime st;
     lastError := lastError st |}.

Definition set_isUserActive (b : bool) (st : State) : State :=
  {| isActive := isActive st; currentInterval := currentInterval st;
     retryCount := retryCount st; isOnline := isOnline st; isVisible := isVisible st;
     isUserActive := b; timerId := timerId st;
     lastFetchTime := lastFetchTime st; lastSuccessTime := lastSuccessTime st;
     lastError := lastError st |}.

Definition set_timerId (t : option positive) (st : State) : State :=
  {| isActive := isActive st; currentInterval := currentInterval st;
     retryCount := retryCount st; isOnline := isOnline st; isVisible := isVisible st;
     isUserActive := isUserActive st; timerId := t;
     lastFetchTime := lastFetchTime st; lastSuccessTime := lastSuccessTime st;
     lastError := lastError st |}.

Definition set_lastFetchTime (t : option Z) (st : State) : State :=
  {| isActive := isActive st; currentInterval := currentInterval st;
     retryCount := retryCount st; isOnline := isOnline st; isVisible := isVisible st;
     isUserActive := isUserActive st; timerId := timerId st;
     lastFetchTime := t; lastSuccessTime := lastSuccessTime st;
     lastError := lastError st |}.

Definition set_lastSuccessTime (t : option Z) (st : State) : State :=
  {| isActive := isActive st; currentInterval := currentInterval st;
     retryCount := retryCount st; isOnline := isOnline st; isVisible := isVisible st;
     isUserActive := isUserActive st; timerId := timerId st;
     lastFetchTime := lastFetchTime st; lastSuccessTime := t;
     lastError := lastError st |}.

Definition set_lastError (e : option string) (st : State) : State :=
  {| isActive := isActive st; currentInterval := currentInterval st;
     retryCount := retryCount st; isOnline := isOnline st; isVisible := isVisible st;
     isUserActive := isUserActive st; timerId := timerId st;
     lastFetchTime := lastFetchTime st; lastSuccessTime := lastSuccessTime st;
     lastError := e |}.

(** What a pending timer runs when it fires: the next polling cycle armed
    by the [finally] block, the rest of a cycle that waits in [delay], or
    the end of the minute without user activity. *)
Inductive Task : Type :=
| PollingCycle
| RetryDelayElapsed
| UserInactive.

Global Instance Task_eq_dec : EqDecision Task.
Proof. solve_decision. Defined.

Record Timer : Type := {
  id : positive;
  due : Z;
  task : Task
}.

(** The calls the service makes to the caller's code and to the console. *)
Inductive Effect : Type :=
| FetchCalled
| OnSuccess (data : Json.value)
| OnError (error : string) (reason : string)
| ConsoleError (error : string).

Record Service : Type := {
  options : Options;
  state : State;
  activityTimeout : option positive;
  now : Z;
  timers : list Timer;
  nextTimer : positive;
  inFlight : nat;
  trace : list (Z * Effect)
}.

Definition with_state (f : State → State) (s : Service) : Service :=
  {| options := options s; state := f (state s);
     activityTimeout := activityTimeout s; now := now s; timers := timers s;
     nextTimer := nextTimer s; inFlight := inFlight s; trace := trace s |}.

Definition with_options (o : Options) (s : Service) : Service :=
  {| options := o; state := state s;
     activityTimeout := activityTimeout s; now := now s; timers := timers s;
     nextTimer := nextTimer s; inFlight := inFlight s; trace := trace s |}.

Definition with_activityTimeout (t : option positive) (s : Service) : Service :=
  {| options := options s; state := state s;
     activityTimeout := t; now := now s; timers := timers s;
     nextTimer := nextTimer s; inFlight := inFlight s; trace := trace s |}.

Definition with_now (t : Z) (s : Service) : Service :=
  {| options := options s; state := state s;
     activityTimeout := activityTimeout s; now := t; timers := timers s;
     nextTimer := nextTimer s; inFlight := inFlight s; trace := trace s |}.

Definition with_timers (l : list Timer) (s : Service) : Service :=
  {| options := options s; state := state s;
     activityTimeout := activityTimeout s; now := now s; timers := l;
     nextTimer := nextTimer s; inFlight := inFlight s; trace := trace s |}.

Definition with_inFlight (n : nat) (s : Service) : Service :=
  {| options := options s; state := state s;
     activityTimeout := activityTimeout s; now := now s; timers := timers s;
     nextTimer := nextTimer s; inFlight := n; trace := trace s |}.

Definition config (s : Service) : PollingConfig := pollingConfig (options s).

(** A call recorded with the time it is made at. *)
Definition emit (e : Effect) (s : Service) : Service :=
  {| options := options s; state := state s;
     activityTimeout := activityTimeout s; now := now s; timers := timers s;
     nextTimer := nextTimer s; inFlight := inFlight s;
     trace := (trace s ++ [(now s, e)])%list |}.

(** The delay that the browser arms for [setTimeout(f, ms)]: it keeps the
    delay as a signed 32-bit integer, so a delay beyond 2147483647 wraps
    around and, where that makes it negative, fires at once like any negative
    delay.  A delay from 0 to 2147483647 is taken as it is. *)
Definition timerDelay (ms : Z) : Z :=
  Z.max 0 ((ms + 2147483648) mod 4294967296 - 2147483648).

(** [setTimeout(task, ms)]: the identifier it answers is [nextTimer s]. *)
Definition setTimeout (k : Task) (ms : Z) (s : Service) : Service :=
  {| options := options s; state := state s;
     activityTimeout := activityTimeout s; now := now s;
     timers := (timers s ++ [{| id := nextTimer s; due := now s + timerDelay ms;
                                task := k |}])%list;
     nextTimer := Pos.succ (nextTimer s); inFlight := inFlight s; trace := trace s |}.

Definition clearTimeout (t : positive) (s : Service) : Service :=
  with_timers (filter (λ tm, id tm ≠ t) (timers s)) s.

(** [pause] *)
Definition pause (s : Service) : Service :=
  let s := with_state (set_isActive false) s in
  match timerId (state s) with
  | Some t => with_state (set_timerId None) (clearTimeout t s)
  | None => s
  end.

(** The [finally] block of [executePollingCycle]. *)
Definition finallyBlock (s : Service) : Service :=
  if isActive (state s) then
    with_state (set_timerId (Some (nextTimer s)))
      (setTimeout PollingCycle (currentInterval (state s)) s)
  else s.

(** [handleError] up to its [await]: [true] when the retries are used up
    and nothing is waited for. *)
Definition handleError (error : string) (s : Service) : bool * Service :=
  let s := with_state (set_lastError (Some error)) s in
  let s := with_state (set_retryCount (retryCount (state s) + 1)) s in
  if maxRetries (config s) <=? retryCount (state s) then
    let s := pause s in
    (true, if onError (options s) then emit (OnError error "max_retries_exceeded") s else s)
  else (false, setTimeout RetryDelayElapsed (retryDelay (config s)) s).

(** The [catch] block of [executePollingCycle], and the [finally] block
    when [handleError] did not wait. *)
Definition cycleFailed (error : string) (s : Service) : Service :=
  let s := emit (ConsoleError error) s in
  let '(done, s) := handleError error s in
  if done then finallyBlock s else s.

(** [executePollingCycle] up to its first [await]. *)
Definition executePollingCycle (s : Service) : Service :=
  if negb (isActive (state s)) then s
  else
    let s := with_state (set_lastFetchTime (Some (now s))) s in
    if fetchFunction (options s) then
      with_inFlight (S (inFlight s)) (emit FetchCalled s)
    else cycleFailed "fetchFunction未配置" s.

(** The rest of a cycle whose fetch has answered [data]; [thrown] is what
    the success callback throws, if it does. *)
Definition fetchResolved (data : Json.value) (thrown : option string) (s : Service)
  : Service :=
  match inFlight s with
  | O => s
  | S n =>
      let s := with_inFlight n s in
      let s := with_state (set_retryCount 0) s in
      let s := with_state (set_lastSuccessTime (Some (now s))) s in
      let s := with_state (set_lastError None) s in
      if onSuccess (options s) then
        let s := emit (OnSuccess data) s in
        match thrown with
        | Some error => cycleFailed error s
        | None => finallyBlock s
        end
      else finallyBlock s
  end.

(** The rest of a cycle whose fetch has failed with [error]. *)
Definition fetchRejected (error : string) (s : Service) : Service :=
  match inFlight s with
  | O => s
  | S n => cycleFailed error (with_inFlight n s)
  end.

(** [resume] *)
Definition resume (s : Service) : Service :=
  if negb (isActive (state s)) then
    executePollingCycle (with_state (set_isActive true) s)
  else s.

(** [restart] *)
Definition restart (s : Service) : Service := resume (pause s).

(** [start] *)
Definition start (s : Service) : Service :=
  if isActive (state s) then s
  else executePollingCycle (with_state (set_isActive true) s).

(** [stop] *)
Definition stop (s : Service) : Service :=
  let s := pause s in
  let s := with_state (set_retryCount 0) s in
  with_state (set_lastError None) s.

(** [adjustPollingInterval] *)
Definition adjustPollingInterval (s : Service) : Service :=
  let newInterval :=
    if negb (isOnline (state s)) then backgroundInterval (config s) * 2
    else if negb (isVisible (state s)) then backgroundInterval (config s)
    else if isUserActive (state s) then activeInterval (config s)
    else normalInterval (config s) in
  if negb (newInterval =? currentInterval (state s)) then
    let s := with_state (set_currentInterval newInterval) s in
    if isActive (state s) then restart s else s
  else s.

(** The listeners of [setupEventListeners]. *)
Definition onOnline (s : Service) : Service :=
  resume (with_state (set_isOnline true) s).

Definition onOffline (s : Service) : Service :=
  pause (with_state (set_isOnline false) s).

Definition onVisibilityChange (hidden : bool) (s : Service) : Service :=
  adjustPollingInterval (with_state (set_isVisible (negb hidden)) s).

(** [handleUserActive], the listener of the four activity events. *)
Definition handleUserActive (s : Service) : Service :=
  let s := adjustPollingInterval (with_state (set_isUserActive true) s) in
  let s := match activityTimeout s with
           | Some t => clearTimeout t s
           | None => s
           end in
  with_activityTimeout (Some (nextTimer s)) (setTimeout UserInactive 60000 s).

(** The callback that [handleUserActive] arms. *)
Definition userInactive (s : Service) : Service :=
  adjustPollingInterval (with_state (set_isUserActive false) s).

(** [updateConfig] with a [pollingConfig]. *)
Definition updateConfig (c : ConfigInput) (s : Service) : Service :=
  let old := config s in
  let cfg := {| normalInterval := assigned (given_normalInterval c) (normalInterval old);
                activeInterval := assigned (given_activeInterval c) (activeInterval old);
                backgroundInterval :=
                  assigned (given_backgroundInterval c) (backgroundInterval old);
                retryDelay := assigned (given_retryDelay c) (retryDelay old);
                maxRetries := assigned (given_maxRetries c) (maxRetries old) |} in
  adjustPollingInterval
    (with_options {| fetchFunction := fetchFunction (options s);
                     onSuccess := onSuccess (options s);
                     onError := onError (options s);
                     pollingConfig := cfg |} s).

(** The constructor, with [init]: [online] and [hidden] are what
    [navigator.onLine] and [document.hidden] read, [clock] the time. *)
Definition constructor (fetch success error : bool) (c : ConfigInput)
    (online hidden : bool) (clock : Z) : Service :=
  let cfg := {| normalInterval := orDefault (given_normalInterval c) 30000;
                activeInterval := orDefault (given_activeInterval c) 10000;
                backgroundInterval := orDefault (given_backgroundInterval c) 60000;
                retryDelay := orDefault (given_retryDelay c) 5000;
                maxRetries := orDefault (given_maxRetries c) 3 |} in
  let s := {| options := {| fetchFunction := fetch; onSuccess := success;
                            onError := error; pollingConfig := cfg |};
              state := {| isActive := false; currentInterval := normalInterval cfg;
                          retryCount := 0; isOnline := online;
                          isVisible := negb hidden; isUserActive := true;
                          timerId := None; lastFetchTime := None;
                          lastSuccessTime := None; lastError := None |};
              activityTimeout := None; now := clock; timers := [];
              nextTimer := 1%positive; inFlight := 0%nat; trace := [] |} in
  adjustPollingInterval (handleUserActive s).

(** The pending timer of a kind that is due first, the older one on a
    tie. *)
Fixpoint earliest (k : Task) (l : list Timer) : option Timer :=
  match l with
  | [] => None
  | tm :: l' =>
      if decide (task tm = k) then
        match earliest k l' with
        | Some tm' => if due tm' <? due tm then Some tm' else Some tm
        | None => Some tm
        end
      else earliest k l'
  end.

(** A timer fires: the loop drops it, the clock is at its due time or
    later, and its task runs. *)
Definition fire (tm : Timer) (s : Service) : Service :=
  let s := with_now (Z.max (now s) (due tm)) (clearTimeout (id tm) s) in
  match task tm with
  | PollingCycle => executePollingCycle s
  | RetryDelayElapsed => finallyBlock s
  | UserInactive => userInactive s
  end.

(** The timer of a kind fires, as an event that the surroundings choose:
    the event loop itself fires the timers in the order they are due in
    ([fireDue]), so this is its turn only when no timer of another kind is
    due earlier. *)
Definition fireNext (k : Task) (s : Service) : Service :=
  match earliest k (timers s) with
  | Some tm => fire tm s
  | None => s
  end.

(** The pending timer that is due first among all, the older one on a
    tie. *)
Fixpoint dueFirst (l : list Timer) : option Timer :=
  match l with
  | [] => None
  | tm :: l' =>
      match dueFirst l' with
      | Some tm' => if due tm' <? due tm then Some tm' else Some tm
      | None => Some tm
      end
  end.

(** The turn of the event loop when nothing else happens: the timer that
    is due first fires. *)
Definition fireDue (s : Service) : Service :=
  match dueFirst (timers s) with
  | Some tm => fire tm s
  | None => s
  end.

(** What can happen to a service. *)
Inductive Event : Type :=
| Start
| Pause
| Resume
| Restart
| Stop
| Online
| Offline
| VisibilityChange (hidden : bool)
| UserActivity
| UpdateConfig (c : ConfigInput)
| Elapse (ms : Z)
| TimerFires (k : Task)
| FetchResolves (data : Json.value) (thrown : option string)
| FetchRejects (error : string).

Definition step (s : Service) (e : Event) : Service :=
  match e with
  | Start => start s
  | Pause => pause s
  | Resume => resume s
  | Restart => restart s
  | Stop => stop s
  | Online => onOnline s
  | Offline => onOffline s
  | VisibilityChange hidden => onVisibilityChange hidden s
  | UserActivity => handleUserActive s
  | UpdateConfig c => updateConfig c s
  | Elapse ms => with_now (now s + Z.max 0 ms) s
  | TimerFires k => fireNext k s
  | FetchResolves data thrown => fetchResolved data thrown s
  | FetchRejects error => fetchRejected error s
  end.

Definition run (s : Service) (events : list Event) : Service :=
  foldl step s events.

(** [manualFetch] up to its [await]: the fetch is called, or the missing
    [fetchFunction] is thrown and caught at once.  [manualFetchFailed] is the
    [catch] block, which hands the error to the error callback and throws it
    again; [manualFetchResolved] is the rest of the [try] block, where
    [thrown] is what the success callback throws, if it does.  The answer is
    what the promise of [manualFetch] settles to. *)
Definition manualFetchFailed (error : string) (s : Service)
  : Js.Result Json.value * Service :=
  (Js.Thrown error,
   if onError (options s) then emit (OnError error "manual_fetch_failed") s else s).

Definition manualFetch (s : Service) : option (Js.Result Json.value) * Service :=
  if fetchFunction (options s) then (None, emit FetchCalled s)
  else
    let '(r, s) := manualFetchFailed "fetchFunction未配置" s in
    (Some r, s).

Definition manualFetchResolved (data : Json.value) (thrown : option string)
    (s : Service) : Js.Result Json.value * Service :=
  if onSuccess (options s) then
    let s := emit (OnSuccess data) s in
    match thrown with
    | Some error => manualFetchFailed error s
    | None => (Js.Ok data, s)
    end
  else (Js.Ok data, s).

Definition manualFetchRejected (error : string) (s : Service)
  : Js.Result Json.value * Service :=
  manualFetchFailed error s.

(** [destroy]: the service has no [handleOnline], [handleOffline] or
    [handleVisibilityChange], so the three [removeEventListener] calls are
    handed [undefined] and remove no listener; what is left is [stop]. *)
Definition destroy (s : Service) : Service := stop s.

End PollingService.

(** ** CacheManager

    The manager keeps its own [state]; the tiers below the memory map
    belong to the browser: the IndexedDB database of the cache name, which
    outlives the page, and the Cache Storage that the service worker tier
    writes.  Every method is asynchronous; the model runs each call to its
    end and takes as an argument which platform requests fail during it. *)

Module CacheManager.
Import Js.

Record CacheItem : Type := {
  key : string;
  value : Json.value;
  timestamp : Z;
  ttl : Z;
  type : string;
  priority : Z;
  size : Z;
  lastAccessed : option Z
}.

Definition accessed (t : Z) (item : CacheItem) : CacheItem :=
  {| key := key item; value := value item; timestamp := timestamp item;
     ttl := ttl item; type := type item; priority := priority item;
     size := size item; lastAccessed := Some t |}.

(** The cache item as [JSON.stringify] sees it. *)
Definition item_json (item : CacheItem) : Json.value :=
  Json.VObj
    ([("key", Json.VStr (key item)); ("value", value item);
      ("timestamp", Json.VNum (timestamp item)); ("ttl", Json.VNum (ttl item));
      ("type", Json.VStr (type item)); ("priority", Json.VNum (priority item));
      ("size", Json.VNum (size item))]
     ++ match lastAccessed item with
        | Some t => [("lastAccessed", Json.VNum t)]
        | None => []
        end)%list.

Record Options : Type := {
  cacheName : string;
  maxSizeMB : Z;
  defaultTTL : Z;
  enableMemoryCache : bool;
  enableIndexedDB : bool;
  enableServiceWorker : bool;
  cleanupInterval : Z
}.

(** The options of a call of [set]; a missing one is [None]. *)
Record SetOptions : Type := {
  given_ttl : option Z;
  given_type : option string;
  given_priority : option Z
}.

Definition noOptions : SetOptions :=
  {| given_ttl := None; given_type := None; given_priority := None |}.

Record State : Type := {
  isInitialized : bool;
  currentSize : Z;
  itemCount : Z;
  lastCleanup : option Z;
  memoryCache : gmap string CacheItem;
  indexedDB : bool
}.

(** The object store [cache] of the database, with the names of its
    indexes. *)
Record Database : Type := {
  records : gmap string CacheItem;
  indexes : list string
}.

Record Browser : Type := {
  hasIndexedDB : bool;
  hasServiceWorker : bool;
  database : option Database;
  cacheStorage : gmap string Json.value;
  cleanupTimers : nat
}.

(** The platform requests that fail during one call. *)
Record Faults : Type := {
  openFails : bool;
  countFails : bool;
  cursorFails : bool;
  putFails : bool;
  getFails : bool;
  deleteFails : bool;
  registerFails : bool;
  cachePutFails : bool;
  cacheDeleteFails : bool
}.

Definition noFaults : Faults :=
  {| openFails := false; countFails := false; cursorFails := false;
     putFails := false; getFails := false; deleteFails := false;
     registerFails := false; cachePutFails := false; cacheDeleteFails := false |}.

Record Manager : Type := {
  options : Options;
  state : State;
  browser : Browser
}.

(** *** Computations that change the manager and may throw *)

Definition M (A : Type) : Type := Manager → Result A * Manager.

Definition ret {A : Type} (a : A) : M A := λ m, (Ok a, m).

Definition throw {A : Type} (error : string) : M A := λ m, (Thrown error, m).

Definition bind {A B : Type} (c : M A) (k : A → M B) : M B :=
  λ m, match c m with
       | (Ok a, m') => k a m'
       | (Thrown error, m') => (Thrown error, m')
       end.

(** [try { c } catch (error) { handler }]: what [c] changed before it
    threw stays changed. *)
Definition try_catch {A : Type} (c : M A) (handler : string → M A) : M A :=
  λ m, match c m with
       | (Ok a, m') => (Ok a, m')
       | (Thrown error, m') => handler error m'
       end.

Definition read {A : Type} (f : Manager → A) : M A := λ m, (Ok (f m), m).

Definition modify_state (f : State → State) : M unit :=
  λ m, (Ok tt, {| options := options m; state := f (state m); browser := browser m |}).

Definition modify_browser (f : Browser → Browser) : M unit :=
  λ m, (Ok tt, {| options := options m; state := state m; browser := f (browser m) |}).

Definition when (b : bool) (c : M unit) : M unit := if b then c else ret tt.

Notation "'let*' x ':=' c 'in' k" := (bind c (λ x, k))
  (at level 10, x name, c at level 100, k at level 200, only parsing).
Notation "c ';;;' k" := (bind c (λ _, k))
  (at level 100, k at level 200, right associativity, only parsing).

Definition set_isInitialized (b : bool) (st : State) : State :=
  {| isInitialized := b; currentSize := currentSize st; itemCount := itemCount st;
     lastCleanup := lastCleanup st; memoryCache := memoryCache st;
     indexedDB := indexedDB st |}.

Definition set_sizes (bytes count : Z) (st : State) : State :=
  {| isInitialized := isInitialized st; currentSize := bytes; itemCount := count;
     lastCleanup := lastCleanup st; memoryCache := memoryCache st;
     indexedDB := indexedDB st |}.

Definition set_lastCleanup (t : option Z) (st : State) : State :=
  {| isInitialized := isInitialized st; currentSize := currentSize st;
     itemCount := itemCount st; lastCleanup := t; memoryCache := memoryCache st;
     indexedDB := indexedDB st |}.

Definition set_memoryCache (c : gmap string CacheItem) (st : State) : State :=
  {| isInitialized := isInitialized st; currentSize := currentSize st;
     itemCount := itemCount st; lastCleanup := lastCleanup st; memoryCache := c;
     indexedDB := indexedDB st |}.

Definition set_indexedDB (b : bool) (st : State) : State :=
  {| isInitialized := isInitialized st; currentSize := currentSize st;
     itemCount := itemCount st; lastCleanup := lastCleanup st;
     memoryCache := memoryCache st; indexedDB := b |}.

Definition set_database (d : option Database) (b : Browser) : Browser :=
  {| hasIndexedDB := hasIndexedDB b; hasServiceWorker := hasServiceWorker b;
     database := d; cacheStorage := cacheStorage b; cleanupTimers := cleanupTimers b |}.

Definition set_cacheStorage (c : gmap string Json.value) (b : Browser) : Browser :=
  {| hasIndexedDB := hasIndexedDB b; hasServiceWorker := hasServiceWorker b;
     database := database b; cacheStorage := c; cleanupTimers := cleanupTimers b |}.

Definition set_cleanupTimers (n : nat) (b : Browser) : Browser :=
  {| hasIndexedDB := hasIndexedDB b; hasServiceWorker := hasServiceWorker b;
     database := database b; cacheStorage := cacheStorage b; cleanupTimers := n |}.

(** The records of the store; none before the database exists. *)
Definition stored (m : Manager) : gmap string CacheItem :=
  match database (browser m) with
  | Some db => records db
  | None => ∅
  end.

Definition storeIndexes (m : Manager) : list string :=
  match database (browser m) with
  | Some db => indexes db
  | None => []
  end.

Definition set_records (r : gmap string CacheItem) : M unit :=
  modify_browser (λ b, set_database
                         (Some {| records := r;
                                  indexes := match database b with
                                             | Some db => indexes db
                                             | None => []
                                             end |}) b).

(** The sum of the [size] fields and the number of the items of a map. *)
Definition totalSize (c : gmap string CacheItem) : Z :=
  map_fold (λ _ item acc, acc + size item) 0 c.

Definition count (c : gmap string CacheItem) : Z := Z.of_nat (base.size c).

(** [estimateSize]: the number of bytes of the serialisation. *)
Definition estimateSize (v : Json.value) : Z :=
  Z.of_nat (String.length (Json.stringify v)).

(** [x || d] *)
Definition orDefault (x : option Z) (d : Z) : Z :=
  match x with
  | Some v => if v =? 0 then d else v
  | None => d
  end.

Definition orDefaultString (x : option string) (d : string) : string :=
  match x with
  | Some v => if String.eqb v "" then d else v
  | None => d
  end.

(** [isExpired] at the time [now]. *)
Definition isExpired (now : Z) (cacheItem : CacheItem) : bool :=
  ttl cacheItem <? now - timestamp cacheItem.

Section Call.
Context (faults : Faults) (now : Z).

(** [initIndexedDB]: opening creates the store, with its three indexes,
    when the database is new. *)
Definition initIndexedDB : M unit :=
  if openFails faults then throw "open"
  else
    modify_browser (λ b, match database b with
                         | Some _ => b
                         | None => set_database
                                     (Some {| records := ∅;
                                              indexes := ["timestamp"; "size"; "type"] |}) b
                         end) ;;;
    modify_state (set_indexedDB true).

(** [initServiceWorkerCache] catches what it meets. *)
Definition initServiceWorkerCache : M unit :=
  try_catch (if registerFails faults then throw "register" else ret tt) (λ _, ret tt).

(** [calculateCacheSize] *)
Definition calculateCacheSize : M unit :=
  let* fromMemory :=
    read (λ m, if enableMemoryCache (options m)
               then (map_fold (λ _ item acc, acc + estimateSize (item_json item)) 0
                       (memoryCache (state m)),
                     count (memoryCache (state m)))
               else (0, 0)) in
  let* connected := read (λ m, indexedDB (state m)) in
  let* fromStore :=
    if connected then
      if countFails faults then throw "count"
      else read (λ m, (count (stored m) * 1024, count (stored m)))
    else ret (0, 0) in
  modify_state (set_sizes (fromMemory.1 + fromStore.1) (fromMemory.2 + fromStore.2)).

(** [setupCleanupInterval] *)
Definition setupCleanupInterval : M unit :=
  modify_browser (λ b, set_cleanupTimers (S (cleanupTimers b)) b).

(** [init] *)
Definition init : M unit :=
  try_catch
    (let* withStore := read (λ m, enableIndexedDB (options m) && hasIndexedDB (browser m)) in
     when withStore initIndexedDB ;;;
     let* withWorker :=
       read (λ m, enableServiceWorker (options m) && hasServiceWorker (browser m)) in
     when withWorker initServiceWorkerCache ;;;
     calculateCacheSize ;;;
     setupCleanupInterval ;;;
     modify_state (set_isInitialized true))
    (λ _, ret tt).

Definition ensureInitialized : M unit :=
  let* ready := read (λ m, isInitialized (state m)) in
  when (negb ready) init.

(** [isStorageFull] *)
Definition isStorageFull (additionalSize : Z) : M bool :=
  read (λ m, maxSizeMB (options m) * 1024 * 1024 <? currentSize (state m) + additionalSize).

(** [currentSize + requiredSize > maxSizeBytes * 0.7], in exact
    arithmetic.  The code multiplies in floating point, where the product can
    fall a rounding step below seven tenths of the bound; the two tests
    differ only when [currentSize + requiredSize] is exactly seven tenths of
    the bound, which the code may then count as above the target. *)
Definition aboveTarget (requiredSize : Z) (m : Manager) : bool :=
  7 * (maxSizeMB (options m) * 1024 * 1024) <? 10 * (currentSize (state m) + requiredSize).

(** [store.index(name)] throws when the store has no such index. *)
Definition index (name : string) : M unit :=
  let* names := read storeIndexes in
  if Json.includes names name then ret tt else throw "NotFoundError".

(** A cursor that deletes the records it is opened on, and what it
    counts on the way. *)
Definition deleteWhere (P : CacheItem → bool) : M (Z * Z) :=
  if cursorFails faults then throw "cursor"
  else
    let* all := read stored in
    let gone := filter (λ kv, P kv.2 = true) all in
    set_records (filter (λ kv, P kv.2 = false) all) ;;;
    ret (count gone, totalSize gone).

Definition subtract (cleanedCount cleanedSize : Z) : M unit :=
  modify_state (λ st, set_sizes (currentSize st - cleanedSize)
                        (itemCount st - cleanedCount) st).

(** [cleanupExpiredCache]: the memory items are dropped by their own
    time to live, the records of the store by the default one. *)
Definition cleanupExpiredCache : M (Z * Z) :=
  let* withMemory := read (λ m, enableMemoryCache (options m)) in
  let* fromMemory :=
    if withMemory then
      let* cache := read (λ m, memoryCache (state m)) in
      let gone := filter (λ kv, isExpired now kv.2 = true) cache in
      modify_state (set_memoryCache (filter (λ kv, isExpired now kv.2 = false) cache)) ;;;
      ret (count gone, totalSize gone)
    else ret (0, 0) in
  let* connected := read (λ m, indexedDB (state m)) in
  let* fromStore :=
    if connected then
      index "timestamp" ;;;
      let* limit := read (λ m, now - defaultTTL (options m)) in
      deleteWhere (λ item, timestamp item <=? limit)
    else ret (0, 0) in
  subtract (fromMemory.1 + fromStore.1) (fromMemory.2 + fromStore.2) ;;;
  modify_state (set_lastCleanup (Some now)) ;;;
  ret (fromMemory.1 + fromStore.1, fromMemory.2 + fromStore.2).

Definition lowPriority (item : CacheItem) : bool :=
  (1 <=? priority item) && (priority item <=? 3).

(** [cleanupLowPriorityItems] *)
Definition cleanupLowPriorityItems : M unit :=
  let* connected := read (λ m, indexedDB (state m)) in
  if negb connected then ret tt
  else
    index "priority" ;;;
    let* cleaned := deleteWhere lowPriority in
    let* withMemory := read (λ m, enableMemoryCache (options m)) in
    when withMemory
      (modify_state (λ st, set_memoryCache
                             (filter (λ kv, lowPriority kv.2 = false) (memoryCache st)) st)) ;;;
    subtract cleaned.1 cleaned.2.

(** [cleanupOldestItems]: the cursor goes on while [currentSize], which it
    does not change on the way, is above the target. *)
Definition cleanupOldestItems : M unit :=
  let* connected := read (λ m, indexedDB (state m)) in
  if negb connected then ret tt
  else
    index "timestamp" ;;;
    let* above := read (aboveTarget 0) in
    let* cleaned := deleteWhere (λ _, above) in
    subtract cleaned.1 cleaned.2.

(** [makeSpace] *)
Definition makeSpace (requiredSize : Z) : M unit :=
  let* above := read (aboveTarget requiredSize) in
  if negb above then ret tt
  else
    cleanupExpiredCache ;;;
    let* above := read (aboveTarget requiredSize) in
    when above cleanupLowPriorityItems ;;;
    let* above := read (aboveTarget requiredSize) in
    when above cleanupOldestItems.

(** [storeInIndexedDB] *)
Definition storeInIndexedDB (cacheItem : CacheItem) : M unit :=
  if putFails faults then throw "put"
  else let* all := read stored in set_records (<[key cacheItem := cacheItem]> all).

(** [getFromIndexedDB] *)
Definition getFromIndexedDB (k : string) : M (option CacheItem) :=
  if getFails faults then throw "get" else read (λ m, stored m !! k).

(** [deleteFromIndexedDB] *)
Definition deleteFromIndexedDB (k : string) : M unit :=
  if deleteFails faults then throw "delete"
  else let* all := read stored in set_records (delete k all).

(** [updateLastAccessed] *)
Definition updateLastAccessed (k : string) : M unit :=
  let* found := getFromIndexedDB k in
  match found with
  | Some item => storeInIndexedDB (accessed now item)
  | None => ret tt
  end.

(** [storeInServiceWorkerCache] catches what it meets. *)
Definition storeInServiceWorkerCache (k : string) (v : Json.value) : M unit :=
  try_catch
    (if cachePutFails faults then throw "cache.put"
     else modify_browser (λ b, set_cacheStorage (<[k := v]> (cacheStorage b)) b))
    (λ _, ret tt).

(** [deleteFromServiceWorkerCache] catches what it meets. *)
Definition deleteFromServiceWorkerCache (k : string) : M unit :=
  try_catch
    (if cacheDeleteFails faults then throw "cache.delete"
     else modify_browser (λ b, set_cacheStorage (delete k (cacheStorage b)) b))
    (λ _, ret tt).

(** The item that [set] builds. *)
Definition newItem (k : string) (v : Json.value) (given : SetOptions) (m : Manager)
  : CacheItem :=
  {| key := k; value := v; timestamp := now;
     ttl := orDefault (given_ttl given) (defaultTTL (options m));
     type := orDefaultString (given_type given) "json";
     priority := orDefault (given_priority given) 5;
     size := estimateSize v; lastAccessed := None |}.

(** [set] *)
Definition set (k : string) (v : Json.value) (given : SetOptions) : M bool :=
  ensureInitialized ;;;
  let* cacheItem := read (newItem k v given) in
  try_catch
    (let* full := isStorageFull (size cacheItem) in
     when full (makeSpace (size cacheItem)) ;;;
     let* withMemory := read (λ m, enableMemoryCache (options m)) in
     when withMemory
       (modify_state (λ st, set_memoryCache (<[k := cacheItem]> (memoryCache st)) st)) ;;;
     let* connected := read (λ m, indexedDB (state m)) in
     when connected (storeInIndexedDB cacheItem) ;;;
     let* withWorker := read (λ m, enableServiceWorker (options m)) in
     when (withWorker && (String.eqb (type cacheItem) "image"
                          || String.eqb (type cacheItem) "html"))
       (storeInServiceWorkerCache k v) ;;;
     modify_state (λ st, set_sizes (currentSize st + size cacheItem) (itemCount st + 1) st) ;;;
     ret true)
    (λ _, ret false).

(** The second half of [get]: the look in the store, with its [try]. *)
Definition getFromStore (k : string) : M (option Json.value) :=
  let* connected := read (λ m, indexedDB (state m)) in
  if connected then
    try_catch
      (let* dbItem := getFromIndexedDB k in
       match dbItem with
       | Some item =>
           if negb (isExpired now item) then
             let* withMemory := read (λ m, enableMemoryCache (options m)) in
             when withMemory
               (modify_state
                  (λ st, set_memoryCache (<[k := accessed now item]> (memoryCache st)) st)) ;;;
             updateLastAccessed k ;;;
             ret (Some (value item))
           else ret None
       | None => ret None
       end)
      (λ _, ret None)
  else ret None.

(** [get]: [None] is the [null] of a miss. *)
Definition get (k : string) : M (option Json.value) :=
  ensureInitialized ;;;
  let* withMemory := read (λ m, enableMemoryCache (options m)) in
  let* memoryItem :=
    read (λ m, if withMemory then memoryCache (state m) !! k else None) in
  match memoryItem with
  | Some item =>
      if negb (isExpired now item) then
        modify_state
          (λ st, set_memoryCache (<[k := accessed now item]> (memoryCache st)) st) ;;;
        ret (Some (value item))
      else getFromStore k
  | None => getFromStore k
  end.

(** [delete] *)
Definition delete (k : string) : M bool :=
  let* withMemory := read (λ m, enableMemoryCache (options m)) in
  let* memoryItem :=
    read (λ m, if withMemory then memoryCache (state m) !! k else None) in
  match memoryItem with
  | Some item =>
      modify_state (λ st, set_sizes (currentSize st - size item) (itemCount st - 1) st) ;;;
      modify_state (λ st, set_memoryCache (base.delete k (memoryCache st)) st)
  | None => ret tt
  end ;;;
  let* connected := read (λ m, indexedDB (state m)) in
  when connected (deleteFromIndexedDB k) ;;;
  let* withWorker := read (λ m, enableServiceWorker (options m)) in
  when withWorker (deleteFromServiceWorkerCache k) ;;;
  ret true.

(** [clear] *)
Definition clear : M bool :=
  let* withMemory := read (λ m, enableMemoryCache (options m)) in
  when withMemory (modify_state (set_memoryCache ∅)) ;;;
  let* connected := read (λ m, indexedDB (state m)) in
  when connected (set_records ∅) ;;;
  let* withWorker := read (λ m, enableServiceWorker (options m)) in
  when withWorker
    (if cacheDeleteFails faults then throw "caches"
     else modify_browser (set_cacheStorage ∅)) ;;;
  modify_state (set_sizes 0 0) ;;;
  ret true.

End Call.

(** [destroy] *)
Definition destroy (m : Manager) : Manager :=
  {| options := options m;
     state := set_isInitialized false
                (set_indexedDB false (set_memoryCache ∅ (state m)));
     browser := browser m |}.

(** The constructor: the options with their defaults and the first state.
    The [init] it starts without waiting for it has not run when it returns,
    and is left out: a manager is initialised by the [init] of its first
    [set] or [get], where the code, if that call comes before the first
    [init] has settled, runs both and arms a cleanup interval in each. *)
Definition constructor (name : option string) (maxSize ttlDefault : option Z)
    (memory store worker : option bool) (interval : option Z) (b : Browser) : Manager :=
  {| options := {| cacheName := orDefaultString name "financial-insights-v1";
                   maxSizeMB := orDefault maxSize 50;
                   defaultTTL := orDefault ttlDefault (5 * 60 * 1000);
                   enableMemoryCache := default true memory;
                   enableIndexedDB := default true store;
                   enableServiceWorker := default false worker;
                   cleanupInterval := orDefault interval (10 * 60 * 1000) |};
     state := {| isInitialized := false; currentSize := 0; itemCount := 0;
                 lastCleanup := None; memoryCache := ∅; indexedDB := false |};
     browser := b |}.

End CacheManager.

(** ** RealTimeState

    The store keeps a state tree and the history of what its reducer made
    of it.  The model follows the store's own bookkeeping and takes the
    state tree, the actions, the reducer and the write of the time stamp as
    given: the history is handled the same way whatever they are.  A listener
    that is notified runs after the bookkeeping and cannot dispatch, so a
    call is modelled up to its return. *)

Module RealTimeState.
Import Js.

Section Store.
Context {State Action : Type}.

(** [reduce action state now], which may throw, and
    [state.timestamp = now]. *)
Context (reduce : Action → State → Z → Result State).
Context (stamp : Z → State → State).

(** What a record of the history was made for. *)
Inductive Logged : Type :=
| Init
| Reset
| Dispatched (action : Action).

Record Entry : Type := {
  timestamp : Z;
  action : Logged;
  state : State
}.

Record Store : Type := {
  initialState : State;
  current : State;
  middleware : list (Action → State → Result Action);
  isDispatching : bool;
  history : list Entry;
  maxHistorySize : nat
}.

(** What [dispatch] may be handed. *)
Inductive Argument : Type :=
| NotAnObject
| WithoutType
| Plain (action : Action).

Definition with_current (st : State) (s : Store) : Store :=
  {| initialState := initialState s; current := st; middleware := middleware s;
     isDispatching := isDispatching s; history := history s;
     maxHistorySize := maxHistorySize s |}.

Definition with_isDispatching (b : bool) (s : Store) : Store :=
  {| initialState := initialState s; current := current s; middleware := middleware s;
     isDispatching := b; history := history s; maxHistorySize := maxHistorySize s |}.

Definition with_history (h : list Entry) (s : Store) : Store :=
  {| initialState := initialState s; current := current s; middleware := middleware s;
     isDispatching := isDispatching s; history := h;
     maxHistorySize := maxHistorySize s |}.

Definition with_middleware (l : list (Action → State → Result Action)) (s : Store)
  : Store :=
  {| initialState := initialState s; current := current s; middleware := l;
     isDispatching := isDispatching s; history := history s;
     maxHistorySize := maxHistorySize s |}.

(** [array.slice(-n)]: the last [n] elements, and the whole array when
    [n] is 0. *)
Definition slice_last (n : nat) (l : list Entry) : list Entry :=
  match n with
  | O => l
  | S _ => drop (length l - n) l
  end.

(** [runMiddleware] *)
Fixpoint runMiddleware (chain : list (Action → State → Result Action))
    (action : Action) (st : State) : Result Action :=
  match chain with
  | [] => Ok action
  | f :: chain' =>
      match f action st with
      | Ok processed => runMiddleware chain' processed st
      | Thrown e => Thrown e
      end
  end.

(** The history after the record of a dispatch is pushed and the list is
    cut to its bound. *)
Definition record (now : Z) (processed : Action) (newState : State) (s : Store)
  : list Entry :=
  let pushed :=
    (history s ++ [{| timestamp := now; action := Dispatched processed;
                      state := newState |}])%list in
  if (maxHistorySize s <? length pushed)%nat
  then slice_last (maxHistorySize s) pushed
  else pushed.

(** [dispatch]: the three checks, then the [try] block; the [finally]
    clears [isDispatching] on every way out of it. *)
Definition dispatch (argument : Argument) (now : Z) (s : Store)
  : Result State * Store :=
  if isDispatching s then (Thrown "Reducers may not dispatch actions.", s)
  else
    match argument with
    | NotAnObject => (Thrown "Actions must be plain objects.", s)
    | WithoutType => (Thrown "Actions must have a type property.", s)
    | Plain action =>
        match runMiddleware (middleware s) action (current s) with
        | Thrown e => (Thrown e, with_isDispatching false s)
        | Ok processed =>
            match reduce processed (current s) now with
            | Thrown e => (Thrown e, with_isDispatching false s)
            | Ok reduced =>
                let newState := stamp now reduced in
                (Ok newState,
                 with_isDispatching false
                   (with_history (record now processed newState s)
                      (with_current newState s)))
            end
        end
    end.

(** [resetState] *)
Definition resetState (newState : option State) (now : Z) (s : Store) : Store :=
  let st := stamp now (default (initialState s) newState) in
  with_history [{| timestamp := now; action := Reset; state := st |}]
    (with_current st s).

(** [getHistory] *)
Definition getHistory (s : Store) : list Entry := history s.

(** [timeTravelTo] *)
Definition timeTravelTo (index : Z) (s : Store) : Store :=
  if (0 <=? index) && (index <? Z.of_nat (length (history s))) then
    match history s !! Z.to_nat index with
    | Some entry => with_current (state entry) s
    | None => s
    end
  else s.

(** [addMiddleware] and [removeMiddleware] change the chain only; the
    functions of a chain cannot be compared, so the one to remove is given
    by its place. *)
Definition addMiddleware (f : Action → State → Result Action) (s : Store) : Store :=
  with_middleware (middleware s ++ [f])%list s.

Definition removeMiddleware (place : nat) (s : Store) : Store :=
  with_middleware (base.delete place (middleware s)) s.

(** [destroy] *)
Definition destroy (s : Store) : Store :=
  with_history [] (with_middleware [] s).

(** The constructor with [init]: [restored] is the state that
    [loadPersistedState] leaves when persistence is on and a state was
    saved; [setupHistoryTracking] makes the first record. *)
Definition constructor (initial : State) (restored : option State)
    (chain : list (Action → State → Result Action)) (now : Z) : Store :=
  let st := default initial restored in
  {| initialState := initial; current := st; middleware := chain;
     isDispatching := false;
     history := [{| timestamp := now; action := Init; state := st |}];
     maxHistorySize := 50 |}.

(** The calls that reach the history, each with the time it is made
    at. *)
Inductive Call : Type :=
| Dispatch (argument : Argument)
| ResetState (newState : option State)
| TimeTravelTo (index : Z).

Definition call (s : Store) (c : Call * Z) : Store :=
  match c.1 with
  | Dispatch argument => (dispatch argument c.2 s).2
  | ResetState newState => resetState newState c.2 s
  | TimeTravelTo index => timeTravelTo index s
  end.

Definition run (s : Store) (calls : list (Call * Z)) : Store :=
  foldl call s calls.

End Store.

Arguments Logged : clear implicits.
Arguments Entry : clear implicits.
Arguments Store : clear implicits.
Arguments Argument : clear implicits.
Arguments Call : clear implicits.

End RealTimeState.

(** ** RealTimeState with its default state tree

    The state of the store is an object of eight properties, six of which
    are objects themselves.  [{ ...state }] copies the eight properties and
    so shares the six objects, and the reducer writes into them.  The model
    keeps the six kinds of object in a heap and the references to them in the
    top-level objects, which are values: each is built by a spread and, once
    its time stamp is set, written no more.  The store is the one that the
    constructor builds when no initial state is given and persistence and the
    developer tools are off; a listener or a middleware is taken to read the
    state only.  Where the reducer stores what an action carries, the field
    holds any JSON value or [undefined]; the two running averages are
    floating-point numbers, and their arithmetic is a parameter. *)

Module StateTree.
Import Js.

(** A value that may be [undefined]. *)
Definition Val : Type := option Json.value.

Definition loc : Type := positive.

Record Polling : Type := {
  isActive : bool;
  interval : Z;
  lastPollTime : option Z;
  nextPollTime : option Z;
  retryCount : Z;
  maxRetries : Z
}.

Record Data : Type := {
  currentDate : Val;
  lastUpdateId : Val;
  lastUpdateTime : option Z;
  hasUpdates : Val;
  isLoading : bool;
  error : Val
}.

Record User : Type := {
  isOnline : Val;
  isVisible : Val;
  userIsActive : bool;
  lastActivityTime : Z
}.

Record Cache : Type := {
  currentSize : Val;
  maxSize : Z;
  items : Val;
  hitRate : Val;
  lastCleanup : option Z
}.

Record Performance (Average : Type) : Type := {
  lastPollDuration : Val;
  lastRenderDuration : Val;
  averagePollDuration : Average;
  averageRenderDuration : Average;
  totalPolls : Z;
  totalRenders : Z
}.
Arguments lastPollDuration {Average} _.
Arguments lastRenderDuration {Average} _.
Arguments averagePollDuration {Average} _.
Arguments averageRenderDuration {Average} _.
Arguments totalPolls {Average} _.
Arguments totalRenders {Average} _.

Record Ui : Type := {
  isRefreshing : bool;
  lastManualRefresh : option Z;
  showUpdateNotification : bool;
  autoRefreshEnabled : Val;
  theme : Val
}.

(** A top-level state object: six references, the time stamp and the
    version. *)
Record Top : Type := {
  polling : loc;
  data : loc;
  user : loc;
  cache : loc;
  performance : loc;
  ui : loc;
  timestamp : Z;
  version : string
}.

Definition with_timestamp (t : Z) (top : Top) : Top :=
  {| polling := polling top; data := data top; user := user top; cache := cache top;
     performance := performance top; ui := ui top; timestamp := t;
     version := version top |}.

(** An action that is an object with a [type]; [payload] may be
    missing. *)
Record Action : Type := {
  type : Json.value;
  payload : Val
}.

Section Store.
Context {Average : Type}.

(** [zero] is the number 0 and [average oldAvg newCount duration] the
    value of [(oldAvg * (newCount - 1) + duration) / newCount]. *)
Context (zero : Average) (average : Average → Z → Val → Average).

Record Heap : Type := {
  pollingAt : gmap loc Polling;
  dataAt : gmap loc Data;
  userAt : gmap loc User;
  cacheAt : gmap loc Cache;
  performanceAt : gmap loc (Performance Average);
  uiAt : gmap loc Ui
}.

(** *** Computations on the heap that may throw

    What a computation wrote before it threw stays written. *)

Definition M (A : Type) : Type := Heap → Result A * Heap.

Definition ret {A : Type} (a : A) : M A := λ h, (Ok a, h).

Definition throw {A : Type} (e : string) : M A := λ h, (Thrown e, h).

Definition bind {A B : Type} (c : M A) (k : A → M B) : M B :=
  λ h, match c h with
       | (Ok a, h') => k a h'
       | (Thrown e, h') => (Thrown e, h')
       end.

Notation "'let*' x ':=' c 'in' k" := (bind c (λ x, k))
  (at level 10, x name, c at level 100, k at level 200, only parsing).
Notation "c ';;;' k" := (bind c (λ _, k))
  (at level 100, k at level 200, right associativity, only parsing).

(** [action.payload.name]: reading a property of [undefined] or of
    [null] throws. *)
Definition payloadField (action : Action) (name : string) : M Val :=
  match payload action with
  | None | Some Json.VNull => throw "TypeError"
  | Some p => ret (Json.get p name)
  end.

(** A write into the object that a reference leads to. *)
Definition writePolling (l : loc) (f : Polling → Polling) : M unit :=
  λ h, match pollingAt h !! l with
       | Some x =>
           (Ok tt, {| pollingAt := <[l := f x]> (pollingAt h); dataAt := dataAt h;
                      userAt := userAt h; cacheAt := cacheAt h;
                      performanceAt := performanceAt h; uiAt := uiAt h |})
       | None => (Thrown "TypeError", h)
       end.

Definition writeData (l : loc) (f : Data → Data) : M unit :=
  λ h, match dataAt h !! l with
       | Some x =>
           (Ok tt, {| pollingAt := pollingAt h; dataAt := <[l := f x]> (dataAt h);
                      userAt := userAt h; cacheAt := cacheAt h;
                      performanceAt := performanceAt h; uiAt := uiAt h |})
       | None => (Thrown "TypeError", h)
       end.

Definition writeUser (l : loc) (f : User → User) : M unit :=
  λ h, match userAt h !! l with
       | Some x =>
           (Ok tt, {| pollingAt := pollingAt h; dataAt := dataAt h;
                      userAt := <[l := f x]> (userAt h); cacheAt := cacheAt h;
                      performanceAt := performanceAt h; uiAt := uiAt h |})
       | None => (Thrown "TypeError", h)
       end.

Definition writeCache (l : loc) (f : Cache → Cache) : M unit :=
  λ h, match cacheAt h !! l with
       | Some x =>
           (Ok tt, {| pollingAt := pollingAt h; dataAt := dataAt h;
                      userAt := userAt h; cacheAt := <[l := f x]> (cacheAt h);
                      performanceAt := performanceAt h; uiAt := uiAt h |})
       | None => (Thrown "TypeError", h)
       end.

Definition writePerformance (l : loc)
    (f : Performance Average → Performance Average) : M unit :=
  λ h, match performanceAt h !! l with
       | Some x =>
           (Ok tt, {| pollingAt := pollingAt h; dataAt := dataAt h;
                      userAt := userAt h; cacheAt := cacheAt h;
                      performanceAt := <[l := f x]> (performanceAt h); uiAt := uiAt h |})
       | None => (Thrown "TypeError", h)
       end.

Definition writeUi (l : loc) (f : Ui → Ui) : M unit :=
  λ h, match uiAt h !! l with
       | Some x =>
           (Ok tt, {| pollingAt := pollingAt h; dataAt := dataAt h;
                      userAt := userAt h; cacheAt := cacheAt h;
                      performanceAt := performanceAt h; uiAt := <[l := f x]> (uiAt h) |})
       | None => (Thrown "TypeError", h)
       end.

(** *** The assignments of the reducer *)

Definition set_isActive (b : bool) (x : Polling) : Polling :=
  {| isActive := b; interval := interval x; lastPollTime := lastPollTime x;
     nextPollTime := nextPollTime x; retryCount := retryCount x;
     maxRetries := maxRetries x |}.

Definition set_lastPollTime (t : option Z) (x : Polling) : Polling :=
  {| isActive := isActive x; interval := interval x; lastPollTime := t;
     nextPollTime := nextPollTime x; retryCount := retryCount x;
     maxRetries := maxRetries x |}.

Definition set_retryCount (n : Z) (x : Polling) : Polling :=
  {| isActive := isActive x; interval := interval x; lastPollTime := lastPollTime x;
     nextPollTime := nextPollTime x; retryCount := n; maxRetries := maxRetries x |}.

Definition set_currentDate (v : Val) (x : Data) : Data :=
  {| currentDate := v; lastUpdateId := lastUpdateId x;
     lastUpdateTime := lastUpdateTime x; hasUpdates := hasUpdates x;
     isLoading := isLoading x; error := error x |}.

Definition set_lastUpdateId (v : Val) (x : Data) : Data :=
  {| currentDate := currentDate x; lastUpdateId := v;
     lastUpdateTime := lastUpdateTime x; hasUpdates := hasUpdates x;
     isLoading := isLoading x; error := error x |}.

Definition set_lastUpdateTime (t : option Z) (x : Data) : Data :=
  {| currentDate := currentDate x; lastUpdateId := lastUpdateId x;
     lastUpdateTime := t; hasUpdates := hasUpdates x;
     isLoading := isLoading x; error := error x |}.

Definition set_hasUpdates (v : Val) (x : Data) : Data :=
  {| currentDate := currentDate x; lastUpdateId := lastUpdateId x;
     lastUpdateTime := lastUpdateTime x; hasUpdates := v;
     isLoading := isLoading x; error := error x |}.

Definition set_isLoading (b : bool) (x : Data) : Data :=
  {| currentDate := currentDate x; lastUpdateId := lastUpdateId x;
     lastUpdateTime := lastUpdateTime x; hasUpdates := hasUpdates x;
     isLoading := b; error := error x |}.

Definition set_error (v : Val) (x : Data) : Data :=
  {| currentDate := currentDate x; lastUpdateId := lastUpdateId x;
     lastUpdateTime := lastUpdateTime x; hasUpdates := hasUpdates x;
     isLoading := isLoading x; error := v |}.

Definition set_isOnline (v : Val) (x : User) : User :=
  {| isOnline := v; isVisible := isVisible x; userIsActive := userIsActive x;
     lastActivityTime := lastActivityTime x |}.

Definition set_isVisible (v : Val) (x : User) : User :=
  {| isOnline := isOnline x; isVisible := v; userIsActive := userIsActive x;
     lastActivityTime := lastActivityTime x |}.

Definition set_userIsActive (b : bool) (x : User) : User :=
  {| isOnline := isOnline x; isVisible := isVisible x; userIsActive := b;
     lastActivityTime := lastActivityTime x |}.

Definition set_lastActivityTime (t : Z) (x : User) : User :=
  {| isOnline := isOnline x; isVisible := isVisible x; userIsActive := userIsActive x;
     lastActivityTime := t |}.

Definition set_currentSize (v : Val) (x : Cache) : Cache :=
  {| currentSize := v; maxSize := maxSize x; items := items x; hitRate := hitRate x;
     lastCleanup := lastCleanup x |}.

Definition set_items (v : Val) (x : Cache) : Cache :=
  {| currentSize := currentSize x; maxSize := maxSize x; items := v;
     hitRate := hitRate x; lastCleanup := lastCleanup x |}.

Definition set_hitRate (v : Val) (x : Cache) : Cache :=
  {| currentSize := currentSize x; maxSize := maxSize x; items := items x;
     hitRate := v; lastCleanup := lastCleanup x |}.

Definition set_lastCleanup (t : option Z) (x : Cache) : Cache :=
  {| currentSize := currentSize x; maxSize := maxSize x; items := items x;
     hitRate := hitRate x; lastCleanup := t |}.

(** The three assignments of a recorded poll: the duration, the count
    and the average over the new count. *)
Definition recordPoll (duration : Val) (x : Performance Average) : Performance Average :=
  {| lastPollDuration := duration; lastRenderDuration := lastRenderDuration x;
     averagePollDuration := average (averagePollDuration x) (totalPolls x + 1) duration;
     averageRenderDuration := averageRenderDuration x;
     totalPolls := totalPolls x + 1; totalRenders := totalRenders x |}.

Definition recordRender (duration : Val) (x : Performance Average)
  : Performance Average :=
  {| lastPollDuration := lastPollDuration x; lastRenderDuration := duration;
     averagePollDuration := averagePollDuration x;
     averageRenderDuration :=
       average (averageRenderDuration x) (totalRenders x + 1) duration;
     totalPolls := totalPolls x; totalRenders := totalRenders x + 1 |}.

Definition set_isRefreshing (b : bool) (x : Ui) : Ui :=
  {| isRefreshing := b; lastManualRefresh := lastManualRefresh x;
     showUpdateNotification := showUpdateNotification x;
     autoRefreshEnabled := autoRefreshEnabled x; theme := theme x |}.

Definition set_lastManualRefresh (t : option Z) (x : Ui) : Ui :=
  {| isRefreshing := isRefreshing x; lastManualRefresh := t;
     showUpdateNotification := showUpdateNotification x;
     autoRefreshEnabled := autoRefreshEnabled x; theme := theme x |}.

Definition set_showUpdateNotification (b : bool) (x : Ui) : Ui :=
  {| isRefreshing := isRefreshing x; lastManualRefresh := lastManualRefresh x;
     showUpdateNotification := b;
     autoRefreshEnabled := autoRefreshEnabled x; theme := theme x |}.

Definition set_autoRefreshEnabled (v : Val) (x : Ui) : Ui :=
  {| isRefreshing := isRefreshing x; lastManualRefresh := lastManualRefresh x;
     showUpdateNotification := showUpdateNotification x;
     autoRefreshEnabled := v; theme := theme x |}.

Definition set_theme (v : Val) (x : Ui) : Ui :=
  {| isRefreshing := isRefreshing x; lastManualRefresh := lastManualRefresh x;
     showUpdateNotification := showUpdateNotification x;
     autoRefreshEnabled := autoRefreshEnabled x; theme := v |}.

(** The names of the actions that the reducer knows. *)
Definition knownTypes : list string :=
  ["POLLING_STARTED"; "POLLING_STOPPED"; "POLLING_COMPLETED"; "POLLING_FAILED";
   "DATA_UPDATED"; "DATA_UPDATE_CHECKED"; "DATA_LOADING_STARTED";
   "DATA_LOADING_COMPLETED"; "NETWORK_STATUS_CHANGED"; "VISIBILITY_CHANGED";
   "USER_ACTIVITY_DETECTED"; "USER_INACTIVE"; "CACHE_UPDATED";
   "CACHE_CLEANUP_COMPLETED"; "PERFORMANCE_METRIC_RECORDED"; "REFRESH_STARTED";
   "REFRESH_COMPLETED"; "UPDATE_NOTIFICATION_SHOWN"; "UPDATE_NOTIFICATION_DISMISSED";
   "AUTO_REFRESH_TOGGLED"; "THEME_CHANGED"].

(** The body of a case of the [switch] of [reduce], by the name of the
    case; [newState] is the copy of the state. *)
Definition reduceCase (name : string) (action : Action) (newState : Top) (now : Z)
  : M unit :=
  if String.eqb name "POLLING_STARTED" then
    writePolling (polling newState) (set_isActive true) ;;;
    writePolling (polling newState) (set_lastPollTime (Some now))
  else if String.eqb name "POLLING_STOPPED" then
    writePolling (polling newState) (set_isActive false)
  else if String.eqb name "POLLING_COMPLETED" then
    writePolling (polling newState) (set_lastPollTime (Some now)) ;;;
    writePolling (polling newState) (set_retryCount 0) ;;;
    writeData (data newState) (set_isLoading false) ;;;
    writeData (data newState) (set_error (Some Json.VNull))
  else if String.eqb name "POLLING_FAILED" then
    writePolling (polling newState) (λ x, set_retryCount (retryCount x + 1) x) ;;;
    let* e := payloadField action "error" in
    writeData (data newState) (set_error e) ;;;
    writeData (data newState) (set_isLoading false)
  else if String.eqb name "DATA_UPDATED" then
    let* date := payloadField action "date" in
    writeData (data newState) (set_currentDate date) ;;;
    let* updateId := payloadField action "updateId" in
    writeData (data newState) (set_lastUpdateId updateId) ;;;
    writeData (data newState) (set_lastUpdateTime (Some now)) ;;;
    writeData (data newState) (set_hasUpdates (Some (Json.VBool true)))
  else if String.eqb name "DATA_UPDATE_CHECKED" then
    let* updates := payloadField action "hasUpdates" in
    writeData (data newState) (set_hasUpdates updates)
  else if String.eqb name "DATA_LOADING_STARTED" then
    writeData (data newState) (set_isLoading true)
  else if String.eqb name "DATA_LOADING_COMPLETED" then
    writeData (data newState) (set_isLoading false)
  else if String.eqb name "NETWORK_STATUS_CHANGED" then
    let* online := payloadField action "isOnline" in
    writeUser (user newState) (set_isOnline online)
  else if String.eqb name "VISIBILITY_CHANGED" then
    let* visible := payloadField action "isVisible" in
    writeUser (user newState) (set_isVisible visible)
  else if String.eqb name "USER_ACTIVITY_DETECTED" then
    writeUser (user newState) (set_userIsActive true) ;;;
    writeUser (user newState) (set_lastActivityTime now)
  else if String.eqb name "USER_INACTIVE" then
    writeUser (user newState) (set_userIsActive false)
  else if String.eqb name "CACHE_UPDATED" then
    let* size := payloadField action "currentSize" in
    writeCache (cache newState) (set_currentSize size) ;;;
    let* count := payloadField action "items" in
    writeCache (cache newState) (set_items count) ;;;
    let* rate := payloadField action "hitRate" in
    writeCache (cache newState) (set_hitRate rate)
  else if String.eqb name "CACHE_CLEANUP_COMPLETED" then
    writeCache (cache newState) (set_lastCleanup (Some now))
  else if String.eqb name "PERFORMANCE_METRIC_RECORDED" then
    let* kind := payloadField action "type" in
    match kind with
    | Some (Json.VStr k) =>
        if String.eqb k "poll" then
          let* duration := payloadField action "duration" in
          writePerformance (performance newState) (recordPoll duration)
        else if String.eqb k "render" then
          let* duration := payloadField action "duration" in
          writePerformance (performance newState) (recordRender duration)
        else ret tt
    | _ => ret tt
    end
  else if String.eqb name "REFRESH_STARTED" then
    writeUi (ui newState) (set_isRefreshing true)
  else if String.eqb name "REFRESH_COMPLETED" then
    writeUi (ui newState) (set_isRefreshing false) ;;;
    writeUi (ui newState) (set_lastManualRefresh (Some now))
  else if String.eqb name "UPDATE_NOTIFICATION_SHOWN" then
    writeUi (ui newState) (set_showUpdateNotification true)
  else if String.eqb name "UPDATE_NOTIFICATION_DISMISSED" then
    writeUi (ui newState) (set_showUpdateNotification false)
  else if String.eqb name "AUTO_REFRESH_TOGGLED" then
    let* enabled := payloadField action "enabled" in
    writeUi (ui newState) (set_autoRefreshEnabled enabled)
  else if String.eqb name "THEME_CHANGED" then
    let* chosen := payloadField action "theme" in
    writeUi (ui newState) (set_theme chosen)
  else ret tt.

(** [reduce]: the copy of the state, which shares the six objects, then
    the [switch], which compares with [===] and so takes a case for a
    string only. *)
Definition reduce (action : Action) (state : Top) (now : Z) : M Top :=
  let newState := state in
  match type action with
  | Json.VStr name => reduceCase name action newState now
  | _ => ret tt
  end ;;;
  ret newState.

(** *** The store *)

(** What a record of the history was made for. *)
Inductive Logged : Type :=
| Init
| Reset
| Dispatched (action : Action).

Record Entry : Type := {
  entryTimestamp : Z;
  entryAction : Logged;
  entryState : Top
}.

Record Store : Type := {
  initialState : Top;
  state : Top;
  middleware : list (Action → Top → Heap → Result Action);
  isDispatching : bool;
  history : list Entry;
  maxHistorySize : nat;
  heap : Heap
}.

Definition with_state (top : Top) (s : Store) : Store :=
  {| initialState := initialState s; state := top; middleware := middleware s;
     isDispatching := isDispatching s; history := history s;
     maxHistorySize := maxHistorySize s; heap := heap s |}.

Definition with_history (l : list Entry) (s : Store) : Store :=
  {| initialState := initialState s; state := state s; middleware := middleware s;
     isDispatching := isDispatching s; history := l;
     maxHistorySize := maxHistorySize s; heap := heap s |}.

Definition with_heap (h : Heap) (s : Store) : Store :=
  {| initialState := initialState s; state := state s; middleware := middleware s;
     isDispatching := isDispatching s; history := history s;
     maxHistorySize := maxHistorySize s; heap := h |}.

Definition with_isDispatching (b : bool) (s : Store) : Store :=
  {| initialState := initialState s; state := state s; middleware := middleware s;
     isDispatching := b; history := history s;
     maxHistorySize := maxHistorySize s; heap := heap s |}.

(** [getDefaultState]: six new objects at the references [l], [l + 1],
    ..., and the object that refers to them. *)
Definition getDefaultState (online hidden : bool) (now : Z) (l : loc) : Top * Heap :=
  ({| polling := l; data := l + 1; user := l + 2; cache := l + 3;
      performance := l + 4; ui := l + 5; timestamp := now;
      version := "1.0.0" |}%positive,
   {| pollingAt := {[ l := {| isActive := false; interval := 30000;
                              lastPollTime := None; nextPollTime := None;
                              retryCount := 0; maxRetries := 3 |} ]};
      dataAt := {[ (l + 1)%positive :=
                     {| currentDate := Some Json.VNull; lastUpdateId := Some Json.VNull;
                        lastUpdateTime := None;
                        hasUpdates := Some (Json.VBool false); isLoading := false;
                        error := Some Json.VNull |} ]};
      userAt := {[ (l + 2)%positive :=
                     {| isOnline := Some (Json.VBool online);
                        isVisible := Some (Json.VBool (negb hidden));
                        userIsActive := true; lastActivityTime := now |} ]};
      cacheAt := {[ (l + 3)%positive :=
                      {| currentSize := Some (Json.VNum 0);
                         maxSize := 50 * 1024 * 1024;
                         items := Some (Json.VNum 0); hitRate := Some (Json.VNum 0);
                         lastCleanup := None |} ]};
      performanceAt := {[ (l + 4)%positive :=
                            {| lastPollDuration := Some (Json.VNum 0);
                               lastRenderDuration := Some (Json.VNum 0);
                               averagePollDuration := zero;
                               averageRenderDuration := zero;
                               totalPolls := 0; totalRenders := 0 |} ]};
      uiAt := {[ (l + 5)%positive :=
                   {| isRefreshing := false; lastManualRefresh := None;
                      showUpdateNotification := false;
                      autoRefreshEnabled := Some (Json.VBool true);
                      theme := Some (Json.VStr "dark") |} ]} |}).

(** The constructor with no options, and [init]: the state is a copy of
    the initial state and the first record of the history a copy of the
    state. *)
Definition constructor (online hidden : bool) (now : Z) : Store :=
  let '(initial, h) := getDefaultState online hidden now 1%positive in
  {| initialState := initial; state := initial; middleware := [];
     isDispatching := false;
     history := [{| entryTimestamp := now; entryAction := Init; entryState := initial |}];
     maxHistorySize := 50; heap := h |}.

(** [array.slice(-n)] *)
Definition slice_last (n : nat) (l : list Entry) : list Entry :=
  match n with
  | O => l
  | S _ => drop (length l - n) l
  end.

(** [runMiddleware] *)
Fixpoint runMiddleware (chain : list (Action → Top → Heap → Result Action))
    (action : Action) (top : Top) (h : Heap) : Result Action :=
  match chain with
  | [] => Ok action
  | f :: chain' =>
      match f action top h with
      | Ok processed => runMiddleware chain' processed top h
      | Thrown e => Thrown e
      end
  end.

(** What [dispatch] may be handed. *)
Inductive Argument : Type :=
| NotAnObject
| WithoutType
| Plain (action : Action).

(** [dispatch]: the three checks, then the [try] block; the [finally]
    clears [isDispatching] on every way out of it.  When the reducer throws,
    what it wrote into the shared objects before stays written. *)
Definition dispatch (argument : Argument) (now : Z) (s : Store) : Result Top * Store :=
  if isDispatching s then (Thrown "Reducers may not dispatch actions.", s)
  else
    match argument with
    | NotAnObject => (Thrown "Actions must be plain objects.", s)
    | WithoutType => (Thrown "Actions must have a type property.", s)
    | Plain action =>
        match runMiddleware (middleware s) action (state s) (heap s) with
        | Thrown e => (Thrown e, with_isDispatching false s)
        | Ok processed =>
            match reduce processed (state s) now (heap s) with
            | (Thrown e, h) => (Thrown e, with_isDispatching false (with_heap h s))
            | (Ok reduced, h) =>
                let newState := with_timestamp now reduced in
                let pushed :=
                  (history s ++ [{| entryTimestamp := now;
                                    entryAction := Dispatched processed;
                                    entryState := newState |}])%list in
                (Ok newState,
                 with_isDispatching false
                   (with_history
                      (if (maxHistorySize s <? length pushed)%nat
                       then slice_last (maxHistorySize s) pushed
                       else pushed)
                      (with_state newState (with_heap h s))))
            end
        end
    end.

(** [getState] *)
Definition getState (s : Store) : Top := state s.

(** [resetState] *)
Definition resetState (newState : option Top) (now : Z) (s : Store) : Store :=
  let top := with_timestamp now (default (initialState s) newState) in
  with_history [{| entryTimestamp := now; entryAction := Reset; entryState := top |}]
    (with_state top s).

(** [timeTravelTo] *)
Definition timeTravelTo (index : Z) (s : Store) : Store :=
  if (0 <=? index) && (index <? Z.of_nat (length (history s))) then
    match history s !! Z.to_nat index with
    | Some entry => with_state (entryState entry) s
    | None => s
    end
  else s.

(** The state as a reader of the store sees it: the eight properties
    with the six objects looked up. *)
Record Tree : Type := {
  treePolling : option Polling;
  treeData : option Data;
  treeUser : option User;
  treeCache : option Cache;
  treePerformance : option (Performance Average);
  treeUi : option Ui;
  treeTimestamp : Z;
  treeVersion : string
}.

Definition read (h : Heap) (top : Top) : Tree :=
  {| treePolling := pollingAt h !! polling top;
     treeData := dataAt h !! data top;
     treeUser := userAt h !! user top;
     treeCache := cacheAt h !! cache top;
     treePerformance := performanceAt h !! performance top;
     treeUi := uiAt h !! ui top;
     treeTimestamp := timestamp top;
     treeVersion := version top |}.

(** The calls on a store, each with the time it is made at.  The
    [resetState] of a run is [resetState()], the call without a state, which
    goes back to the initial state; what [resetState(newState)] does is
    [resetState (Some newState)], which is no call of a run. *)
Inductive Call : Type :=
| Dispatch (argument : Argument)
| ResetState
| TimeTravelTo (index : Z).

Definition call (s : Store) (c : Call * Z) : Store :=
  match c.1 with
  | Dispatch argument => (dispatch argument c.2 s).2
  | ResetState => resetState None c.2 s
  | TimeTravelTo index => timeTravelTo index s
  end.

Definition run (s : Store) (calls : list (Call * Z)) : Store :=
  foldl call s calls.

End Store.

Arguments Heap : clear implicits.
Arguments Store : clear implicits.
Arguments Tree : clear implicits.

End StateTree.

(** * Properties of the change detector *)

Section ChangeDetectorFacts.
Import Js Json ChangeDetector.
Context (options : Options).

Definition addedKeys (cs : ChangeSet.t) : list string := Entry.key <$> ChangeSet.added cs.
Definition updatedKeys (cs : ChangeSet.t) : list string := Updated.key <$> ChangeSet.updated cs.
Definition removedKeys (cs : ChangeSet.t) : list string := Entry.key <$> ChangeSet.removed cs.
Definition unchangedKeys (cs : ChangeSet.t) : list string := Entry.key <$> ChangeSet.unchanged cs.

(** The comparison function, when one is configured, answers on every
    pair of items. *)
Definition total_comparison : Prop :=
  ∀ compare, compareFunction options = Some compare →
    ∀ a b, ∃ r, compare a b = Ok r.

(** Every item yields a usable key and no two items share one: the map
    built from the collection has as many entries as the collection. *)
Definition well_keyed (data : list value) : Prop :=
  length (buildDataMap options data) = length data.

Lemma assoc_None {A : Type} (k : string) (m : list (string * A)) :
  assoc k m = None ↔ k ∉ m.*1.
Proof.
  induction m as [|[k' v] m IH]; simpl.
  - split; [intros _ | reflexivity]. apply not_elem_of_nil.
  - destruct (String.eqb_spec k' k) as [->|Hne].
    + split; [discriminate | intros H; exfalso; apply H; left].
    + rewrite IH, not_elem_of_cons. split; [intros ?; split; [by intros -> | done] | tauto].
Qed.

Lemma assoc_is_Some {A : Type} (k : string) (m : list (string * A)) :
  is_Some (assoc k m) ↔ k ∈ m.*1.
Proof.
  destruct (assoc k m) eqn:E.
  - split; [|eauto]. intros _. destruct (decide (k ∈ m.*1)) as [|Hn]; [done|].
    apply assoc_None in Hn. congruence.
  - apply assoc_None in E. split; [intros [? ?]; done | done].
Qed.

Lemma map_has_true (m : list (string * value)) (k : string) :
  map_has m k = true ↔ k ∈ m.*1.
Proof. unfold map_has, map_get. rewrite bool_decide_eq_true. apply assoc_is_Some. Qed.

Lemma map_set_keys (m : list (string * value)) (k : string) (v : value) :
  (map_set m k v).*1 = if decide (k ∈ m.*1) then m.*1 else (m.*1 ++ [k])%list.
Proof.
  induction m as [|[k' v'] m IH].
  - destruct (decide (k ∈ ([] : list (string * value)).*1)) as [Hin|Hin]; [|done].
    by apply elem_of_nil in Hin.
  - cbn [map_set]. destruct (String.eqb_spec k' k) as [->|Hne].
    + rewrite decide_True; [done | left].
    + rewrite fmap_cons, IH. cbn [fst]. destruct (decide (k ∈ m.*1)) as [Hin|Hin].
      * rewrite decide_True; [done | by right].
      * rewrite decide_False; [done |]. intros [->|?]%elem_of_cons; done.
Qed.

Lemma map_set_NoDup (m : list (string * value)) (k : string) (v : value) :
  NoDup m.*1 → NoDup (map_set m k v).*1.
Proof.
  intros Hnd. rewrite map_set_keys. case_decide; [done|].
  apply NoDup_app. split_and!; [done | | apply NoDup_singleton].
  intros x Hx ->%list_elem_of_singleton. done.
Qed.

(** The step of [buildDataMap]. *)
Definition keep (m : list (string * value)) (item : value) : list (string * value) :=
  match getItemKey options item with
  | Some key => if String.eqb key "" then m else map_set m key item
  | None => m
  end.

Lemma buildDataMap_foldl (data : list value) :
  buildDataMap options data = foldl keep [] data.
Proof. done. Qed.

Lemma keep_NoDup (m : list (string * value)) (item : value) :
  NoDup m.*1 → NoDup (keep m item).*1.
Proof.
  intros Hnd. unfold keep. destruct (getItemKey options item) as [key|]; [|done].
  destruct (String.eqb key ""); [done|]. by apply map_set_NoDup.
Qed.

Lemma foldl_keep_NoDup (data : list value) (m : list (string * value)) :
  NoDup m.*1 → NoDup (foldl keep m data).*1.
Proof.
  revert m. induction data as [|item data IH]; intros m Hnd; simpl; [done|].
  apply IH. by apply keep_NoDup.
Qed.

Lemma buildDataMap_NoDup (data : list value) :
  NoDup (buildDataMap options data).*1.
Proof. rewrite buildDataMap_foldl. apply foldl_keep_NoDup. simpl. apply NoDup_nil_2. Qed.

Lemma keep_keys (m : list (string * value)) (item : value) (k : string) :
  k ∈ (keep m item).*1 ↔
  k ∈ m.*1 ∨ (getItemKey options item = Some k ∧ k ≠ "").
Proof.
  unfold keep. destruct (getItemKey options item) as [key|] eqn:E.
  - destruct (String.eqb_spec key "") as [->|Hne].
    + naive_solver.
    + rewrite map_set_keys. case_decide.
      * naive_solver.
      * rewrite elem_of_app, list_elem_of_singleton. naive_solver.
  - naive_solver.
Qed.

Lemma foldl_keep_keys (data : list value) (m : list (string * value)) (k : string) :
  k ∈ (foldl keep m data).*1 ↔
  k ∈ m.*1 ∨ (k ≠ "" ∧ ∃ item, item ∈ data ∧ getItemKey options item = Some k).
Proof.
  revert m. induction data as [|item data IH]; intros m; simpl.
  - split; [by left|]. intros [?|(_ & item & Hin & _)]; [done|].
    by apply elem_of_nil in Hin.
  - rewrite IH, keep_keys. split.
    + intros [[?|[? ?]]|(? & it & ? & ?)].
      * by left.
      * right. split; [done|]. exists item. split; [left | done].
      * right. split; [done|]. exists it. split; [by right | done].
    + intros [?|(? & it & [->|?]%elem_of_cons & ?)].
      * left. by left.
      * left. by right.
      * right. split; [done|]. by exists it.
Qed.

(** The keys of a collection are the non-empty keys of its items. *)
Lemma buildDataMap_keys (data : list value) (k : string) :
  k ∈ (buildDataMap options data).*1 ↔
  k ≠ "" ∧ ∃ item, item ∈ data ∧ getItemKey options item = Some k.
Proof.
  rewrite buildDataMap_foldl, foldl_keep_keys. simpl.
  split; [intros [H|H]; [by apply elem_of_nil in H | done] | by right].
Qed.

Lemma areItemsEqual_total :
  total_comparison → ∀ a b, ∃ r, areItemsEqual options a b = Ok r.
Proof.
  intros Htot a b. unfold areItemsEqual.
  destruct (compareFunction options) as [compare|] eqn:E.
  - by apply (Htot compare).
  - destruct (deepCompare options); eauto.
Qed.

(** The flag says whether one of the three lists of changes has an
    element. *)
Definition flag_sound (cs : ChangeSet.t) : Prop :=
  ChangeSet.hasChanges cs = true ↔
  (addedKeys cs ++ updatedKeys cs ++ removedKeys cs)%list ≠ [].

Lemma visitNew_spec (oldMap : list (string * value)) (newData : list value)
    (cs : ChangeSet.t) (k : string) (newItem : value) :
  total_comparison →
  ∃ cs', visitNew options oldMap newData cs (k, newItem) = Ok cs' ∧
    removedKeys cs' = removedKeys cs ∧
    ChangeSet.summary cs' = ChangeSet.summary cs ∧
    ChangeSet.error cs' = ChangeSet.error cs ∧
    (flag_sound cs → flag_sound cs') ∧
    (((k ∉ oldMap.*1) ∧ addedKeys cs' = (addedKeys cs ++ [k])%list ∧
      updatedKeys cs' = updatedKeys cs ∧ unchangedKeys cs' = unchangedKeys cs ∧
      ChangeSet.hasChanges cs' = true ∧
      map_get oldMap k = None)
     ∨ ((k ∈ oldMap.*1) ∧ addedKeys cs' = addedKeys cs ∧
        updatedKeys cs' = (updatedKeys cs ++ [k])%list ∧
        unchangedKeys cs' = unchangedKeys cs ∧
        ChangeSet.hasChanges cs' = true ∧
        ∃ oldItem, map_get oldMap k = Some oldItem ∧
                   areItemsEqual options oldItem newItem = Ok false)
     ∨ ((k ∈ oldMap.*1) ∧ addedKeys cs' = addedKeys cs ∧
        updatedKeys cs' = updatedKeys cs ∧
        unchangedKeys cs' = (unchangedKeys cs ++ [k])%list ∧
        ChangeSet.hasChanges cs' = ChangeSet.hasChanges cs ∧
        ∃ oldItem, map_get oldMap k = Some oldItem ∧
                   areItemsEqual options oldItem newItem = Ok true)).
Proof.
  intros Htot. destruct cs as [flag a u r n sm e].
  assert (∀ (x : string) (xs ys zs : list string),
            ((xs ++ [x]) ++ ys ++ zs)%list ≠ [] ∧ (xs ++ (ys ++ [x]) ++ zs)%list ≠ [])
    as Hne.
  { intros x xs ys zs. split; intros Heq; apply (f_equal length) in Heq;
      rewrite !length_app in Heq; simpl in Heq; lia. }
  unfold visitNew. destruct (map_get oldMap k) as [oldItem|] eqn:Hget.
  - assert (k ∈ oldMap.*1) as Hin by (apply assoc_is_Some; unfold map_get in Hget; eauto).
    destruct (areItemsEqual_total Htot oldItem newItem) as [[] Hr]; rewrite Hr;
      (eexists; split; [done|]);
      unfold flag_sound, addedKeys, updatedKeys, removedKeys, unchangedKeys; simpl;
      rewrite ?fmap_app; simpl.
    + split_and!; [done | done | done | done |]. right; right. split_and!; eauto.
    + split_and!; [done | done | done | |].
      * intros _. split; [intros _; apply Hne | done].
      * right; left. split_and!; eauto.
  - assert (k ∉ oldMap.*1) as Hin by (by apply assoc_None).
    eexists; split; [done|].
    unfold flag_sound, addedKeys, updatedKeys, removedKeys, unchangedKeys; simpl.
    rewrite ?fmap_app; simpl.
    split_and!; [done | done | done | |].
    + intros _. split; [intros _; apply Hne | done].
    + left. done.
Qed.

(** The loop over the new map: it ends, leaves [removed] alone, sends the
    keys that the old map lacks to [added] and shares the others between
    [updated] and [unchanged]; its flag is the one the quick check
    computes. *)
Lemma visitNew_loop (oldMap : list (string * value)) (newData : list value)
    (l : list (string * value)) (cs : ChangeSet.t) :
  total_comparison →
  ∃ cs' b, forEach (visitNew options oldMap newData) cs l = Ok cs' ∧
    anyChanged options oldMap l = Ok b ∧
    ChangeSet.hasChanges cs' = ChangeSet.hasChanges cs || b ∧
    (b = false → ∀ k, k ∈ l.*1 → k ∈ oldMap.*1) ∧
    removedKeys cs' = removedKeys cs ∧
    ChangeSet.summary cs' = ChangeSet.summary cs ∧
    ChangeSet.error cs' = ChangeSet.error cs ∧
    (flag_sound cs → flag_sound cs') ∧
    addedKeys cs' = (addedKeys cs ++ filter (λ k, k ∉ oldMap.*1) l.*1)%list ∧
    (updatedKeys cs' ++ unchangedKeys cs')%list ≡ₚ
      ((updatedKeys cs ++ unchangedKeys cs) ++ filter (λ k, k ∈ oldMap.*1) l.*1)%list.
Proof.
  intros Htot. revert cs. induction l as [|[k newItem] l IH]; intros cs.
  - exists cs, false. simpl. rewrite orb_false_r, !app_nil_r. split_and!; try done.
    intros _ k Hk. by apply elem_of_nil in Hk.
  - destruct (visitNew_spec oldMap newData cs k newItem Htot)
      as (cs1 & Hstep & Hr & Hsm & He & Hfl & Hcase).
    destruct (IH cs1) as (cs' & b & Hrun & Hany & Hflag & Hsub & Hr' & Hsm' & He' & Hfl' & Ha & Hun).
    cbn [forEach anyChanged fmap list_fmap fst]. rewrite Hstep.
    destruct Hcase as [(Hnin & Ha1 & Hu1 & Hn1 & Hf1 & Hget)
                      |[(Hin & Ha1 & Hu1 & Hn1 & Hf1 & oldItem & Hget & Heq)
                       |(Hin & Ha1 & Hu1 & Hn1 & Hf1 & oldItem & Hget & Heq)]].
    + exists cs', true. rewrite Hget. split_and!; try done; try congruence.
      * rewrite Hflag, Hf1. by rewrite orb_true_r.
      * tauto.
      * rewrite Ha, Ha1, filter_cons_True by done. by rewrite <- app_assoc.
      * rewrite Hun, Hu1, Hn1, filter_cons_False by tauto. done.
    + exists cs', true. rewrite Hget, Heq. split_and!; try done; try congruence.
      * rewrite Hflag, Hf1. by rewrite orb_true_r.
      * tauto.
      * rewrite Ha, Ha1, filter_cons_False by tauto. done.
      * rewrite Hun, Hu1, Hn1, filter_cons_True by done.
        rewrite <- !app_assoc. apply Permutation_app_head. simpl.
        by rewrite Permutation_middle.
    + exists cs', b. rewrite Hget, Heq. split_and!; try done; try congruence.
      * intros Hb x [->|Hx]%elem_of_cons; [done | by apply Hsub].
      * tauto.
      * rewrite Ha, Ha1, filter_cons_False by tauto. done.
      * rewrite Hun, Hu1, Hn1, filter_cons_True by done.
        by rewrite <- !app_assoc.
Qed.
(** The loop over the old map: the keys that the new map lacks go to
    [removed], nothing else moves. *)
Lemma visitOld_loop (newMap : list (string * value)) (oldData : list value)
    (l : list (string * value)) (cs : ChangeSet.t) :
  let cs' := foldl (visitOld options newMap oldData) cs l in
  addedKeys cs' = addedKeys cs ∧
  updatedKeys cs' = updatedKeys cs ∧
  unchangedKeys cs' = unchangedKeys cs ∧
  ChangeSet.summary cs' = ChangeSet.summary cs ∧
  ChangeSet.error cs' = ChangeSet.error cs ∧
  removedKeys cs' = (removedKeys cs ++ filter (λ k, k ∉ newMap.*1) l.*1)%list ∧
  (flag_sound cs → flag_sound cs') ∧
  ChangeSet.hasChanges cs' =
    (ChangeSet.hasChanges cs || bool_decide (filter (λ k, k ∉ newMap.*1) l.*1 ≠ [])).
Proof.
  revert cs. induction l as [|[k oldItem] l IH]; intros cs; cbn zeta.
  - simpl. rewrite app_nil_r, orb_false_r. done.
  - cbn [foldl]. specialize (IH (visitOld options newMap oldData cs (k, oldItem))).
    cbn zeta in IH. destruct IH as (Ha & Hu & Hn & Hsm & He & Hr & Hfl & Hflag).
    rewrite Ha, Hu, Hn, Hsm, He, Hr, Hflag. clear Ha Hu Hn Hsm He Hr Hflag.
    destruct cs as [flag a u r n sm e]. unfold visitOld in *.
    cbn [fmap list_fmap fst].
    destruct (map_has newMap k) eqn:Hhas.
    + apply map_has_true in Hhas. rewrite filter_cons_False by tauto. done.
    + assert (k ∉ newMap.*1) as Hnin.
      { intros Hin%map_has_true. congruence. }
      rewrite filter_cons_True by done.
      unfold addedKeys, updatedKeys, unchangedKeys, removedKeys in *. simpl.
      rewrite fmap_app, <- app_assoc. simpl. split_and!; try done.
      * intros _. apply Hfl. unfold flag_sound, addedKeys, updatedKeys, removedKeys.
        simpl. split; [intros _ | done]. rewrite fmap_app. simpl.
        intros Heq. apply (f_equal length) in Heq.
        rewrite !length_app in Heq. simpl in Heq. lia.
      * by rewrite orb_true_r.
Qed.

Lemma updateSummary_keys (cs : ChangeSet.t) :
  addedKeys (updateSummary cs) = addedKeys cs ∧
  updatedKeys (updateSummary cs) = updatedKeys cs ∧
  removedKeys (updateSummary cs) = removedKeys cs ∧
  unchangedKeys (updateSummary cs) = unchangedKeys cs ∧
  ChangeSet.hasChanges (updateSummary cs) = ChangeSet.hasChanges cs ∧
  ChangeSet.error (updateSummary cs) = ChangeSet.error cs.
Proof. by destruct cs. Qed.

(** What [detectChanges] answers when no comparison throws. *)
Lemma detectChanges_keys (oldData newData : list value) :
  total_comparison →
  let cs := detectChanges options oldData newData in
  let oldKeys := (buildDataMap options oldData).*1 in
  let newKeys := (buildDataMap options newData).*1 in
  ∃ b,
    anyChanged options (buildDataMap options oldData) (buildDataMap options newData)
      = Ok b ∧
    (b = false → ∀ k, k ∈ newKeys → k ∈ oldKeys) ∧
    ChangeSet.hasChanges cs =
      (b || bool_decide (filter (λ k, k ∉ newKeys) oldKeys ≠ [])) ∧
    ChangeSet.error cs = None ∧
    flag_sound cs ∧
    addedKeys cs = filter (λ k, k ∉ oldKeys) newKeys ∧
    (updatedKeys cs ++ unchangedKeys cs)%list ≡ₚ filter (λ k, k ∈ oldKeys) newKeys ∧
    removedKeys cs = filter (λ k, k ∉ newKeys) oldKeys.
Proof.
  intros Htot. cbn zeta. unfold detectChanges.
  destruct (visitNew_loop (buildDataMap options oldData) newData
              (buildDataMap options newData) (emptyChanges oldData newData) Htot)
    as (cs1 & b & Hrun & Hany & Hflag & Hsub & Hr & Hsm & He & Hfl & Ha & Hun).
  rewrite Hrun.
  pose proof (visitOld_loop (buildDataMap options newData) oldData
                (buildDataMap options oldData) cs1) as Hold.
  cbn zeta in Hold. destruct Hold as (Ha2 & Hu2 & Hn2 & Hsm2 & He2 & Hr2 & Hfl2 & Hflag2).
  set (cs2 := foldl _ cs1 _) in *.
  destruct (updateSummary_keys cs2) as (Ha3 & Hu3 & Hr3 & Hn3 & Hf3 & He3).
  exists b. split_and!; try done.
  - rewrite Hf3, Hflag2, Hflag. done.
  - rewrite He3, He2, He. done.
  - unfold flag_sound. rewrite Ha3, Hu3, Hr3, Hf3. apply Hfl2, Hfl.
    unfold flag_sound. simpl. done.
  - rewrite Ha3, Ha2, Ha. done.
  - rewrite Hu3, Hn3, Hu2, Hn2, Hun. done.
  - rewrite Hr3, Hr2, Hr. done.
Qed.

(** The key of an item in the words of the specification: the tuple of
    the values of its key fields, joined into one string.  [keyOf data k]
    says that [k] is a key of the collection: the key, which is not empty, of
    one of its items that is not [null] or another falsy value.  These follow
    the specification and not [getItemKey] and [buildDataMap], which the
    theorem compares with them. *)
Definition keyTuple (item : value) : list value :=
  omap (get item) (keyFields options).

Definition identity (item : value) : string :=
  join "::" (to_string <$> keyTuple item).

Definition keyOf (data : list value) (k : string) : Prop :=
  k ≠ "" ∧ ∃ item, item ∈ data ∧ truthy item = true ∧ identity item = k.

Lemma getItemKey_identity (item : value) (k : string) :
  getItemKey options item = Some k ↔ truthy item = true ∧ identity item = k.
Proof.
  unfold getItemKey, identity, keyTuple. destruct (truthy item).
  - split; [by intros [= <-] | by intros [_ <-]].
  - split; [discriminate | by intros [? _]].
Qed.

Lemma buildDataMap_keyOf (data : list value) (k : string) :
  k ∈ (buildDataMap options data).*1 ↔ keyOf data k.
Proof.
  rewrite buildDataMap_keys. unfold keyOf. split.
  - intros (Hk & item & Hin & Hkey). split; [done|]. exists item.
    apply getItemKey_identity in Hkey as [? ?]. done.
  - intros (Hk & item & Hin & Ht & Hid). split; [done|]. exists item.
    split; [done|]. by apply getItemKey_identity.
Qed.

(** C1.  For every pair of collections, the keys of [added], [updated],
    [removed] and [unchanged] in the change set of [detectChanges] are
    pairwise distinct and are exactly the keys of the items of the old
    collection together with the keys of the items of the new one: a key is
    added when an item of the new collection has it and none of the old one,
    removed when an item of the old collection has it and none of the new
    one, and updated or unchanged when items of both have it.  [hasChanges]
    is [true] exactly when [added], [updated] and [removed] are not all
    empty; and on two empty collections the four lists are empty and
    [hasChanges] is [false].  The key of an item is the one the specification
    gives it ([keyOf]); a configured comparison function is taken to answer
    on every pair. *)
Theorem detectChanges_partition (oldData newData : list value) :
  total_comparison →
  let cs := detectChanges options oldData newData in
  let parts := (addedKeys cs ++ updatedKeys cs ++ removedKeys cs ++ unchangedKeys cs)%list in
  NoDup parts ∧
  (∀ k, k ∈ parts ↔ keyOf oldData k ∨ keyOf newData k) ∧
  (∀ k, k ∈ addedKeys cs ↔ keyOf newData k ∧ ¬ keyOf oldData k) ∧
  (∀ k, k ∈ removedKeys cs ↔ keyOf oldData k ∧ ¬ keyOf newData k) ∧
  (∀ k, k ∈ (updatedKeys cs ++ unchangedKeys cs)%list ↔
        keyOf oldData k ∧ keyOf newData k) ∧
  (ChangeSet.hasChanges cs = true ↔
     (addedKeys cs ++ updatedKeys cs ++ removedKeys cs)%list ≠ []) ∧
  (oldData = [] → newData = [] →
     ChangeSet.added cs = [] ∧ ChangeSet.updated cs = [] ∧
     ChangeSet.removed cs = [] ∧ ChangeSet.unchanged cs = [] ∧
     ChangeSet.hasChanges cs = false).
Proof.
  intros Htot. cbn zeta.
  destruct (detectChanges_keys oldData newData Htot)
    as (b & _ & _ & _ & _ & Hfl & Ha & Hun & Hr).
  set (cs := detectChanges options oldData newData) in *.
  set (oldKeys := (buildDataMap options oldData).*1) in *.
  set (newKeys := (buildDataMap options newData).*1) in *.
  assert (NoDup oldKeys) as Hndo by apply buildDataMap_NoDup.
  assert (NoDup newKeys) as Hndn by apply buildDataMap_NoDup.
  assert (∀ k, k ∈ oldKeys ↔ keyOf oldData k) as Hold
    by (intros k; apply buildDataMap_keyOf).
  assert (∀ k, k ∈ newKeys ↔ keyOf newData k) as Hnew
    by (intros k; apply buildDataMap_keyOf).
  assert ((addedKeys cs ++ updatedKeys cs ++ removedKeys cs ++ unchangedKeys cs)%list
            ≡ₚ (newKeys ++ filter (λ k, k ∉ newKeys) oldKeys)%list) as Hperm.
  { rewrite (Permutation_app_comm (removedKeys cs)), (app_assoc (updatedKeys cs)).
    rewrite Hun, Ha, Hr, app_assoc. apply Permutation_app_tail.
    rewrite Permutation_app_comm. apply filter_app_complement. }
  split_and!.
  - rewrite Hperm. apply NoDup_app. split_and!; [done | | by apply NoDup_filter].
    intros k Hk [Hnk _]%list_elem_of_filter. done.
  - intros k. rewrite <- Hold, <- Hnew, Hperm, elem_of_app, list_elem_of_filter.
    destruct (decide (k ∈ newKeys)); tauto.
  - intros k. rewrite <- Hold, <- Hnew, Ha, list_elem_of_filter. tauto.
  - intros k. rewrite <- Hold, <- Hnew, Hr, list_elem_of_filter. tauto.
  - intros k. rewrite <- Hold, <- Hnew, Hun, list_elem_of_filter. tauto.
  - apply Hfl.
  - intros -> ->. done.
Qed.

Lemma NoDup_incl_length (l k : list string) :
  NoDup l → (∀ x, x ∈ l → x ∈ k) → (length l ≤ length k)%nat.
Proof. intros Hnd Hsub. apply submseteq_length. by apply NoDup_submseteq. Qed.

Lemma filter_nil_incl (P : string → Prop) `{∀ x, Decision (P x)} (l : list string) :
  filter P l = [] → ∀ x, x ∈ l → ¬ P x.
Proof.
  intros Hnil x Hx HP.
  assert (x ∈ filter P l) as Hin by (by apply list_elem_of_filter).
  rewrite Hnil in Hin. by apply elem_of_nil in Hin.
Qed.

Lemma map_set_length (m : list (string * value)) (k : string) (v : value) :
  length (map_set m k v) = if decide (k ∈ m.*1) then length m else S (length m).
Proof.
  rewrite <- (length_fmap fst (map_set m k v)), map_set_keys.
  case_decide; [by rewrite length_fmap|].
  rewrite length_app, length_fmap. simpl. lia.
Qed.

(** An item with a key that can be used: [getItemKey] answers a non-empty
    string. *)
Definition keyed (item : value) : Prop :=
  ∃ k, getItemKey options item = Some k ∧ k ≠ "".

Lemma foldl_keep_length (data : list value) (m : list (string * value)) :
  (length (foldl keep m data) ≤ length m + length data)%nat ∧
  (length (foldl keep m data) = (length m + length data)%nat ↔
     Forall keyed data ∧ NoDup (getItemKey options <$> data) ∧
     ∀ item k, item ∈ data → getItemKey options item = Some k → k ∉ m.*1).
Proof.
  revert m. induction data as [|item data IH]; intros m.
  - simpl. split; [lia|]. split; [intros _ | lia].
    split_and!; [constructor | constructor |].
    intros item k Hin. by apply elem_of_nil in Hin.
  - cbn [foldl length]. destruct (IH (keep m item)) as [Hle Hiff].
    assert ((∃ k, getItemKey options item = Some k ∧ k ≠ "" ∧ (k ∉ m.*1) ∧
                  (keep m item).*1 = (m.*1 ++ [k])%list ∧
                  length (keep m item) = S (length m))
            ∨ (length (keep m item) = length m ∧
               ¬ (keyed item ∧ ∀ k, getItemKey options item = Some k → k ∉ m.*1)))
      as [(k & Hk & Hne & Hnin & Hkeys & Hlen)|[Hlen Hbad]].
    { unfold keep, keyed. destruct (getItemKey options item) as [k|] eqn:Hk.
      - destruct (String.eqb_spec k "") as [->|Hne].
        + right. split; [done|]. intros [(k' & [= <-] & Hk') _]. done.
        + destruct (decide (k ∈ m.*1)) as [Hin|Hnin].
          * right. rewrite map_set_length, decide_True by done. split; [done|].
            intros [_ Hall]. by apply (Hall k).
          * left. exists k. rewrite map_set_length, map_set_keys, !decide_False by done.
            done.
      - right. split; [done|]. intros [(k' & [=] & _) _]. }
    + split; [lia|]. rewrite Hlen in Hiff.
      replace (length m + S (length data))%nat with (S (length m) + length data)%nat by lia.
      rewrite Hiff, Hkeys. rewrite Forall_cons, fmap_cons, NoDup_cons, Hk.
      split.
      * intros (Hall & Hnd & Hdisj). split_and!; try done.
        -- by exists k.
        -- intros (it & Heq & Hin)%list_elem_of_fmap.
           apply (Hdisj it k Hin); [done|]. apply elem_of_app. right. left.
        -- intros it k' [->|Hin]%elem_of_cons Hk'.
           ++ congruence.
           ++ intros Hm. apply (Hdisj it k' Hin Hk'). apply elem_of_app. by left.
      * intros (Hall & [Hfresh Hnd] & Hdisj). destruct Hall as [_ Hall].
        split_and!; try done.
        intros it k' Hin Hk' [Hm|Hs]%elem_of_app; [|apply list_elem_of_singleton in Hs as ->].
        -- apply (Hdisj it k'); [by right | done | done].
        -- apply Hfresh. apply list_elem_of_fmap. by exists it.
    + split; [lia|]. split; [lia|].
      intros (Hall & _ & Hdisj). exfalso. apply Hbad.
      apply Forall_cons in Hall as [Hitem _]. split; [done|].
      intros k Hk. apply (Hdisj item k); [left | done].
Qed.

(** A collection is well keyed exactly when each of its items has a
    non-empty key and no two items have the same key. *)
Lemma well_keyed_iff (data : list value) :
  well_keyed data ↔ Forall keyed data ∧ NoDup (getItemKey options <$> data).
Proof.
  unfold well_keyed. rewrite buildDataMap_foldl.
  destruct (foldl_keep_length data []) as [_ Hiff]. simpl in Hiff.
  rewrite Hiff. split; [tauto|]. intros [? ?]. split_and!; try done.
  intros item k _ _ Hin. by apply elem_of_nil in Hin.
Qed.

(** Two maps of different sizes always differ by an added or a removed
    key. *)
Lemma sizes_differ_flag (oldData newData : list value) :
  total_comparison →
  length (buildDataMap options oldData) ≠ length (buildDataMap options newData) →
  ChangeSet.hasChanges (detectChanges options oldData newData) = true.
Proof.
  intros Htot Hlen.
  destruct (detectChanges_keys oldData newData Htot)
    as (b & _ & Hsub & Hflag & _).
  rewrite Hflag. destruct b; [done|]. simpl.
  apply bool_decide_eq_true. intros Hnil.
  pose proof (buildDataMap_NoDup oldData) as Hndo.
  pose proof (buildDataMap_NoDup newData) as Hndn.
  assert (length (buildDataMap options newData).*1
          ≤ length (buildDataMap options oldData).*1)%nat as H1.
  { apply NoDup_incl_length; [done | by apply Hsub]. }
  assert (length (buildDataMap options oldData).*1
          ≤ length (buildDataMap options newData).*1)%nat as H2.
  { apply NoDup_incl_length; [done|]. intros x Hx.
    destruct (decide (x ∈ (buildDataMap options newData).*1)) as [|Hn]; [done|].
    exfalso. by apply (filter_nil_incl _ _ Hnil x Hx). }
  rewrite !length_fmap in H1, H2. lia.
Qed.

(** On two maps of the same size the loop of the quick check computes the
    flag of the full diff. *)
Lemma sizes_equal_flag (oldData newData : list value) :
  total_comparison →
  length (buildDataMap options oldData) = length (buildDataMap options newData) →
  anyChanged options (buildDataMap options oldData) (buildDataMap options newData)
    = Ok (ChangeSet.hasChanges (detectChanges options oldData newData)).
Proof.
  intros Htot Hlen.
  destruct (detectChanges_keys oldData newData Htot)
    as (b & Hany & Hsub & Hflag & _).
  rewrite Hany, Hflag. destruct b; [done|]. simpl. f_equal. symmetry.
  apply bool_decide_eq_false. intros Hne. apply Hne.
  pose proof (buildDataMap_NoDup oldData) as Hndo.
  pose proof (buildDataMap_NoDup newData) as Hndn.
  assert ((buildDataMap options newData).*1 ≡ₚ (buildDataMap options oldData).*1) as Hperm.
  { apply submseteq_length_Permutation.
    - apply NoDup_submseteq; [done | by apply Hsub].
    - rewrite !length_fmap. lia. }
  destruct (filter _ _) as [|x xs] eqn:Hf; [done|]. exfalso.
  assert (x ∈ filter (λ k, k ∉ (buildDataMap options newData).*1)
                (buildDataMap options oldData).*1) as Hx by (rewrite Hf; left).
  apply list_elem_of_filter in Hx as [Hn Hin]. apply Hn. by rewrite Hperm.
Qed.

(** C5, as the code has it.  The quick check [hasChanges] answers [true]
    exactly when the two collections differ in length or the full diff of
    [detectChanges] reports a change; so whenever the full diff reports a
    change the quick check does too, and the two agree on collections in
    which every item has a non-empty key of its own ([well_keyed]).  A
    configured comparison function is taken to answer on every pair. *)
Theorem hasChanges_characterisation (oldData newData : list value) :
  total_comparison →
  hasChanges options oldData newData =
    Ok (negb (length oldData =? length newData)%nat
             || ChangeSet.hasChanges (detectChanges options oldData newData)) ∧
  (ChangeSet.hasChanges (detectChanges options oldData newData) = true →
     hasChanges options oldData newData = Ok true) ∧
  (well_keyed oldData → well_keyed newData →
     hasChanges options oldData newData =
       Ok (ChangeSet.hasChanges (detectChanges options oldData newData))).
Proof.
  intros Htot.
  assert (hasChanges options oldData newData =
          Ok (negb (length oldData =? length newData)%nat
                   || ChangeSet.hasChanges (detectChanges options oldData newData)))
    as Hmain.
  { unfold hasChanges. destruct (Nat.eqb_spec (length oldData) (length newData)) as [He|Hne];
      simpl; [|done].
    destruct (Nat.eqb_spec (length (buildDataMap options oldData))
                (length (buildDataMap options newData))) as [Hs|Hs]; simpl.
    - by apply sizes_equal_flag.
    - by rewrite sizes_differ_flag. }
  split_and!; [done | |].
  - intros Hflag. rewrite Hmain, Hflag. by rewrite orb_true_r.
  - intros Hwo Hwn. rewrite Hmain. unfold well_keyed in *.
    destruct (Nat.eqb_spec (length oldData) (length newData)) as [He|Hne]; simpl; [done|].
    rewrite sizes_differ_flag; [done | done | lia].
Qed.

(** ** The deep comparison *)

Lemma value_nested_ind (P : value → Prop) :
  P VNull → (∀ b, P (VBool b)) → (∀ n, P (VNum n)) → (∀ s, P (VStr s)) →
  (∀ elems, Forall P elems → P (VArr elems)) →
  (∀ fields, Forall (λ kv, P kv.2) fields → P (VObj fields)) →
  ∀ v, P v.
Proof.
  intros Hnull Hbool Hnum Hstr Harr Hobj. fix IH 1.
  intros [|b|n|s|elems|fields]; [done..| |].
  - apply Harr. induction elems as [|x elems IHl]; constructor; [apply IH | exact IHl].
  - apply Hobj. induction fields as [|[k x] fields IHl]; constructor; [apply IH | exact IHl].
Qed.

(** A value as a parser builds it: no object in it has two fields of one
    name. *)
Fixpoint distinct_fields (v : value) : bool :=
  match v with
  | VArr elems => forallb distinct_fields elems
  | VObj fields =>
      bool_decide (NoDup fields.*1)
      && (fix all (fs : list (string * value)) : bool :=
            match fs with
            | [] => true
            | (_, x) :: fs' => distinct_fields x && all fs'
            end) fields
  | _ => true
  end.

Lemma distinct_fields_obj (fields : list (string * value)) :
  distinct_fields (VObj fields) = true ↔
  NoDup fields.*1 ∧ Forall (λ kv, distinct_fields kv.2 = true) fields.
Proof.
  cbn [distinct_fields]. rewrite andb_true_iff, bool_decide_eq_true.
  apply and_iff_compat_l.
  induction fields as [|[k x] fields IH]; [by split; [constructor|]|].
  rewrite andb_true_iff, IH, Forall_cons. done.
Qed.

Lemma distinct_fields_arr (elems : list value) :
  distinct_fields (VArr elems) = true ↔ Forall (λ x, distinct_fields x = true) elems.
Proof.
  cbn [distinct_fields]. rewrite forallb_forall, Forall_forall.
  split; intros H x Hx; apply H; by apply list_elem_of_In.
Qed.

(** The keys that the comparison looks at. *)
Definition compared (v : value) : list string :=
  filter (λ k, negb (ignored options k)) (keys v).

(** The two loops of [deepEqual], over the fields of an object and over
    the elements of an array from the index [i] on. *)
Definition walk_fields (keys2 : list string) (obj2 : value)
  : list (string * value) → bool :=
  fix walk (ps : list (string * value)) : bool :=
    match ps with
    | [] => true
    | (k, x) :: ps' =>
        if ignored options k then walk ps'
        else if negb (includes keys2 k) then false
        else
          match get obj2 k with
          | Some y => if deepEqual options x y then walk ps' else false
          | None => false
          end
    end.

Definition walk_elems (keys2 : list string) (obj2 : value)
  : nat → list value → bool :=
  fix walk_elems (i : nat) (xs : list value) : bool :=
    match xs with
    | [] => true
    | x :: xs' =>
        let k := pretty i in
        if ignored options k then walk_elems (S i) xs'
        else if negb (includes keys2 k) then false
        else
          match get obj2 k with
          | Some y => if deepEqual options x y then walk_elems (S i) xs' else false
          | None => false
          end
    end.

Lemma deepEqual_unfold (obj1 obj2 : value) :
  deepEqual options obj1 obj2 =
    if strict_equals obj1 obj2 then true
    else if negb (is_object obj1 && is_object obj2) then false
    else if negb (length (compared obj1) =? length (compared obj2))%nat then false
    else
      match obj1 with
      | VObj fields => walk_fields (compared obj2) obj2 fields
      | VArr elems => walk_elems (compared obj2) obj2 0%nat elems
      | _ => false
      end.
Proof. destruct obj1; reflexivity. Qed.

Lemma includes_true (l : list string) (k : string) :
  includes l k = true ↔ k ∈ l.
Proof.
  unfold includes. rewrite existsb_exists. split.
  - intros (x & Hx & ->%String.eqb_eq). by apply list_elem_of_In.
  - intros Hk. exists k. split; [by apply list_elem_of_In | apply String.eqb_refl].
Qed.

Lemma compared_elem (v : value) (k : string) :
  k ∈ compared v ↔ ignored options k = false ∧ k ∈ keys v.
Proof.
  unfold compared. rewrite list_elem_of_filter.
  destruct (ignored options k); simpl; naive_solver.
Qed.

Lemma assoc_elem {A : Type} (k : string) (x : A) (l : list (string * A)) :
  NoDup l.*1 → (k, x) ∈ l → assoc k l = Some x.
Proof.
  induction l as [|[k' x'] l IH]; intros Hnd Hin; [by apply elem_of_nil in Hin|].
  apply NoDup_cons in Hnd as [Hk' Hnd]. simpl.
  apply elem_of_cons in Hin as [[= <- <-]|Hin]; [by rewrite String.eqb_refl|].
  destruct (String.eqb_spec k' k) as [->|Hne]; [|by apply IH].
  exfalso. apply Hk'. apply list_elem_of_fmap. by exists (k, x).
Qed.

Lemma assoc_Some_elem {A : Type} (k : string) (x : A) (l : list (string * A)) :
  assoc k l = Some x → (k, x) ∈ l.
Proof.
  induction l as [|[k' x'] l IH]; [done|]. simpl.
  destruct (String.eqb_spec k' k) as [->|Hne].
  - intros [= ->]. left.
  - intros H. right. by apply IH.
Qed.

Lemma assoc_imap_pretty {A : Type} (n i : nat) (l : list A) :
  assoc (pretty (n + i)%nat) (imap (λ j v, (pretty (n + j)%nat, v)) l) = l !! i.
Proof.
  revert n i. induction l as [|x l IH]; intros n i; [done|]. simpl.
  destruct i as [|i].
  - by rewrite String.eqb_refl.
  - destruct (String.eqb_spec (pretty (n + 0)%nat) (pretty (n + S i)%nat)) as [Heq|_].
    { apply (inj pretty) in Heq. lia. }
    simpl. rewrite <- (IH (S n) i). replace (S n + i)%nat with (n + S i)%nat by lia.
    f_equal. apply imap_ext. intros j y _. simpl. do 2 f_equal. lia.
Qed.

Lemma assoc_indexed (i : nat) (l : list value) :
  assoc (pretty i) (indexed l) = l !! i.
Proof. apply (assoc_imap_pretty 0 i l). Qed.

Lemma imap_pretty_seq (n : nat) (l : list value) :
  imap (λ j (_ : value), pretty (n + j)%nat) l = pretty <$> seq n (length l).
Proof.
  revert n. induction l as [|x l IH]; intros n; [done|].
  simpl. rewrite Nat.add_0_r. f_equal.
  rewrite <- IH. apply imap_ext. intros j y _. simpl. f_equal. lia.
Qed.

Lemma indexed_keys (l : list value) :
  (indexed l).*1 = pretty <$> seq 0 (length l).
Proof. unfold indexed. rewrite fmap_imap. apply (imap_pretty_seq 0 l). Qed.

Lemma walk_fields_true (keys2 : list string) (obj2 : value) (ps : list (string * value)) :
  walk_fields keys2 obj2 ps = true ↔
  ∀ k x, (k, x) ∈ ps → ignored options k = false →
    k ∈ keys2 ∧ ∃ y, get obj2 k = Some y ∧ deepEqual options x y = true.
Proof.
  induction ps as [|[k x] ps IH]; [by split; [intros _ ? ? ?%elem_of_nil|]|].
  cbn [walk_fields]. fold (walk_fields keys2 obj2).
  destruct (ignored options k) eqn:Hig.
  - rewrite IH. split; intros H k' x' Hin Hig'.
    + apply elem_of_cons in Hin as [[= -> ->]|Hin]; [congruence | by apply H].
    + apply H; [by right | done].
  - destruct (includes keys2 k) eqn:Hinc; simpl.
    + apply includes_true in Hinc. destruct (get obj2 k) as [y|] eqn:Hget.
      * destruct (deepEqual options x y) eqn:Heq.
        -- rewrite IH. split; intros H k' x' Hin Hig'.
           ++ apply elem_of_cons in Hin as [[= -> ->]|Hin]; [eauto | by apply H].
           ++ apply H; [by right | done].
        -- split; [done|]. intros H.
           destruct (H k x) as (_ & y' & Hy' & Hd); [left | done |]. congruence.
      * split; [done|]. intros H.
        destruct (H k x) as (_ & y' & Hy' & _); [left | done |]. congruence.
    + split; [done|]. intros H. destruct (H k x) as (Hk & _); [left | done |].
      apply includes_true in Hk. congruence.
Qed.

Lemma walk_elems_true (keys2 : list string) (obj2 : value) (i : nat) (xs : list value) :
  walk_elems keys2 obj2 i xs = true ↔
  ∀ j x, xs !! j = Some x → ignored options (pretty (i + j)%nat) = false →
    pretty (i + j)%nat ∈ keys2 ∧
    ∃ y, get obj2 (pretty (i + j)%nat) = Some y ∧ deepEqual options x y = true.
Proof.
  revert i. induction xs as [|x xs IH]; intros i; [by split|].
  cbn [walk_elems]. fold (walk_elems keys2 obj2). cbn zeta.
  assert (∀ P : nat → value → Prop,
            (∀ j y, (x :: xs) !! j = Some y → P (i + j)%nat y) ↔
            P i x ∧ ∀ j y, xs !! j = Some y → P (S i + j)%nat y) as Hsplit.
  { intros P. split.
    - intros H. split; [specialize (H 0%nat x); rewrite Nat.add_0_r in H; by apply H|].
      intros j y Hj. specialize (H (S j) y Hj). by replace (S i + j)%nat with (i + S j)%nat by lia.
    - intros [H0 HS] [|j] y Hj; simpl in Hj.
      + injection Hj as <-. by rewrite Nat.add_0_r.
      + replace (i + S j)%nat with (S i + j)%nat by lia. by apply HS. }
  rewrite (Hsplit (λ n y, ignored options (pretty n) = false →
                          pretty n ∈ keys2 ∧
                          ∃ z, get obj2 (pretty n) = Some z ∧ deepEqual options y z = true)).
  rewrite <- IH.
  destruct (ignored options (pretty i)) eqn:Hig; [naive_solver|].
  destruct (includes keys2 (pretty i)) eqn:Hinc; simpl.
  - apply includes_true in Hinc. destruct (get obj2 (pretty i)) as [y|] eqn:Hget.
    + destruct (deepEqual options x y) eqn:Heq; [naive_solver|].
      split; [done|]. intros [H _]. destruct (H eq_refl) as (_ & z & [= <-] & ?). congruence.
    + split; [done|]. intros [H _]. by destruct (H eq_refl) as (_ & z & [=] & ?).
  - split; [done|]. intros [H _]. destruct (H eq_refl) as (Hk & _).
    apply includes_true in Hk. congruence.
Qed.

Lemma strict_equals_refl (v : value) :
  is_object v = false → strict_equals v v = true.
Proof.
  destruct v as [|b|n|s|elems|fields]; try done; intros _; simpl.
  - by destruct b.
  - apply Z.eqb_refl.
  - apply String.eqb_refl.
Qed.

Lemma get_obj (fields : list (string * value)) (k : string) (x : value) :
  NoDup fields.*1 → (k, x) ∈ fields → get (VObj fields) k = Some x.
Proof. intros Hnd Hin. unfold get. cbn [props]. by rewrite (assoc_elem k x fields). Qed.

Lemma get_arr (elems : list value) (i : nat) (x : value) :
  elems !! i = Some x → get (VArr elems) (pretty i) = Some x.
Proof. intros Hi. unfold get. cbn [props]. by rewrite assoc_indexed, Hi. Qed.

(** A value that has no object with a repeated field is deeply equal to
    itself. *)
Lemma deepEqual_refl (v : value) :
  distinct_fields v = true → deepEqual options v v = true.
Proof.
  induction v as [|b|n|s|elems IH|fields IH] using value_nested_ind; intros Hwf;
    rewrite deepEqual_unfold;
    [by rewrite strict_equals_refl.. | |].
  - cbn [strict_equals is_object andb negb]. rewrite Nat.eqb_refl. cbn [negb].
    apply walk_elems_true. intros j x Hj Hig. simpl. split_and!.
    + apply compared_elem. split; [done|]. unfold keys. cbn [props].
      rewrite indexed_keys. apply list_elem_of_fmap. exists j. split; [done|].
      apply elem_of_seq. apply lookup_lt_Some in Hj. lia.
    + exists x. split; [by apply get_arr|].
      apply distinct_fields_arr in Hwf.
      rewrite Forall_forall in IH, Hwf.
      apply list_elem_of_lookup_2 in Hj. by apply IH, Hwf.
  - cbn [strict_equals is_object andb negb]. rewrite Nat.eqb_refl. cbn [negb].
    apply distinct_fields_obj in Hwf as [Hnd Hwf].
    apply walk_fields_true. intros k x Hin Hig. split_and!.
    + apply compared_elem. split; [done|]. unfold keys. cbn [props].
      apply list_elem_of_fmap. by exists (k, x).
    + exists x. split; [by apply get_obj|].
      rewrite Forall_forall in IH, Hwf. by apply (IH (k, x)), (Hwf (k, x)).
Qed.

(** The fields of an object that the comparison looks at. *)
Definition comparedFields (fields : list (string * value)) : list (string * value) :=
  filter (λ kv, ignored options kv.1 = false) fields.

Lemma compared_obj (fields : list (string * value)) :
  compared (VObj fields) = (comparedFields fields).*1.
Proof.
  unfold compared, comparedFields, keys. cbn [props].
  induction fields as [|[k x] fields IH]; [done|].
  rewrite fmap_cons, !filter_cons. simpl. rewrite IH.
  by destruct (ignored options k).
Qed.

(** X1.  The deep comparison answers [true] on a value and itself, and
    on two objects that have the same fields apart from their order and from
    the ignored ones; the values are such as a parser builds, with no repeated
    field name in an object. *)
Theorem deepEqual_same_content :
  (∀ v, distinct_fields v = true → deepEqual options v v = true) ∧
  (∀ fields1 fields2,
     distinct_fields (VObj fields1) = true → NoDup fields2.*1 →
     comparedFields fields1 ≡ₚ comparedFields fields2 →
     deepEqual options (VObj fields1) (VObj fields2) = true).
Proof.
  split; [apply deepEqual_refl|].
  intros fields1 fields2 Hwf Hnd2 Hperm.
  apply distinct_fields_obj in Hwf as [Hnd1 Hwf].
  rewrite deepEqual_unfold. cbn [strict_equals is_object andb negb].
  rewrite !compared_obj, !length_fmap, (Permutation_length Hperm), Nat.eqb_refl.
  cbn [negb]. apply walk_fields_true. intros k x Hin Hig.
  assert ((k, x) ∈ fields2) as Hin2.
  { assert ((k, x) ∈ comparedFields fields2) as Hin2; [|by apply list_elem_of_filter in Hin2 as [_ ?]].
    rewrite <- Hperm. by apply list_elem_of_filter. }
  split.
  - apply list_elem_of_fmap. exists (k, x). split; [done|].
    by apply list_elem_of_filter.
  - exists x. split; [by apply get_obj|]. apply deepEqual_refl.
    rewrite Forall_forall in Hwf. by apply (Hwf (k, x)).
Qed.

(** ** What the change set holds *)

(** What the configured comparison answers; [false] stands in when a
    comparison function throws. *)
Definition same (oldItem newItem : value) : bool :=
  match areItemsEqual options oldItem newItem with
  | Ok b => b
  | Thrown _ => false
  end.

(** What one entry of the new map adds to [added], to [updated] and to
    [unchanged], and one entry of the old map to [removed]. *)
Definition addedOf (oldMap : list (string * value)) (newData : list value)
    (entry : string * value) : option Entry.t :=
  match map_get oldMap entry.1 with
  | None => Some (Entry.mk entry.1 entry.2 (findItemPosition options newData entry.1))
  | Some _ => None
  end.

Definition updatedOf (oldMap : list (string * value)) (newData : list value)
    (entry : string * value) : option Updated.t :=
  match map_get oldMap entry.1 with
  | Some oldItem =>
      if same oldItem entry.2 then None
      else Some (Updated.mk entry.1 oldItem entry.2
                   (getSpecificChanges options oldItem entry.2)
                   (findItemPosition options newData entry.1))
  | None => None
  end.

Definition unchangedOf (oldMap : list (string * value)) (newData : list value)
    (entry : string * value) : option Entry.t :=
  match map_get oldMap entry.1 with
  | Some oldItem =>
      if same oldItem entry.2
      then Some (Entry.mk entry.1 entry.2 (findItemPosition options newData entry.1))
      else None
  | None => None
  end.

Definition removedOf (newMap : list (string * value)) (oldData : list value)
    (entry : string * value) : option Entry.t :=
  if map_has newMap entry.1 then None
  else Some (Entry.mk entry.1 entry.2 (findItemPosition options oldData entry.1)).

Lemma areItemsEqual_same (a b : value) :
  total_comparison → areItemsEqual options a b = Ok (same a b).
Proof.
  intros Htot. unfold same.
  destruct (areItemsEqual_total Htot a b) as [r Hr]. by rewrite Hr.
Qed.

Lemma visitNew_entries (oldMap : list (string * value)) (newData : list value)
    (l : list (string * value)) (cs : ChangeSet.t) :
  total_comparison →
  ∃ cs', forEach (visitNew options oldMap newData) cs l = Ok cs' ∧
    ChangeSet.added cs' = (ChangeSet.added cs ++ omap (addedOf oldMap newData) l)%list ∧
    ChangeSet.updated cs' = (ChangeSet.updated cs ++ omap (updatedOf oldMap newData) l)%list ∧
    ChangeSet.unchanged cs' =
      (ChangeSet.unchanged cs ++ omap (unchangedOf oldMap newData) l)%list ∧
    ChangeSet.removed cs' = ChangeSet.removed cs ∧
    ChangeSet.summary cs' = ChangeSet.summary cs.
Proof.
  intros Htot. revert cs.
  induction l as [|[k newItem] l IH]; intros cs.
  - exists cs. by rewrite !app_nil_r.
  - cbn [forEach omap list_omap]. unfold visitNew at 1, addedOf at 1, updatedOf at 1,
      unchangedOf at 1. cbn [fst snd].
    destruct cs as [flag a u r n sm e].
    destruct (map_get oldMap k) as [oldItem|] eqn:Hget.
    + rewrite (areItemsEqual_same oldItem newItem Htot).
      destruct (same oldItem newItem);
        match goal with |- context [forEach _ ?c l] => destruct (IH c) as (cs' & -> & Ha & Hu & Hn & Hr & Hs)
        end; exists cs'; cbn in *; rewrite Ha, Hu, Hn, <- ?app_assoc; done.
    + match goal with |- context [forEach _ ?c l] => destruct (IH c) as (cs' & -> & Ha & Hu & Hn & Hr & Hs)
      end. exists cs'. cbn in *. rewrite Ha, Hu, Hn, <- ?app_assoc. done.
Qed.

Lemma visitOld_entries (newMap : list (string * value)) (oldData : list value)
    (l : list (string * value)) (cs : ChangeSet.t) :
  let cs' := foldl (visitOld options newMap oldData) cs l in
  ChangeSet.added cs' = ChangeSet.added cs ∧
  ChangeSet.updated cs' = ChangeSet.updated cs ∧
  ChangeSet.unchanged cs' = ChangeSet.unchanged cs ∧
  ChangeSet.removed cs' = (ChangeSet.removed cs ++ omap (removedOf newMap oldData) l)%list ∧
  ChangeSet.summary cs' = ChangeSet.summary cs.
Proof.
  revert cs. induction l as [|[k oldItem] l IH]; intros cs; cbn zeta.
  - by rewrite app_nil_r.
  - cbn [foldl omap list_omap]. specialize (IH (visitOld options newMap oldData cs (k, oldItem))).
    cbn zeta in IH. destruct IH as (-> & -> & -> & -> & ->).
    destruct cs as [flag a u r n sm e]. unfold visitOld, removedOf. cbn [fst snd].
    destruct (map_has newMap k); cbn; rewrite <- ?app_assoc; done.
Qed.

(** The four lists of the change set, entry by entry, and its summary. *)
Lemma detectChanges_entries (oldData newData : list value) :
  total_comparison →
  let cs := detectChanges options oldData newData in
  let oldMap := buildDataMap options oldData in
  let newMap := buildDataMap options newData in
  ChangeSet.added cs = omap (addedOf oldMap newData) newMap ∧
  ChangeSet.updated cs = omap (updatedOf oldMap newData) newMap ∧
  ChangeSet.unchanged cs = omap (unchangedOf oldMap newData) newMap ∧
  ChangeSet.removed cs = omap (removedOf newMap oldData) oldMap ∧
  ChangeSet.summary cs =
    Summary.mk (Z.of_nat (length (ChangeSet.added cs)))
      (Z.of_nat (length (ChangeSet.updated cs)))
      (Z.of_nat (length (ChangeSet.removed cs)))
      (Z.of_nat (length (ChangeSet.unchanged cs)))
      (Z.of_nat (length oldData)) (Z.of_nat (length newData)).
Proof.
  intros Htot. cbn zeta. unfold detectChanges.
  destruct (visitNew_entries (buildDataMap options oldData) newData
              (buildDataMap options newData) (emptyChanges oldData newData) Htot)
    as (cs1 & -> & Ha & Hu & Hn & Hr & Hs).
  pose proof (visitOld_entries (buildDataMap options newData) oldData
                (buildDataMap options oldData) cs1) as Hold.
  cbn zeta in Hold. destruct Hold as (Ha2 & Hu2 & Hn2 & Hr2 & Hs2).
  set (cs2 := foldl _ cs1 _) in *.
  assert (Summary.oldTotal (ChangeSet.summary cs2) = Z.of_nat (length oldData) ∧
          Summary.newTotal (ChangeSet.summary cs2) = Z.of_nat (length newData)) as [Ho Hw].
  { by rewrite Hs2, Hs. }
  destruct cs2 as [flag a u r n sm e]. cbn in *.
  rewrite Ho, Hw. subst a u r n. rewrite Ha, Hu, Hn, Hr. done.
Qed.

Lemma map_set_elem (m : list (string * value)) (k : string) (v : value)
    (k' : string) (v' : value) :
  NoDup m.*1 →
  (k', v') ∈ map_set m k v ↔ (k' = k ∧ v' = v) ∨ (k' ≠ k ∧ (k', v') ∈ m).
Proof.
  induction m as [|[k0 v0] m IH]; intros Hnd.
  - simpl. rewrite list_elem_of_singleton. split.
    + intros [= -> ->]. by left.
    + intros [[-> ->]|[_ H]]; [done | by apply elem_of_nil in H].
  - apply NoDup_cons in Hnd as [Hk0 Hnd]. cbn [map_set].
    destruct (String.eqb_spec k0 k) as [->|Hne].
    + rewrite !elem_of_cons. split.
      * intros [[= -> ->]|Hin]; [by left|]. right. split; [|by right].
        intros ->. apply Hk0. apply list_elem_of_fmap. by exists (k, v').
      * intros [[-> ->]|[Hk [[= -> ->]|Hin]]]; [by left | done | by right].
    + rewrite !elem_of_cons, IH by done. split.
      * intros [[= -> ->]|[[-> ->]|[Hk Hin]]]; [right; split; [done | by left] | by left |].
        right. split; [done | by right].
      * intros [[-> ->]|[Hk [[= -> ->]|Hin]]]; [right; by left | by left |].
        right. right. by split.
Qed.

(** The item that is the last of a collection to have the key [k]. *)
Definition lastWithKey (data : list value) (k : string) (item : value) : Prop :=
  ∃ j, data !! j = Some item ∧ getItemKey options item = Some k ∧
       ∀ j' item', (j < j')%nat → data !! j' = Some item' →
                   getItemKey options item' ≠ Some k.

(** The place that is the first of a collection to hold an item with
    the key [k]. *)
Definition firstWithKey (data : list value) (k : string) (p : Z) : Prop :=
  ∃ j item, p = Z.of_nat j ∧ data !! j = Some item ∧
            getItemKey options item = Some k ∧
            ∀ j' item', (j' < j)%nat → data !! j' = Some item' →
                        getItemKey options item' ≠ Some k.

Lemma lastWithKey_snoc (data : list value) (x : value) (k : string) (item : value) :
  lastWithKey (data ++ [x]) k item ↔
  (getItemKey options x = Some k ∧ item = x) ∨
  (getItemKey options x ≠ Some k ∧ lastWithKey data k item).
Proof.
  split.
  - intros (j & Hj & Hk & Hlast).
    destruct (decide (j = length data)) as [->|Hne].
    + rewrite list_lookup_middle in Hj by done. injection Hj as <-. by left.
    + assert (j < length data)%nat as Hlt.
      { apply lookup_lt_Some in Hj. rewrite length_app in Hj. simpl in Hj. lia. }
      rewrite lookup_app_l in Hj by done. right. split.
      * apply (Hlast (length data) x); [done | by rewrite list_lookup_middle].
      * exists j. split_and!; [done..|]. intros j' item' Hlt' Hj'.
        apply (Hlast j' item' Hlt'). rewrite lookup_app_l; [done|].
        by apply lookup_lt_Some in Hj'.
  - intros [[Hk ->]|[Hx (j & Hj & Hk & Hlast)]].
    + exists (length data). split_and!; [by rewrite list_lookup_middle | done |].
      intros j' item' Hlt Hj'. apply lookup_lt_Some in Hj'.
      rewrite length_app in Hj'. simpl in Hj'. lia.
    + exists j. split_and!; [|done|].
      * rewrite lookup_app_l; [done | by apply lookup_lt_Some in Hj].
      * intros j' item' Hlt Hj'. destruct (decide (j' = length data)) as [->|Hne].
        -- rewrite list_lookup_middle in Hj' by done. by injection Hj' as <-.
        -- apply (Hlast j' item' Hlt). rewrite lookup_app_l in Hj'; [done|].
           apply lookup_lt_Some in Hj'. rewrite length_app in Hj'. simpl in Hj'. lia.
Qed.

(** The map built from a collection holds, under each key that is not
    empty, the last item of the collection with that key. *)
Lemma buildDataMap_entry (data : list value) (k : string) (item : value) :
  (k, item) ∈ buildDataMap options data ↔ k ≠ "" ∧ lastWithKey data k item.
Proof.
  rewrite buildDataMap_foldl. induction data as [|x data IH] using rev_ind.
  - simpl. split; [by intros ?%elem_of_nil|]. by intros (_ & j & Hj & _).
  - rewrite foldl_snoc, lastWithKey_snoc.
    assert (NoDup (foldl keep [] data).*1) as Hnd by (by apply foldl_keep_NoDup; constructor).
    unfold keep at 1. destruct (getItemKey options x) as [kx|] eqn:Hkx.
    + destruct (String.eqb_spec kx "") as [->|Hne].
      * rewrite IH. split; [intros [Hk Hl]; split; [done|]; right; split; [congruence | done]|].
        intros [Hk [[[= <-] _]|[_ Hl]]]; [done | by split].
      * rewrite map_set_elem, IH by done. split.
        -- intros [[-> ->]|[Hk [Hk' Hl]]]; [split; [done | by left]|].
           split; [done|]. right. split; [congruence | done].
        -- intros [Hk [[[= ->] ->]|[Hx Hl]]]; [by left|].
           right. split_and!; [congruence | done | done].
    + rewrite IH. split; [intros [Hk Hl]; split; [done|]; by right|].
      intros [Hk [[[=] _]|[_ Hl]]]. by split.
Qed.

Lemma findItemPosition_from_first (i : Z) (data : list value) (k : string) :
  (findItemPosition_from options i data k = -1 ∧
   ∀ item, item ∈ data → getItemKey options item ≠ Some k) ∨
  (∃ j item, findItemPosition_from options i data k = i + Z.of_nat j ∧
             data !! j = Some item ∧ getItemKey options item = Some k ∧
             ∀ j' item', (j' < j)%nat → data !! j' = Some item' →
                         getItemKey options item' ≠ Some k).
Proof.
  revert i. induction data as [|x data IH]; intros i.
  - left. split; [done|]. by intros item ?%elem_of_nil.
  - cbn [findItemPosition_from]. case_bool_decide as Hx.
    + right. exists 0%nat, x. split_and!; [lia | done | done | lia].
    + destruct (IH (i + 1)) as [[-> Hnone]|(j & item & -> & Hj & Hk & Hfirst)].
      * left. split; [done|]. intros item [->|Hin]%elem_of_cons; [done | by apply Hnone].
      * right. exists (S j), item. split_and!; [lia | done | done |].
        intros [|j'] item' Hlt Hj'; simpl in Hj'; [by injection Hj' as <-|].
        apply (Hfirst j' item'); [lia | done].
Qed.

(** [findItemPosition] answers the first place of an item with the key,
    and -1 when the collection has none. *)
Lemma findItemPosition_first (data : list value) (k : string) :
  (findItemPosition options data k = -1 ∧
   ∀ item, item ∈ data → getItemKey options item ≠ Some k) ∨
  firstWithKey data k (findItemPosition options data k).
Proof.
  unfold findItemPosition, firstWithKey.
  destruct (findItemPosition_from_first 0 data k) as [?|(j & item & -> & ?)]; [by left|].
  right. exists j, item. split; [lia | done].
Qed.

Lemma firstWithKey_of_entry (data : list value) (k : string) (item : value) :
  (k, item) ∈ buildDataMap options data →
  firstWithKey data k (findItemPosition options data k).
Proof.
  intros [_ (j & Hj & Hk & _)]%buildDataMap_entry.
  destruct (findItemPosition_first data k) as [[_ Hnone]|?]; [|done].
  exfalso. apply (Hnone item); [by apply list_elem_of_lookup_2 in Hj | done].
Qed.

Lemma map_get_entry (m : list (string * value)) (k : string) (item : value) :
  map_get m k = Some item → (k, item) ∈ m.
Proof. apply assoc_Some_elem. Qed.

Lemma elem_of_omap_inv {A B : Type} (f : A → option B) (l : list A) (y : B) :
  y ∈ omap f l → ∃ x, x ∈ l ∧ f x = Some y.
Proof. intros H%list_elem_of_omap. exact H. Qed.

(** In a collection whose items have pairwise different keys the first
    and the last item with a key are one. *)
Lemma well_keyed_first_last (data : list value) (k : string) (p : Z) (item : value) :
  well_keyed data → firstWithKey data k p → lastWithKey data k item →
  data !! Z.to_nat p = Some item.
Proof.
  intros [_ Hnd]%well_keyed_iff (j & item1 & -> & Hj & Hk & _) (j2 & Hj2 & Hk2 & _).
  rewrite Nat2Z.id. assert (j = j2) as <-; [|done].
  apply (NoDup_lookup _ _ _ (Some k) Hnd); rewrite list_lookup_fmap.
  - by rewrite Hj; simpl; rewrite Hk.
  - by rewrite Hj2; simpl; rewrite Hk2.
Qed.

(** X2.  Every entry of the change set names, as its position, the first
    place of its collection that holds an item with its key, and carries, as
    its data, the last item of the collection with that key: the entries of
    [added], [updated] and [unchanged] in the new collection, those of
    [removed] and the old item of an update in the old one.  In a collection
    whose items all have a key of their own the item at the position is the
    one carried. *)
Theorem entries_point_into_their_collection (oldData newData : list value) :
  total_comparison →
  let cs := detectChanges options oldData newData in
  (∀ e, e ∈ (ChangeSet.added cs ++ ChangeSet.unchanged cs)%list →
     firstWithKey newData (Entry.key e) (Entry.position e) ∧
     lastWithKey newData (Entry.key e) (Entry.data e) ∧
     (well_keyed newData →
        newData !! Z.to_nat (Entry.position e) = Some (Entry.data e))) ∧
  (∀ u, u ∈ ChangeSet.updated cs →
     firstWithKey newData (Updated.key u) (Updated.position u) ∧
     lastWithKey newData (Updated.key u) (Updated.new u) ∧
     lastWithKey oldData (Updated.key u) (Updated.old u) ∧
     (well_keyed newData →
        newData !! Z.to_nat (Updated.position u) = Some (Updated.new u))) ∧
  (∀ e, e ∈ ChangeSet.removed cs →
     firstWithKey oldData (Entry.key e) (Entry.position e) ∧
     lastWithKey oldData (Entry.key e) (Entry.data e) ∧
     (well_keyed oldData →
        oldData !! Z.to_nat (Entry.position e) = Some (Entry.data e))).
Proof.
  intros Htot. cbn zeta.
  destruct (detectChanges_entries oldData newData Htot) as (Ha & Hu & Hn & Hr & _).
  rewrite Ha, Hu, Hn, Hr. clear Ha Hu Hn Hr.
  assert (∀ data k item, (k, item) ∈ buildDataMap options data →
            firstWithKey data k (findItemPosition options data k) ∧
            lastWithKey data k item ∧
            (well_keyed data →
               data !! Z.to_nat (findItemPosition options data k) = Some item)) as Hentry.
  { intros data k item Hin.
    pose proof (firstWithKey_of_entry data k item Hin) as Hfirst.
    apply buildDataMap_entry in Hin as [_ Hlast].
    split_and!; [done | done |]. intros Hwk. by eapply well_keyed_first_last. }
  split_and!.
  - intros e [Hin|Hin]%elem_of_app;
      apply elem_of_omap_inv in Hin as ([k item] & Hin & Hof);
      [unfold addedOf in Hof | unfold unchangedOf in Hof]; cbn [fst snd] in Hof;
      destruct (map_get _ k) as [oldItem|]; try done;
      [|destruct (same oldItem item); [|done]];
      injection Hof as <-; by apply Hentry.
  - intros u Hin. apply elem_of_omap_inv in Hin as ([k item] & Hin & Hof).
    unfold updatedOf in Hof. cbn [fst snd] in Hof.
    destruct (map_get _ k) as [oldItem|] eqn:Hget; [|done].
    destruct (same oldItem item); [done|]. injection Hof as <-. cbn.
    destruct (Hentry newData k item Hin) as (? & ? & ?).
    apply map_get_entry, buildDataMap_entry in Hget as [_ ?]. done.
  - intros e Hin. apply elem_of_omap_inv in Hin as ([k item] & Hin & Hof).
    unfold removedOf in Hof. cbn [fst snd] in Hof.
    destruct (map_has _ k); [done|]. injection Hof as <-. by apply Hentry.
Qed.








(** X5.  Swapping the two collections swaps what is added with what is
    removed, entry by entry. *)
Theorem added_and_removed_swap (oldData newData : list value) :
  total_comparison →
  ChangeSet.added (detectChanges options oldData newData)
    = ChangeSet.removed (detectChanges options newData oldData) ∧
  ChangeSet.removed (detectChanges options oldData newData)
    = ChangeSet.added (detectChanges options newData oldData).
Proof.
  intros Htot.
  destruct (detectChanges_entries oldData newData Htot) as (Ha & _ & _ & Hr & _).
  destruct (detectChanges_entries newData oldData Htot) as (Ha' & _ & _ & Hr' & _).
  cbn zeta in *. rewrite Ha, Hr, Ha', Hr'.
  assert (∀ m data entry, addedOf m data entry = removedOf m data entry) as Heq.
  { intros m data [k item]. unfold addedOf, removedOf, map_has. cbn [fst snd].
    destruct (map_get m k) as [x|].
    - by rewrite bool_decide_eq_true_2.
    - rewrite bool_decide_eq_false_2; [done|]. by intros [? ?]. }
  split; apply list_omap_ext, Forall2_same_length_lookup_2; try done;
    intros i x y Hx Hy; assert (x = y) as -> by congruence; by rewrite Heq.
Qed.

(** ** The fields that an update lists *)

Lemma foldl_uniq (seen l : list string) :
  NoDup seen →
  let all := foldl (λ seen k, if includes seen k then seen else (seen ++ [k])%list) seen l in
  NoDup all ∧ ∀ k, k ∈ all ↔ k ∈ seen ∨ k ∈ l.
Proof.
  revert seen. induction l as [|x l IH]; intros seen Hnd; cbn zeta.
  - split; [done|]. intros k. rewrite elem_of_nil. tauto.
  - cbn [foldl]. destruct (includes seen x) eqn:Hinc.
    + apply includes_true in Hinc. destruct (IH seen Hnd) as [Hnd' Hin].
      split; [done|]. intros k. rewrite Hin, elem_of_cons. naive_solver.
    + assert (x ∉ seen) as Hx by (intros ?%includes_true; congruence).
      destruct (IH (seen ++ [x])%list) as [Hnd' Hin].
      { apply NoDup_app. split_and!; [done | | apply NoDup_singleton].
        intros y Hy ->%list_elem_of_singleton. done. }
      split; [done|]. intros k.
      rewrite Hin, elem_of_app, list_elem_of_singleton, elem_of_cons. tauto.
Qed.

Lemma uniq_spec (l : list string) :
  NoDup (uniq l) ∧ ∀ k, k ∈ uniq l ↔ k ∈ l.
Proof.
  destruct (foldl_uniq [] l) as [Hnd Hin]; [constructor|].
  split; [done|]. intros k. unfold uniq. rewrite Hin, elem_of_nil. tauto.
Qed.

(** A field that [getSpecificChanges] lists: it is not ignored and the
    two items differ on it. *)
Definition differs (oldItem newItem : value) (k : string) : bool :=
  negb (ignored options k)
  && negb (deepEqual_read options (get oldItem k) (get newItem k)).

Definition fieldChange (oldItem newItem : value) (k : string) : FieldChange.t :=
  FieldChange.mk k (get oldItem k) (get newItem k) (typeof (get oldItem k)).

Lemma getSpecificChanges_filter (oldItem newItem : value) :
  getSpecificChanges options oldItem newItem =
    fieldChange oldItem newItem
      <$> filter (λ k, differs oldItem newItem k = true)
            (uniq (keys oldItem ++ keys newItem)).
Proof.
  unfold getSpecificChanges. cbn zeta.
  generalize (uniq (keys oldItem ++ keys newItem)) as l.
  pose (g := λ (changes : list FieldChange.t) (k : string),
               if ignored options k then changes
               else if deepEqual_read options (get oldItem k) (get newItem k) then changes
               else (changes ++ [fieldChange oldItem newItem k])%list).
  assert (∀ l acc, foldl g acc l =
            (acc ++ (fieldChange oldItem newItem
                       <$> filter (λ k, differs oldItem newItem k = true) l))%list) as H.
  { induction l as [|k l IH]; intros acc; [by rewrite app_nil_r|].
    cbn [foldl]. rewrite IH, filter_cons.
    assert (differs oldItem newItem k =
              negb (ignored options k)
              && negb (deepEqual_read options (get oldItem k) (get newItem k))) as Hk
      by done.
    unfold g. destruct (ignored options k); simpl in Hk.
    { by rewrite decide_False by congruence. }
    destruct (deepEqual_read options (get oldItem k) (get newItem k)); simpl in Hk.
    { by rewrite decide_False by congruence. }
    rewrite decide_True by done. simpl. by rewrite <- app_assoc. }
  intros l. apply (H l []).
Qed.

Lemma get_VObj (fields : list (string * value)) (k : string) :
  get (VObj fields) k = assoc k fields.
Proof.
  unfold get. cbn [props]. destruct (assoc k fields); [done|].
  by destruct (String.eqb k "length").
Qed.

Lemma compared_NoDup (v : value) : NoDup (keys v) → NoDup (compared v).
Proof. apply NoDup_filter. Qed.

(** Two objects that the deep comparison finds equal have the same
    compared keys. *)
Lemma deepEqual_obj_keys (fields1 fields2 : list (string * value)) :
  NoDup fields1.*1 →
  deepEqual options (VObj fields1) (VObj fields2) = true →
  compared (VObj fields1) ≡ₚ compared (VObj fields2) ∧
  ∀ k x, (k, x) ∈ fields1 → ignored options k = false →
    ∃ y, get (VObj fields2) k = Some y ∧ deepEqual options x y = true.
Proof.
  intros Hnd. rewrite deepEqual_unfold. cbn [strict_equals is_object andb negb].
  destruct (Nat.eqb_spec (length (compared (VObj fields1)))
              (length (compared (VObj fields2)))) as [Hlen|_]; [|done].
  cbn [negb]. intros Hwalk. rewrite walk_fields_true in Hwalk. split.
  - apply submseteq_length_Permutation; [|lia].
    apply NoDup_submseteq; [by apply compared_NoDup|].
    intros k [Hig [[k' x] [-> Hin]]%list_elem_of_fmap]%compared_elem.
    by destruct (Hwalk k' x Hin Hig) as [? _].
  - intros k x Hin Hig. by destruct (Hwalk k x Hin Hig) as [_ ?].
Qed.

Lemma deepEqual_read_Some (a b : option value) :
  deepEqual_read options a b = true → (is_Some a ↔ is_Some b).
Proof. destruct a, b; simpl; intros H; try done; split; eauto. Qed.

Lemma filter_none {A : Type} (P : A → Prop) `{∀ x, Decision (P x)} (l : list A) :
  (∀ x, x ∈ l → ¬ P x) → filter P l = [].
Proof.
  induction l as [|x l IH]; intros Hl; [done|].
  rewrite filter_cons, decide_False by (by apply Hl; left).
  apply IH. intros y Hy. apply Hl. by right.
Qed.

(** What the model of [getSpecificChanges] answers on any two values. *)
Lemma getSpecificChanges_fields (oldItem newItem : value) :
  let changes := getSpecificChanges options oldItem newItem in
  NoDup (FieldChange.field <$> changes) ∧
  (∀ k, k ∈ FieldChange.field <$> changes ↔
        (k ∈ keys oldItem ∨ k ∈ keys newItem) ∧ ignored options k = false ∧
        deepEqual_read options (get oldItem k) (get newItem k) = false) ∧
  (∀ c, c ∈ changes →
        FieldChange.oldValue c = get oldItem (FieldChange.field c) ∧
        FieldChange.newValue c = get newItem (FieldChange.field c) ∧
        FieldChange.type c = typeof (get oldItem (FieldChange.field c))) ∧
  (∀ fields1 fields2,
     oldItem = VObj fields1 → newItem = VObj fields2 →
     NoDup fields1.*1 → NoDup fields2.*1 →
     (changes = [] ↔ deepEqual options oldItem newItem = true)).
Proof.
  cbn zeta. rewrite getSpecificChanges_filter.
  destruct (uniq_spec (keys oldItem ++ keys newItem)) as [Hnd Hin].
  set (l := uniq (keys oldItem ++ keys newItem)) in *.
  assert (∀ k, differs oldItem newItem k = true ↔
               ignored options k = false ∧
               deepEqual_read options (get oldItem k) (get newItem k) = false) as Hdiff.
  { intros k. unfold differs. rewrite andb_true_iff, !negb_true_iff. done. }
  assert (FieldChange.field <$> (fieldChange oldItem newItem
            <$> filter (λ k, differs oldItem newItem k = true) l)
          = filter (λ k, differs oldItem newItem k = true) l) as Hfields.
  { rewrite <- list_fmap_compose. apply list_fmap_id. }
  rewrite Hfields. split_and!.
  - by apply NoDup_filter.
  - intros k. rewrite list_elem_of_filter, Hdiff, Hin, elem_of_app. tauto.
  - by intros c (k & -> & _)%list_elem_of_fmap.
  - intros fields1 fields2 -> -> Hnd1 Hnd2.
    assert (∀ ks : list string,
              fieldChange (VObj fields1) (VObj fields2) <$> ks = [] ↔ ks = []) as ->.
    { intros ks. split; [apply fmap_nil_inv | by intros ->]. }
    split.
    + intros Hnil.
      assert (∀ k, (k ∈ fields1.*1 ∨ k ∈ fields2.*1) → ignored options k = false →
                deepEqual_read options (assoc k fields1) (assoc k fields2) = true) as Hall.
      { intros k Hk Hig.
        destruct (deepEqual_read options (assoc k fields1) (assoc k fields2)) eqn:Heq; [done|].
        exfalso. apply (filter_nil_incl _ l Hnil k).
        - apply Hin, elem_of_app. unfold keys. by cbn [props].
        - apply Hdiff. by rewrite !get_VObj. }
      assert (compared (VObj fields1) ≡ₚ compared (VObj fields2)) as Hperm.
      { apply NoDup_Permutation; [by apply compared_NoDup..|]. intros k.
        rewrite !compared_elem. unfold keys. cbn [props].
        split; intros [Hig Hk]; (split; [done|]);
          apply assoc_is_Some; apply assoc_is_Some in Hk;
          [apply (deepEqual_read_Some _ _ (Hall k (or_introl (proj1 (assoc_is_Some _ _) Hk)) Hig))
          |apply (deepEqual_read_Some _ _ (Hall k (or_intror (proj1 (assoc_is_Some _ _) Hk)) Hig))];
          done. }
      rewrite deepEqual_unfold. cbn [strict_equals is_object andb negb].
      rewrite (Permutation_length Hperm), Nat.eqb_refl. cbn [negb].
      apply walk_fields_true. intros k x Hinx Hig.
      assert (k ∈ fields1.*1) as Hk1 by (apply list_elem_of_fmap; by exists (k, x)).
      split.
      * rewrite <- Hperm. by apply compared_elem.
      * specialize (Hall k (or_introl Hk1) Hig).
        rewrite (assoc_elem k x fields1 Hnd1 Hinx) in Hall.
        rewrite get_VObj. destruct (assoc k fields2) as [y|]; [by exists y | done].
    + intros Heq. destruct (deepEqual_obj_keys fields1 fields2 Hnd1 Heq) as [Hperm Hvals].
      apply filter_none. intros k Hk [Hig Hne]%Hdiff.
      assert (k ∈ compared (VObj fields1)) as Hk1.
      { apply Hin, elem_of_app in Hk as [Hk|Hk]; [by apply compared_elem|].
        rewrite Hperm. by apply compared_elem. }
      apply compared_elem in Hk1 as [_ [[k' x] [-> Hinx]]%list_elem_of_fmap].
      cbn [fst] in *.
      destruct (Hvals k' x Hinx Hig) as (y & Hy & Hxy).
      rewrite Hy, get_VObj, (assoc_elem k' x fields1 Hnd1 Hinx) in Hne.
      simpl in Hne. congruence.
Qed.

(** X6.  For two objects none of whose field names is a property of
    [Object.prototype], [getSpecificChanges] lists each field once; a field
    is listed exactly when it is a field of one of the two items, is not
    ignored and has values in the two items that are not deeply equal (a
    missing value is equal to a missing value only); the entry of a field
    carries the two values and the type of the old one.  When neither object
    repeats a field name, the list is empty exactly when the deep comparison
    finds the objects equal. *)
Theorem specific_changes_are_the_differing_fields
    (fields1 fields2 : list (string * value)) :
  Forall (λ k, k ∉ inherited) fields1.*1 →
  Forall (λ k, k ∉ inherited) fields2.*1 →
  let oldItem := VObj fields1 in
  let newItem := VObj fields2 in
  let changes := getSpecificChanges options oldItem newItem in
  NoDup (FieldChange.field <$> changes) ∧
  (∀ k, k ∈ FieldChange.field <$> changes ↔
        (k ∈ fields1.*1 ∨ k ∈ fields2.*1) ∧ ignored options k = false ∧
        deepEqual_read options (get oldItem k) (get newItem k) = false) ∧
  (∀ c, c ∈ changes →
        FieldChange.oldValue c = get oldItem (FieldChange.field c) ∧
        FieldChange.newValue c = get newItem (FieldChange.field c) ∧
        FieldChange.type c = typeof (get oldItem (FieldChange.field c))) ∧
  (NoDup fields1.*1 → NoDup fields2.*1 →
     (changes = [] ↔ deepEqual options oldItem newItem = true)).
Proof.
  intros _ _. cbn zeta.
  pose proof (getSpecificChanges_fields (VObj fields1) (VObj fields2)) as H.
  cbn zeta in H. destruct H as (Hdistinct & Hlisted & Hcarried & Hequal).
  split_and!; [exact Hdistinct | exact Hlisted | exact Hcarried |].
  intros Hnd1 Hnd2. by apply (Hequal fields1 fields2).
Qed.

(** ** A side that is missing *)







End ChangeDetectorFacts.

(** * Properties of the polling service *)

Section PollingServiceFacts.
Import PollingService.

(** The interval that the four signals call for. *)
Definition follows_precedence (s : Service) : Prop :=
  (isOnline (state s) = false →
     currentInterval (state s) = backgroundInterval (config s) * 2) ∧
  (isOnline (state s) = true → isVisible (state s) = false →
     currentInterval (state s) = backgroundInterval (config s)) ∧
  (isOnline (state s) = true → isVisible (state s) = true →
   isUserActive (state s) = true →
     currentInterval (state s) = activeInterval (config s)) ∧
  (isOnline (state s) = true → isVisible (state s) = true →
   isUserActive (state s) = false →
     currentInterval (state s) = normalInterval (config s)).

(** What starting, pausing and running a cycle leave alone: the options,
    the three signals and the interval. *)
Definition same_signals (s s' : Service) : Prop :=
  options s' = options s ∧
  isOnline (state s') = isOnline (state s) ∧
  isVisible (state s') = isVisible (state s) ∧
  isUserActive (state s') = isUserActive (state s) ∧
  currentInterval (state s') = currentInterval (state s).

Lemma same_signals_refl (s : Service) : same_signals s s.
Proof. by repeat split. Qed.

Lemma same_signals_trans (s1 s2 s3 : Service) :
  same_signals s1 s2 → same_signals s2 s3 → same_signals s1 s3.
Proof. unfold same_signals. intros (?&?&?&?&?) (?&?&?&?&?). split_and!; congruence. Qed.

Lemma pause_signals (s : Service) : same_signals s (pause s).
Proof. unfold pause. simpl. destruct (timerId (state s)); by repeat split. Qed.

Lemma finallyBlock_signals (s : Service) : same_signals s (finallyBlock s).
Proof. unfold finallyBlock. destruct (isActive (state s)); by repeat split. Qed.

Lemma cycleFailed_signals (error : string) (s : Service) :
  same_signals s (cycleFailed error s).
Proof.
  unfold cycleFailed, handleError. cbn zeta.
  set (s1 := with_state (set_retryCount _) (with_state _ (emit _ s))).
  assert (same_signals s s1) as H1 by (by repeat split).
  destruct (maxRetries (config s1) <=? retryCount (state s1)).
  - eapply same_signals_trans; [|apply finallyBlock_signals].
    eapply same_signals_trans; [exact H1|].
    eapply same_signals_trans; [apply pause_signals|].
    destruct (onError _); by repeat split.
  - eapply same_signals_trans; [exact H1|]. by repeat split.
Qed.

Lemma executePollingCycle_signals (s : Service) :
  same_signals s (executePollingCycle s).
Proof.
  unfold executePollingCycle. destruct (isActive (state s)); simpl; [|by repeat split].
  destruct (fetchFunction (options s)); [by repeat split|].
  eapply same_signals_trans; [|apply cycleFailed_signals]. by repeat split.
Qed.

Lemma resume_signals (s : Service) : same_signals s (resume s).
Proof.
  unfold resume. destruct (isActive (state s)); simpl; [by repeat split|].
  eapply same_signals_trans; [|apply executePollingCycle_signals]. by repeat split.
Qed.

Lemma restart_signals (s : Service) : same_signals s (restart s).
Proof.
  unfold restart. eapply same_signals_trans; [apply pause_signals | apply resume_signals].
Qed.

(** After [adjustPollingInterval] the interval is the one the signals
    call for, and the signals are what they were. *)
Lemma adjustPollingInterval_sets (s : Service) :
  follows_precedence (adjustPollingInterval s) ∧
  options (adjustPollingInterval s) = options s ∧
  isOnline (state (adjustPollingInterval s)) = isOnline (state s) ∧
  isVisible (state (adjustPollingInterval s)) = isVisible (state s) ∧
  isUserActive (state (adjustPollingInterval s)) = isUserActive (state s).
Proof.
  unfold adjustPollingInterval.
  set (newInterval := if negb (isOnline (state s)) then _ else _).
  assert (∀ s', options s' = options s →
                isOnline (state s') = isOnline (state s) →
                isVisible (state s') = isVisible (state s) →
                isUserActive (state s') = isUserActive (state s) →
                currentInterval (state s') = newInterval →
                follows_precedence s') as Hfollows.
  { intros s' Ho H1 H2 H3 Hc. unfold follows_precedence, config.
    rewrite Ho, H1, H2, H3, Hc. subst newInterval. unfold config.
    destruct (isOnline (state s)), (isVisible (state s)), (isUserActive (state s));
      simpl; split_and!; intros; done. }
  destruct (Z.eqb_spec newInterval (currentInterval (state s))) as [Heq|Hne]; simpl.
  - split_and!; [by apply Hfollows | done..].
  - cbn zeta. set (s1 := with_state _ s).
    assert (same_signals s1 (if isActive (state s1) then restart s1 else s1))
      as (Ho & H1 & H2 & H3 & Hc).
    { destruct (isActive (state s1)); [apply restart_signals | apply same_signals_refl]. }
    split_and!; [|done..]. apply Hfollows; [done..|].
    etrans; [exact Hc | done].
Qed.

Lemma follows_precedence_ext (s s' : Service) :
  state s' = state s → options s' = options s →
  follows_precedence s → follows_precedence s'.
Proof. unfold follows_precedence, config. by intros -> ->. Qed.

(** C2, as the code has it.  Every run of [adjustPollingInterval] leaves
    the interval that the precedence calls for: twice the background
    interval when offline, whatever the other two signals; else the
    background interval when not visible, whatever the activity; else the
    active interval when the user is active; else the normal interval.  The
    listeners of visibility and user activity, the inactivity timeout and
    [updateConfig] end with such a run.  The listeners of [online] and
    [offline] do not: they set [isOnline], resume or pause, and leave the
    interval as it is. *)
Theorem interval_precedence (s : Service) :
  follows_precedence (adjustPollingInterval s) ∧
  (∀ hidden,
     follows_precedence (onVisibilityChange hidden s) ∧
     isVisible (state (onVisibilityChange hidden s)) = negb hidden) ∧
  (follows_precedence (handleUserActive s) ∧
   isUserActive (state (handleUserActive s)) = true) ∧
  (follows_precedence (userInactive s) ∧
   isUserActive (state (userInactive s)) = false) ∧
  (∀ c, follows_precedence (updateConfig c s)) ∧
  (isOnline (state (onOnline s)) = true ∧
   currentInterval (state (onOnline s)) = currentInterval (state s)) ∧
  (isOnline (state (onOffline s)) = false ∧
   currentInterval (state (onOffline s)) = currentInterval (state s)).
Proof.
  refine (conj _ (conj _ (conj _ (conj _ (conj _ (conj _ _)))))).
  - apply adjustPollingInterval_sets.
  - intros hidden. unfold onVisibilityChange.
    destruct (adjustPollingInterval_sets (with_state (set_isVisible (negb hidden)) s))
      as (Hf & _ & _ & Hv & _). done.
  - unfold handleUserActive. cbn zeta.
    destruct (adjustPollingInterval_sets (with_state (set_isUserActive true) s))
      as (Hf & _ & _ & _ & Hu).
    set (s1 := adjustPollingInterval _) in *.
    split; [|destruct (activityTimeout s1); exact Hu].
    eapply follows_precedence_ext; [| |exact Hf]; by destruct (activityTimeout s1).
  - unfold userInactive.
    destruct (adjustPollingInterval_sets (with_state (set_isUserActive false) s))
      as (Hf & _ & _ & _ & Hu). done.
  - intros c. unfold updateConfig. apply adjustPollingInterval_sets.
  - unfold onOnline.
    destruct (resume_signals (with_state (set_isOnline true) s)) as (_ & Ho & _ & _ & Hc).
    done.
  - unfold onOffline.
    destruct (pause_signals (with_state (set_isOnline false) s)) as (_ & Ho & _ & _ & Hc).
    done.
Qed.

(** The constructor ends with a run of [adjustPollingInterval] too. *)
Lemma constructor_precedence (fetch success error : bool) (c : ConfigInput)
    (online hidden : bool) (clock : Z) :
  follows_precedence (constructor fetch success error c online hidden clock).
Proof. unfold constructor. cbn zeta. apply adjustPollingInterval_sets. Qed.


(** A service in the middle of a polling cycle: it is active, its one
    fetch is in flight, and no cycle is armed or waiting beside it.  The
    identifiers of the pending timers are ones [setTimeout] has given out. *)
Definition polling (s : Service) : Prop :=
  isActive (state s) = true ∧
  fetchFunction (options s) = true ∧
  inFlight s = 1%nat ∧
  Forall (λ tm, task tm = UserInactive ∧ (id tm < nextTimer s)%positive) (timers s).

(** One failing cycle and what follows it without anything else
    happening: the fetch in flight fails, the retry delay elapses, the timer
    armed by the [finally] block fires. *)
Definition failedRound (s : Service) (error : string) : Service :=
  run s [FetchRejects error; TimerFires RetryDelayElapsed; TimerFires PollingCycle].

(** The calls of the error callback recorded so far. *)
Definition errorCall (entry : Z * Effect) : option (Z * string * string) :=
  match entry.2 with
  | OnError error reason => Some (entry.1, error, reason)
  | _ => None
  end.

Definition errorCalls (s : Service) : list (Z * string * string) :=
  omap errorCall (trace s).

Lemma timerDelay_nonneg (ms : Z) : 0 ≤ timerDelay ms.
Proof. unfold timerDelay. lia. Qed.

(** A delay that fits in 31 bits is armed as it is. *)
Lemma timerDelay_id (ms : Z) : 0 ≤ ms ≤ 2147483647 → timerDelay ms = ms.
Proof.
  intros H. unfold timerDelay.
  rewrite Z.mod_small by lia. lia.
Qed.

Lemma earliest_none (k : Task) (l : list Timer) :
  Forall (λ tm, task tm ≠ k) l → earliest k l = None.
Proof.
  induction 1 as [|tm l Hne _ IH]; simpl; [done|].
  by rewrite decide_False.
Qed.

Lemma earliest_snoc (l : list Timer) (tm : Timer) :
  Forall (λ x, task x ≠ task tm) l → earliest (task tm) (l ++ [tm])%list = Some tm.
Proof.
  induction 1 as [|x l Hne _ IH]; simpl.
  - by rewrite decide_True.
  - by rewrite decide_False.
Qed.

Lemma filter_id_fresh (n : positive) (l : list Timer) :
  Forall (λ tm, (id tm < n)%positive) l → filter (λ tm, id tm ≠ n) l = l.
Proof.
  induction 1 as [|tm l Hlt _ IH]; [done|].
  rewrite filter_cons_True; [by rewrite IH | lia].
Qed.

Lemma filter_id_snoc (n : positive) (d : Z) (k : Task) (l : list Timer) :
  Forall (λ tm, (id tm < n)%positive) l →
  filter (λ tm, id tm ≠ n) (l ++ [{| id := n; due := d; task := k |}])%list = l.
Proof.
  intros Hl. rewrite filter_app, filter_id_fresh by done.
  rewrite filter_cons_False, filter_nil, app_nil_r; [done | simpl; tauto].
Qed.

Lemma errorCalls_snoc (tr : list (Z * Effect)) (t : Z) (e : Effect) :
  omap errorCall (tr ++ [(t, e)])%list =
  (omap errorCall tr
   ++ match e with
      | OnError error reason => [(t, error, reason)]
      | _ => []
      end)%list.
Proof. rewrite omap_app. simpl. by destruct e. Qed.

(** Unfolds the accessors and updates of a service given field by
    field, in the goal. *)
Ltac service_compute :=
  cbv beta iota zeta delta
    [config with_state with_options with_activityTimeout with_now with_timers
     with_inFlight emit setTimeout clearTimeout pause finallyBlock handleError
     cycleFailed executePollingCycle fetchRejected fetchResolved fire
     set_isActive set_currentInterval set_retryCount set_isOnline set_isVisible
     set_isUserActive set_timerId set_lastFetchTime set_lastSuccessTime
     set_lastError options state activityTimeout now timers nextTimer inFlight
     trace fetchFunction onSuccess onError pollingConfig isActive currentInterval
     retryCount isOnline isVisible isUserActive timerId lastFetchTime
     lastSuccessTime lastError id due task negb fst snd].

(** The failure of the fetch in flight when retries are left: the count
    goes up and the wait of [retryDelay] starts. *)
Lemma fetchRejected_retry (s : Service) (error : string) :
  polling s →
  retryCount (state s) + 1 < maxRetries (config s) →
  fetchRejected error s =
    {| options := options s;
       state := set_retryCount (retryCount (state s) + 1)
                  (set_lastError (Some error) (state s));
       activityTimeout := activityTimeout s;
       now := now s;
       timers := (timers s ++ [{| id := nextTimer s;
                                  due := now s + timerDelay (retryDelay (config s));
                                  task := RetryDelayElapsed |}])%list;
       nextTimer := Pos.succ (nextTimer s);
       inFlight := 0;
       trace := (trace s ++ [(now s, ConsoleError error)])%list |}.
Proof.
  intros (Hact & Hfetch & Hfl & Htimers) Hlt.
  destruct s as [[ff os oe cfg] [a ci rc on vi ua t lf ls le] at' n tms nt fl tr].
  cbn in Hact, Hfetch, Hfl, Hlt. subst a ff fl.
  unfold config in Hlt. cbn in Hlt.
  service_compute.
  destruct (Z.leb_spec (maxRetries cfg) (rc + 1)) as [Hle|_]; [lia|].
  reflexivity.
Qed.

(** The failure of the fetch in flight when no retry is left: the service
    is paused and the error callback called. *)
Lemma fetchRejected_exhausted (s : Service) (error : string) :
  polling s →
  maxRetries (config s) ≤ retryCount (state s) + 1 →
  fetchRejected error s =
    {| options := options s;
       state := set_timerId None
                  (set_isActive false
                     (set_retryCount (retryCount (state s) + 1)
                        (set_lastError (Some error) (state s))));
       activityTimeout := activityTimeout s;
       now := now s;
       timers := match timerId (state s) with
                 | Some t => filter (λ tm, id tm ≠ t) (timers s)
                 | None => timers s
                 end;
       nextTimer := nextTimer s;
       inFlight := 0;
       trace := (trace s ++ (now s, ConsoleError error)
                   :: if onError (options s)
                      then [(now s, OnError error "max_retries_exceeded")]
                      else [])%list |}.
Proof.
  intros (Hact & Hfetch & Hfl & Htimers) Hge.
  destruct s as [[ff os oe cfg] [a ci rc on vi ua t lf ls le] at' n tms nt fl tr].
  cbn in Hact, Hfetch, Hfl, Hge. subst a ff fl.
  unfold config in Hge. cbn in Hge.
  service_compute.
  destruct (Z.leb_spec (maxRetries cfg) (rc + 1)) as [_|Hlt]; [|lia].
  destruct t as [t|], oe; service_compute; rewrite <- ?app_assoc; reflexivity.
Qed.

(** The end of the wait: the [finally] block arms the next cycle. *)
Lemma retryDelay_elapsed (s : Service) (error : string) :
  polling s →
  retryCount (state s) + 1 < maxRetries (config s) →
  fireNext RetryDelayElapsed (fetchRejected error s) =
    {| options := options s;
       state := set_timerId (Some (Pos.succ (nextTimer s)))
                  (set_retryCount (retryCount (state s) + 1)
                     (set_lastError (Some error) (state s)));
       activityTimeout := activityTimeout s;
       now := Z.max (now s) (now s + timerDelay (retryDelay (config s)));
       timers := (timers s
                  ++ [{| id := Pos.succ (nextTimer s);
                         due := Z.max (now s) (now s + timerDelay (retryDelay (config s)))
                                + timerDelay (currentInterval (state s));
                         task := PollingCycle |}])%list;
       nextTimer := Pos.succ (Pos.succ (nextTimer s));
       inFlight := 0;
       trace := (trace s ++ [(now s, ConsoleError error)])%list |}.
Proof.
  intros Hp Hlt. rewrite fetchRejected_retry by done.
  destruct Hp as (Hact & Hfetch & Hfl & Htimers).
  destruct s as [[ff os oe cfg] [a ci rc on vi ua t lf ls le] at' n tms nt fl tr].
  cbn in Hact, Hfetch, Hfl, Htimers. subst a ff fl.
  unfold fireNext. service_compute.
  rewrite (earliest_snoc tms {| id := nt; due := _; task := RetryDelayElapsed |}).
  - service_compute. rewrite filter_id_snoc; [reflexivity|].
    eapply Forall_impl; [exact Htimers | by intros ? [_ ?]].
  - eapply Forall_impl; [exact Htimers|]. intros tm [-> _]. done.
Qed.

(** A failure that leaves retries: the service stays active, nothing is
    reported to the error callback, and the next fetch is issued after the
    retry delay and then the polling interval. *)
Lemma failedRound_retry (s : Service) (error : string) :
  polling s →
  retryCount (state s) + 1 < maxRetries (config s) →
  failedRound s error =
    {| options := options s;
       state := set_lastFetchTime
                  (Some (Z.max (Z.max (now s) (now s + timerDelay (retryDelay (config s))))
                           (Z.max (now s) (now s + timerDelay (retryDelay (config s)))
                            + timerDelay (currentInterval (state s)))))
                  (set_timerId (Some (Pos.succ (nextTimer s)))
                     (set_retryCount (retryCount (state s) + 1)
                        (set_lastError (Some error) (state s))));
       activityTimeout := activityTimeout s;
       now := Z.max (Z.max (now s) (now s + timerDelay (retryDelay (config s))))
                (Z.max (now s) (now s + timerDelay (retryDelay (config s)))
                 + timerDelay (currentInterval (state s)));
       timers := timers s;
       nextTimer := Pos.succ (Pos.succ (nextTimer s));
       inFlight := 1;
       trace := (trace s
                 ++ [(now s, ConsoleError error);
                     (Z.max (Z.max (now s) (now s + timerDelay (retryDelay (config s))))
                        (Z.max (now s) (now s + timerDelay (retryDelay (config s)))
                         + timerDelay (currentInterval (state s))), FetchCalled)])%list |}.
Proof.
  intros Hp Hlt. unfold failedRound, run. cbn [foldl step].
  rewrite retryDelay_elapsed by done.
  destruct Hp as (Hact & Hfetch & Hfl & Htimers).
  destruct s as [[ff os oe cfg] [a ci rc on vi ua t lf ls le] at' n tms nt fl tr].
  cbn in Hact, Hfetch, Hfl, Htimers. subst a ff fl.
  unfold fireNext. service_compute.
  rewrite (earliest_snoc tms {| id := Pos.succ nt; due := _; task := PollingCycle |}).
  - service_compute. rewrite filter_id_snoc.
    + by rewrite <- app_assoc.
    + eapply Forall_impl; [exact Htimers|]. cbn. intros ? [_ ?]. lia.
  - eapply Forall_impl; [exact Htimers|]. intros tm [-> _]. done.
Qed.

Lemma failedRound_continues (s : Service) (error : string) :
  polling s →
  retryCount (state s) + 1 < maxRetries (config s) →
  let s' := failedRound s error in
  polling s' ∧
  options s' = options s ∧
  retryCount (state s') = retryCount (state s) + 1 ∧
  lastError (state s') = Some error ∧
  currentInterval (state s') = currentInterval (state s) ∧
  errorCalls s' = errorCalls s ∧
  trace s' =
    (trace s ++ [(now s, ConsoleError error);
                 (now s + timerDelay (retryDelay (config s))
                  + timerDelay (currentInterval (state s)), FetchCalled)])%list.
Proof.
  intros Hp Hlt. cbn zeta. rewrite failedRound_retry by done.
  destruct Hp as (Hact & Hfetch & Hfl & Htimers).
  unfold polling, errorCalls. cbn.
  pose proof (timerDelay_nonneg (retryDelay (config s))).
  pose proof (timerDelay_nonneg (currentInterval (state s))).
  replace (Z.max (Z.max (now s) (now s + timerDelay (retryDelay (config s))))
             (Z.max (now s) (now s + timerDelay (retryDelay (config s)))
              + timerDelay (currentInterval (state s))))
    with (now s + timerDelay (retryDelay (config s))
          + timerDelay (currentInterval (state s))) by lia.
  split_and!; try done.
  - eapply Forall_impl; [exact Htimers|]. cbn. intros tm [? ?]. split; [done | lia].
  - change (trace s ++ [?x; ?y])%list with (trace s ++ [x] ++ [y])%list.
    rewrite app_assoc, !errorCalls_snoc. cbn. by rewrite !app_nil_r.
Qed.

(** The failure that uses up the retries: the service is paused, no timer
    of a cycle is left, and the error callback, when there is one, is called
    once with the reason [max_retries_exceeded]. *)
Lemma failedRound_stops (s : Service) (error : string) :
  polling s →
  maxRetries (config s) ≤ retryCount (state s) + 1 →
  let s' := failedRound s error in
  isActive (state s') = false ∧
  timerId (state s') = None ∧
  inFlight s' = 0%nat ∧
  Forall (λ tm, task tm = UserInactive) (timers s') ∧
  retryCount (state s') = retryCount (state s) + 1 ∧
  lastError (state s') = Some error ∧
  errorCalls s' =
    (errorCalls s ++ if onError (options s)
                     then [(now s, error, "max_retries_exceeded")] else [])%list.
Proof.
  intros Hp Hge. cbn zeta.
  assert (failedRound s error = fetchRejected error s) as ->.
  { unfold failedRound, run. cbn [foldl step].
    rewrite fetchRejected_exhausted by done.
    destruct Hp as (_ & _ & _ & Htimers).
    assert (∀ k, k ≠ UserInactive →
              earliest k (match timerId (state s) with
                          | Some t => filter (λ tm, id tm ≠ t) (timers s)
                          | None => timers s
                          end) = None) as Hnone.
    { intros k Hk. apply earliest_none.
      assert (Forall (λ tm, task tm ≠ k) (timers s)) as Hall.
      { eapply Forall_impl; [exact Htimers|]. intros tm [-> _]. done. }
      destruct (timerId (state s)); [|done].
      apply Forall_forall. intros tm [_ Hin]%list_elem_of_filter.
      rewrite Forall_forall in Hall. by apply Hall. }
    unfold fireNext. cbn [timers]. rewrite Hnone by done.
    cbn [timers]. by rewrite Hnone. }
  rewrite fetchRejected_exhausted by done.
  destruct Hp as (_ & _ & _ & Htimers).
  unfold errorCalls. cbn.
  split_and!; try done.
  - assert (Forall (λ tm, task tm = UserInactive) (timers s)) as Hall.
    { eapply Forall_impl; [exact Htimers|]. by intros tm [? _]. }
    destruct (timerId (state s)); [|done].
    apply Forall_forall. intros tm [_ Hin]%list_elem_of_filter.
    rewrite Forall_forall in Hall. by apply Hall.
  - rewrite omap_app. cbn. by destruct (onError (options s)).
Qed.

(** A fetch that succeeds, with a success callback that returns, sets
    [retryCount] back to 0. *)
Lemma fetchResolved_resets (s : Service) (data : Json.value) :
  inFlight s ≠ 0%nat → retryCount (state (fetchResolved data None s)) = 0.
Proof.
  intros Hfl.
  destruct s as [[ff os oe cfg] [a ci rc on vi ua t lf ls le] at' n tms nt fl tr].
  cbn in Hfl. destruct fl as [|fl]; [done|].
  service_compute. by destruct os, a.
Qed.

(** The failures before the last one of a run. *)
Lemma failedRounds_continue (errors : list string) (s : Service) :
  polling s →
  retryCount (state s) + Z.of_nat (length errors) < maxRetries (config s) →
  let s' := foldl failedRound s errors in
  polling s' ∧
  options s' = options s ∧
  retryCount (state s') = retryCount (state s) + Z.of_nat (length errors) ∧
  errorCalls s' = errorCalls s.
Proof.
  revert s. induction errors as [|error errors IH]; intros s Hp Hlt; cbn zeta.
  - simpl. rewrite Z.add_0_r. done.
  - cbn [foldl]. rewrite length_cons, Nat2Z.inj_succ in *.
    destruct (failedRound_continues s error Hp) as (Hp1 & Ho1 & Hr1 & _ & _ & He1 & _);
      [lia|].
    destruct (IH (failedRound s error) Hp1) as (Hp' & Ho' & Hr' & He').
    { unfold config in *. rewrite Ho1, Hr1. lia. }
    split_and!; [done | congruence | lia | congruence].
Qed.

(** C3.  A run of consecutive fetch failures of an active service starts
    with [retryCount] 0, as a success leaves it.  None of the failures before
    the [maxRetries]-th stops the service or reaches the error callback; the
    [maxRetries]-th makes the service inactive with no cycle armed and calls
    the error callback once, with the reason [max_retries_exceeded]; and a
    fetch that succeeds sets [retryCount] back to 0. *)
Theorem retries_exhausted (s : Service) (earlier : list string) (error : string) :
  polling s →
  retryCount (state s) = 0 →
  onError (options s) = true →
  Z.of_nat (length earlier) + 1 = maxRetries (config s) →
  let before := foldl failedRound s earlier in
  let after := failedRound before error in
  (∀ n, (n ≤ length earlier)%nat →
     let sn := foldl failedRound s (take n earlier) in
     isActive (state sn) = true ∧ inFlight sn = 1%nat ∧
     retryCount (state sn) = Z.of_nat n ∧
     errorCalls sn = errorCalls s) ∧
  isActive (state after) = false ∧
  timerId (state after) = None ∧
  inFlight after = 0%nat ∧
  Forall (λ tm, task tm = UserInactive) (timers after) ∧
  errorCalls after = (errorCalls s ++ [(now before, error, "max_retries_exceeded")])%list ∧
  (∀ n data, (n ≤ length earlier)%nat →
     retryCount (state (fetchResolved data None
                          (foldl failedRound s (take n earlier)))) = 0).
Proof.
  intros Hp Hrc Hcb Hmax. cbn zeta.
  assert (∀ n, (n ≤ length earlier)%nat →
            let sn := foldl failedRound s (take n earlier) in
            polling sn ∧ options sn = options s ∧
            retryCount (state sn) = Z.of_nat n ∧ errorCalls sn = errorCalls s)
    as Hearlier.
  { intros n Hn. cbn zeta.
    destruct (failedRounds_continue (take n earlier) s Hp) as (Hp' & Ho' & Hr' & He').
    - rewrite length_take. lia.
    - rewrite length_take in Hr'. split_and!; [done | done | lia | done]. }
  destruct (Hearlier (length earlier) (le_n _)) as (Hpb & Hob & Hrb & Heb).
  rewrite firstn_all in Hpb, Hob, Hrb, Heb.
  destruct (failedRound_stops (foldl failedRound s earlier) error Hpb)
    as (Ha & Ht & Hf & Htm & _ & _ & He).
  { unfold config in *. rewrite Hob, Hrb. lia. }
  rewrite Hob, Hcb, Heb in He.
  split_and!; try done.
  - intros n Hn. destruct (Hearlier n Hn) as ((? & ? & ? & ?) & ? & ? & ?). done.
  - intros n data Hn. destruct (Hearlier n Hn) as ((_ & _ & Hfl & _) & _).
    apply fetchResolved_resets. by rewrite Hfl.
Qed.

Lemma dueFirst_snoc (l : list Timer) (tm : Timer) :
  Forall (λ x, due tm < due x) l → dueFirst (l ++ [tm])%list = Some tm.
Proof.
  induction 1 as [|x l Hlt _ IH]; simpl; [done|].
  rewrite IH. by destruct (Z.ltb_spec (due tm) (due x)); [|lia].
Qed.

(** C4, as the code has it.  When the fetch of a cycle fails and retries
    are left, the service stays active and waits for the retry delay; after
    it, the [finally] block arms the next cycle one polling interval later.
    So when nothing else happens meanwhile, which includes that no other
    timer (the one of the inactivity timeout) comes due up to then, the next
    fetch is issued [retryDelay + currentInterval] after the failure.  The
    two delays are such as a timer takes as they are, from 1 to
    2147483647 ms. *)
Theorem retry_waits_delay_then_interval (s : Service) (error : string) :
  polling s →
  retryCount (state s) + 1 < maxRetries (config s) →
  0 < retryDelay (config s) ≤ 2147483647 →
  0 < currentInterval (state s) ≤ 2147483647 →
  Forall (λ tm, now s + retryDelay (config s) + currentInterval (state s) < due tm)
    (timers s) →
  let failed := fetchRejected error s in
  let waited := fireDue failed in
  let next := fireDue waited in
  isActive (state failed) = true ∧
  retryCount (state failed) = retryCount (state s) + 1 ∧
  trace failed = (trace s ++ [(now s, ConsoleError error)])%list ∧
  earliest PollingCycle (timers failed) = None ∧
  dueFirst (timers failed) =
    Some {| id := nextTimer s; due := now s + retryDelay (config s);
            task := RetryDelayElapsed |} ∧
  isActive (state waited) = true ∧
  now waited = now s + retryDelay (config s) ∧
  trace waited = trace failed ∧
  dueFirst (timers waited) =
    Some {| id := Pos.succ (nextTimer s);
            due := now s + retryDelay (config s) + currentInterval (state s);
            task := PollingCycle |} ∧
  isActive (state next) = true ∧
  now next = now s + retryDelay (config s) + currentInterval (state s) ∧
  trace next =
    (trace failed
     ++ [(now s + retryDelay (config s) + currentInterval (state s), FetchCalled)])%list.
Proof.
  intros Hp Hlt Hd Hi Hlater. cbn zeta.
  pose proof (fetchRejected_retry s error Hp Hlt) as Hfailed.
  pose proof (retryDelay_elapsed s error Hp Hlt) as Hwaited.
  pose proof (failedRound_retry s error Hp Hlt) as Hnext.
  unfold failedRound, run in Hnext. cbn [foldl step] in Hnext.
  rewrite (timerDelay_id (retryDelay (config s))) in Hfailed, Hwaited, Hnext by lia.
  rewrite (timerDelay_id (currentInterval (state s))) in Hwaited, Hnext by lia.
  replace (Z.max (now s) (now s + retryDelay (config s)))
    with (now s + retryDelay (config s)) in Hwaited, Hnext by lia.
  replace (Z.max (now s + retryDelay (config s))
             (now s + retryDelay (config s) + currentInterval (state s)))
    with (now s + retryDelay (config s) + currentInterval (state s)) in Hnext by lia.
  destruct Hp as (Hact & Hfetch & Hfl & Htimers).
  assert (∀ k, k ≠ UserInactive → Forall (λ tm, task tm ≠ k) (timers s)) as Hother.
  { intros k Hk. eapply Forall_impl; [exact Htimers|]. intros tm [-> _]. done. }
  assert (dueFirst (timers (fetchRejected error s)) =
            Some {| id := nextTimer s; due := now s + retryDelay (config s);
                    task := RetryDelayElapsed |}) as Hfirst.
  { rewrite Hfailed. cbn [timers]. apply dueFirst_snoc.
    eapply Forall_impl; [exact Hlater|]. cbn. intros tm ?. lia. }
  assert (earliest RetryDelayElapsed (timers (fetchRejected error s)) =
            Some {| id := nextTimer s; due := now s + retryDelay (config s);
                    task := RetryDelayElapsed |}) as Hretry.
  { rewrite Hfailed. cbn [timers].
    apply (earliest_snoc (timers s)
             {| id := nextTimer s; due := _; task := RetryDelayElapsed |}).
    by apply Hother. }
  assert (fireDue (fetchRejected error s) = fireNext RetryDelayElapsed (fetchRejected error s))
    as Hturn1.
  { unfold fireDue, fireNext. by rewrite Hfirst, Hretry. }
  rewrite Hturn1.
  assert (dueFirst (timers (fireNext RetryDelayElapsed (fetchRejected error s))) =
            Some {| id := Pos.succ (nextTimer s);
                    due := now s + retryDelay (config s) + currentInterval (state s);
                    task := PollingCycle |}) as Hsecond.
  { rewrite Hwaited. cbn [timers]. apply dueFirst_snoc.
    eapply Forall_impl; [exact Hlater|]. cbn. intros tm ?. lia. }
  assert (earliest PollingCycle (timers (fireNext RetryDelayElapsed (fetchRejected error s))) =
            Some {| id := Pos.succ (nextTimer s);
                    due := now s + retryDelay (config s) + currentInterval (state s);
                    task := PollingCycle |}) as Hcycle.
  { rewrite Hwaited. cbn [timers].
    apply (earliest_snoc (timers s)
             {| id := Pos.succ (nextTimer s); due := _; task := PollingCycle |}).
    by apply Hother. }
  assert (fireDue (fireNext RetryDelayElapsed (fetchRejected error s)) =
            fireNext PollingCycle (fireNext RetryDelayElapsed (fetchRejected error s)))
    as Hturn2.
  { unfold fireDue. rewrite Hsecond. symmetry. unfold fireNext at 1. by rewrite Hcycle. }
  rewrite Hturn2. rewrite Hsecond, Hfirst.
  rewrite Hnext, Hwaited, Hfailed. clear Hnext Hwaited Hfailed Hturn1 Hturn2.
  cbn [timers state isActive retryCount trace now set_retryCount set_lastError
       set_timerId set_lastFetchTime].
  rewrite earliest_none.
  2:{ apply Forall_app. split; [by apply Hother|].
      constructor; [cbn; congruence | constructor]. }
  rewrite <- app_assoc. split_and!; done.
Qed.

(** ** Starting, stopping and what is in flight *)

(** X8.  On a service that is not active, [start] and [resume] do the
    same: the service becomes active and the fetch function is called at
    once, before any interval has passed; on an active service neither
    changes anything.  The listener of the [online] event resumes the service
    whatever stopped it: a service that was never started, or was stopped or
    destroyed, polls again when the browser comes back online, since [destroy]
    removes no listener. *)
Theorem activation_fetches_at_once (s : Service) :
  fetchFunction (options s) = true →
  (isActive (state s) = true → start s = s ∧ resume s = s) ∧
  (isActive (state s) = false →
     start s = resume s ∧
     isActive (state (start s)) = true ∧
     lastFetchTime (state (start s)) = Some (now s) ∧
     inFlight (start s) = S (inFlight s) ∧
     timers (start s) = timers s ∧
     trace (start s) = (trace s ++ [(now s, FetchCalled)])%list ∧
     onOnline s = start (with_state (set_isOnline true) s)) ∧
  (isActive (state (stop s)) = false ∧ destroy s = stop s ∧
   isActive (state (onOnline (destroy s))) = true ∧
   inFlight (onOnline (destroy s)) = S (inFlight s) ∧
   trace (onOnline (destroy s)) = (trace s ++ [(now s, FetchCalled)])%list).
Proof.
  intros Hfetch.
  destruct s as [[ff os oe cfg] [a ci rc on vi ua t lf ls le] at' n tms nt fl tr].
  cbn in Hfetch. subst ff. split; [|split].
  - cbn. intros ->. done.
  - cbn. intros ->. unfold start, resume, onOnline. service_compute. done.
  - unfold destroy, onOnline, stop, resume. destruct t; service_compute; done.
Qed.

(** X9.  When the fetch of a cycle answers, the retry count is cleared,
    the time of the success is kept and the success callback is called with
    the data; the next cycle is armed [currentInterval] later, under the
    identifier that [timerId] then holds.  When nothing else happens
    meanwhile, which includes that no other timer comes due up to then, that
    timer is the next to fire and the fetch function is called again at that
    time.  The interval is one that a timer takes as it is, from 1 to
    2147483647 ms. *)
Theorem success_arms_next_cycle (s : Service) (data : Json.value) :
  polling s →
  0 < currentInterval (state s) ≤ 2147483647 →
  Forall (λ tm, now s + currentInterval (state s) < due tm) (timers s) →
  let answered := fetchResolved data None s in
  let next := fireDue answered in
  retryCount (state answered) = 0 ∧
  lastError (state answered) = None ∧
  lastSuccessTime (state answered) = Some (now s) ∧
  isActive (state answered) = true ∧
  inFlight answered = 0%nat ∧
  trace answered =
    (trace s ++ if onSuccess (options s) then [(now s, OnSuccess data)] else [])%list ∧
  timerId (state answered) = Some (nextTimer s) ∧
  timers answered =
    (timers s ++ [{| id := nextTimer s; due := now s + currentInterval (state s);
                     task := PollingCycle |}])%list ∧
  now next = now s + currentInterval (state s) ∧
  inFlight next = 1%nat ∧
  trace next =
    (trace answered ++ [(now s + currentInterval (state s), FetchCalled)])%list.
Proof.
  intros (Hact & Hfetch & Hfl & Htimers) Hci Hlater. cbn zeta.
  destruct s as [[ff os oe cfg] [a ci rc on vi ua t lf ls le] at' n tms nt fl tr].
  cbn in Hact, Hfetch, Hfl, Htimers, Hci, Hlater. subst a ff fl.
  assert (fetchResolved data None
            {| options := {| fetchFunction := true; onSuccess := os; onError := oe;
                             pollingConfig := cfg |};
               state := {| isActive := true; currentInterval := ci; retryCount := rc;
                           isOnline := on; isVisible := vi; isUserActive := ua;
                           timerId := t; lastFetchTime := lf; lastSuccessTime := ls;
                           lastError := le |};
               activityTimeout := at'; now := n; timers := tms; nextTimer := nt;
               inFlight := 1; trace := tr |} =
          {| options := {| fetchFunction := true; onSuccess := os; onError := oe;
                           pollingConfig := cfg |};
             state := {| isActive := true; currentInterval := ci; retryCount := 0;
                         isOnline := on; isVisible := vi; isUserActive := ua;
                         timerId := Some nt; lastFetchTime := lf;
                         lastSuccessTime := Some n; lastError := None |};
             activityTimeout := at'; now := n;
             timers := (tms ++ [{| id := nt; due := n + ci; task := PollingCycle |}])%list;
             nextTimer := Pos.succ nt; inFlight := 0;
             trace := (tr ++ if os then [(n, OnSuccess data)] else [])%list |}) as ->.
  { service_compute. rewrite timerDelay_id by lia. destruct os; [done|].
    by rewrite app_nil_r. }
  cbn [state options retryCount lastError lastSuccessTime isActive inFlight trace timerId
       timers now nextTimer currentInterval onSuccess].
  assert (dueFirst
            (tms ++ [{| id := nt; due := n + ci; task := PollingCycle |}])
          = Some {| id := nt; due := n + ci; task := PollingCycle |}) as Hnext.
  { apply dueFirst_snoc. eapply Forall_impl; [exact Hlater|]. cbn. intros tm ?. lia. }
  assert (Forall (λ tm, (id tm < nt)%positive) tms) as Hfresh.
  { eapply Forall_impl; [exact Htimers | by intros tm [_ ?]]. }
  split_and!; try done.
  all: unfold fireDue; cbn [timers]; rewrite Hnext; service_compute;
    rewrite ?(filter_id_snoc nt (n + ci) PollingCycle tms Hfresh);
    rewrite ?Z.max_r by lia; done.
Qed.

(** X10.  Pausing does not reach a fetch that is in flight.  When the
    fetch answers after [pause], the success callback is still called and the
    retry count cleared, and no further cycle is armed: the service stays
    paused.  When it fails after [pause], the failure is counted and kept as
    the last error as on an active service. *)
Theorem pause_leaves_the_fetch_in_flight (s : Service) (data : Json.value)
    (error : string) :
  inFlight s ≠ 0%nat →
  let paused := pause s in
  let answered := fetchResolved data None paused in
  let failed := fetchRejected error paused in
  inFlight paused = inFlight s ∧
  isActive (state answered) = false ∧
  timers answered = timers paused ∧
  retryCount (state answered) = 0 ∧
  trace answered =
    (trace s ++ if onSuccess (options s) then [(now s, OnSuccess data)] else [])%list ∧
  isActive (state failed) = false ∧
  retryCount (state failed) = retryCount (state s) + 1 ∧
  lastError (state failed) = Some error ∧
  Forall (λ tm, task tm ≠ PollingCycle ∨ tm ∈ timers s) (timers failed).
Proof.
  intros Hfl. cbn zeta.
  destruct s as [[ff os oe cfg] [a ci rc on vi ua t lf ls le] at' n tms nt fl tr].
  cbn in Hfl. destruct fl as [|fl]; [done|].
  assert (∀ l : list Timer, (∀ tm, tm ∈ l → tm ∈ tms) →
            Forall (λ tm, task tm ≠ PollingCycle ∨ tm ∈ tms) l) as Hsub.
  { intros l Hl. apply Forall_forall. intros tm Hin. right. by apply Hl. }
  assert (∀ (l : list Timer) d, (∀ tm, tm ∈ l → tm ∈ tms) →
            Forall (λ tm, task tm ≠ PollingCycle ∨ tm ∈ tms)
              (l ++ [{| id := nt; due := d; task := RetryDelayElapsed |}])) as Hsnoc.
  { intros l d Hl. apply Forall_app. split; [by apply Hsub|].
    constructor; [by left | constructor]. }
  destruct t as [t|], os; service_compute;
    destruct (maxRetries cfg <=? rc + 1); try destruct oe; service_compute;
    rewrite ?app_nil_r;
    (split_and!; [done..|]);
    first [apply Hsnoc | apply Hsub]; intros tm Hin;
    try (by apply list_elem_of_filter in Hin as [_ ?]); done.
Qed.

Lemma dueFirst_two (l : list Timer) (a b : Timer) :
  Forall (λ x, due a < due x) l → due a ≤ due b →
  dueFirst (l ++ [a; b])%list = Some a.
Proof.
  intros Hl Hle. induction Hl as [|x l Hlt _ IH]; simpl.
  - destruct (Z.ltb_spec (due b) (due a)) as [?|_]; [lia | done].
  - rewrite IH. by destruct (Z.ltb_spec (due a) (due x)); [|lia].
Qed.

Lemma filter_task_none (k : Task) (l : list Timer) :
  Forall (λ x, task x ≠ k) l → filter (λ tm, task tm = k) l = [].
Proof.
  induction 1 as [|x l Hne _ IH]; [done|]. by rewrite filter_cons_False.
Qed.

(** X11.  [restart] on a service whose fetch is in flight calls the
    fetch function a second time at once: two fetches are then in flight.
    When both have answered, two cycle timers are pending, both due
    [currentInterval] later; [timerId] names the second one only, so [pause]
    cancels that one and leaves the first pending.  When nothing else happens
    meanwhile, which includes that no other timer comes due up to then, the
    two are the next timers to fire, and the fetch function is called twice.
    The interval is one that a timer takes as it is, from 1 to
    2147483647 ms.  [restart] is what [adjustPollingInterval] runs when the
    interval of an active service changes. *)
Theorem restart_overlaps_the_fetch_in_flight (s : Service) (first second : Json.value) :
  polling s →
  0 < currentInterval (state s) ≤ 2147483647 →
  Forall (λ tm, now s + currentInterval (state s) < due tm) (timers s) →
  let restarted := restart s in
  let settled := fetchResolved second None (fetchResolved first None restarted) in
  let one := {| id := nextTimer s; due := now s + currentInterval (state s);
                task := PollingCycle |} in
  let other := {| id := Pos.succ (nextTimer s); due := now s + currentInterval (state s);
                  task := PollingCycle |} in
  isActive (state restarted) = true ∧
  inFlight restarted = 2%nat ∧
  trace restarted = (trace s ++ [(now s, FetchCalled)])%list ∧
  filter (λ tm, task tm = PollingCycle) (timers settled) = [one; other] ∧
  timerId (state settled) = Some (id other) ∧
  filter (λ tm, task tm = PollingCycle) (timers (pause settled)) = [one] ∧
  inFlight (fireDue (fireDue settled)) = 2%nat.
Proof.
  intros (Hact & Hfetch & Hfl & Htimers) Hci Hlater. cbn zeta.
  destruct s as [[ff os oe cfg] [a ci rc on vi ua t lf ls le] at' n tms nt fl tr].
  cbn in Hact, Hfetch, Hfl, Htimers, Hci, Hlater. subst a ff fl.
  cbn [nextTimer now state currentInterval trace].
  set (kept := match t with
               | Some t => filter (λ tm, id tm ≠ t) tms
               | None => tms
               end).
  set (one := {| id := nt; due := n + ci; task := PollingCycle |}).
  set (other := {| id := Pos.succ nt; due := n + ci; task := PollingCycle |}).
  assert (Forall (λ tm, task tm = UserInactive ∧ (id tm < nt)%positive) kept) as Hkept.
  { unfold kept. destruct t as [t|]; [|done].
    apply Forall_forall. intros tm [_ Hin]%list_elem_of_filter.
    rewrite Forall_forall in Htimers. by apply Htimers. }
  assert (Forall (λ tm, n + ci < due tm) kept) as Hdue.
  { unfold kept. destruct t as [t|]; [|done].
    apply Forall_forall. intros tm [_ Hin]%list_elem_of_filter.
    rewrite Forall_forall in Hlater. by apply Hlater. }
  assert (Forall (λ tm, task tm ≠ PollingCycle) kept) as Hnone.
  { eapply Forall_impl; [exact Hkept | by intros tm [-> _]]. }
  assert (Forall (λ tm, (id tm < nt)%positive) kept) as Hfresh.
  { eapply Forall_impl; [exact Hkept | by intros tm [_ ?]]. }
  assert (Forall (λ tm, (id tm < Pos.succ nt)%positive) kept) as Hfresh'.
  { eapply Forall_impl; [exact Hfresh | intros tm ?; simpl in *; lia]. }
  set (opts := {| fetchFunction := true; onSuccess := os; onError := oe;
                  pollingConfig := cfg |}).
  assert (restart
            {| options := opts;
               state := {| isActive := true; currentInterval := ci; retryCount := rc;
                           isOnline := on; isVisible := vi; isUserActive := ua;
                           timerId := t; lastFetchTime := lf; lastSuccessTime := ls;
                           lastError := le |};
               activityTimeout := at'; now := n; timers := tms; nextTimer := nt;
               inFlight := 1; trace := tr |} =
          {| options := opts;
             state := {| isActive := true; currentInterval := ci; retryCount := rc;
                         isOnline := on; isVisible := vi; isUserActive := ua;
                         timerId := None; lastFetchTime := Some n;
                         lastSuccessTime := ls; lastError := le |};
             activityTimeout := at'; now := n; timers := kept; nextTimer := nt;
             inFlight := 2; trace := (tr ++ [(n, FetchCalled)])%list |}) as ->.
  { unfold restart, resume, kept, opts. destruct t; service_compute; done. }
  set (tr2 := (((tr ++ [(n, FetchCalled)])
                ++ (if os then [(n, OnSuccess first)] else []))
               ++ (if os then [(n, OnSuccess second)] else []))%list).
  assert (fetchResolved second None
            (fetchResolved first None
               {| options := opts;
                  state := {| isActive := true; currentInterval := ci; retryCount := rc;
                              isOnline := on; isVisible := vi; isUserActive := ua;
                              timerId := None; lastFetchTime := Some n;
                              lastSuccessTime := ls; lastError := le |};
                  activityTimeout := at'; now := n; timers := kept; nextTimer := nt;
                  inFlight := 2; trace := (tr ++ [(n, FetchCalled)])%list |}) =
          {| options := opts;
             state := {| isActive := true; currentInterval := ci; retryCount := 0;
                         isOnline := on; isVisible := vi; isUserActive := ua;
                         timerId := Some (Pos.succ nt); lastFetchTime := Some n;
                         lastSuccessTime := Some n; lastError := None |};
             activityTimeout := at'; now := n;
             timers := (kept ++ [one; other])%list;
             nextTimer := Pos.succ (Pos.succ nt);
             inFlight := 0; trace := tr2 |}) as ->.
  { unfold opts, tr2, one, other. destruct os; service_compute;
      rewrite !timerDelay_id by lia; rewrite <- (app_assoc kept), ?app_nil_r; done. }
  cbn [state isActive inFlight trace timers timerId id].
  split_and!; try done.
  - rewrite filter_app, (filter_task_none PollingCycle kept Hnone). done.
  - unfold pause, clearTimeout, with_timers, with_state.
    cbn [state timerId set_isActive set_timerId timers].
    rewrite !filter_app, (filter_id_fresh _ kept Hfresh').
    rewrite (filter_task_none PollingCycle kept Hnone).
    rewrite (filter_cons_True _ one) by (simpl; lia).
    rewrite (filter_cons_False _ other) by (simpl; tauto). done.
  - unfold fireDue at 2. cbn [timers].
    rewrite (dueFirst_two kept one other) by (done || simpl; lia).
    assert (fire one
              {| options := opts;
                 state := {| isActive := true; currentInterval := ci; retryCount := 0;
                             isOnline := on; isVisible := vi; isUserActive := ua;
                             timerId := Some (Pos.succ nt); lastFetchTime := Some n;
                             lastSuccessTime := Some n; lastError := None |};
                 activityTimeout := at'; now := n;
                 timers := (kept ++ [one; other])%list;
                 nextTimer := Pos.succ (Pos.succ nt);
                 inFlight := 0; trace := tr2 |} =
            {| options := opts;
               state := {| isActive := true; currentInterval := ci; retryCount := 0;
                           isOnline := on; isVisible := vi; isUserActive := ua;
                           timerId := Some (Pos.succ nt);
                           lastFetchTime := Some (Z.max n (n + ci));
                           lastSuccessTime := Some n; lastError := None |};
               activityTimeout := at'; now := Z.max n (n + ci);
               timers := (kept ++ [other])%list;
               nextTimer := Pos.succ (Pos.succ nt);
               inFlight := 1;
               trace := (tr2 ++ [(Z.max n (n + ci), FetchCalled)])%list |}) as ->.
    { assert (filter (λ tm, id tm ≠ nt) (kept ++ [one; other])%list
              = (kept ++ [other])%list) as Hfired.
      { rewrite filter_app, (filter_id_fresh _ kept Hfresh).
        rewrite filter_cons_False by (simpl; tauto).
        rewrite filter_cons_True by (simpl; lia). done. }
      unfold fire, clearTimeout, with_timers. cbn [id one timers]. rewrite Hfired.
      unfold opts, one, other. service_compute. done. }
    assert (dueFirst (kept ++ [other]) = Some other) as Hother
      by exact (dueFirst_snoc kept other Hdue).
    unfold fireDue. cbn [timers]. rewrite Hother.
    unfold opts, other. service_compute. done.
Qed.

(** X12.  A manual fetch leaves the polling cycle alone: whatever it
    answers, the state of the service (the retry count, the last error and the
    times among it), the pending timers and the fetch of the cycle in flight
    are as before.  It calls the fetch function at once when one is
    configured and fails at once when none is; when the fetch answers, the
    success callback is called and the data is the answer; when it fails, the
    error callback is called with the reason [manual_fetch_failed] and the
    error is thrown again. *)
Theorem manualFetch_leaves_the_cycle_alone (s : Service) (data : Json.value)
    (error : string) :
  let called := manualFetch s in
  let answered := manualFetchResolved data None s in
  let failed := manualFetchRejected error s in
  let told (text : string) : list (Z * Effect) :=
    if onError (options s) then [(now s, OnError text "manual_fetch_failed")] else [] in
  (state called.2 = state s ∧ timers called.2 = timers s ∧
   inFlight called.2 = inFlight s ∧ options called.2 = options s) ∧
  (fetchFunction (options s) = true →
     called.1 = None ∧ trace called.2 = (trace s ++ [(now s, FetchCalled)])%list) ∧
  (fetchFunction (options s) = false →
     called.1 = Some (Js.Thrown "fetchFunction未配置") ∧
     trace called.2 = (trace s ++ told "fetchFunction未配置")%list) ∧
  (answered.1 = Js.Ok data ∧ state answered.2 = state s ∧
   timers answered.2 = timers s ∧ inFlight answered.2 = inFlight s ∧
   trace answered.2 =
     (trace s ++ if onSuccess (options s) then [(now s, OnSuccess data)] else [])%list) ∧
  (failed.1 = Js.Thrown error ∧ state failed.2 = state s ∧
   timers failed.2 = timers s ∧ inFlight failed.2 = inFlight s ∧
   trace failed.2 = (trace s ++ told error)%list).
Proof.
  cbn zeta. unfold manualFetch, manualFetchResolved, manualFetchRejected, manualFetchFailed.
  destruct s as [[ff os oe cfg] st at' n tms nt fl tr]. cbn.
  destruct ff, os, oe; cbn; rewrite ?app_nil_r; split_and!; done.
Qed.

(** The interval that the signals of a service call for. *)
Definition wanted (s : Service) : Z :=
  if negb (isOnline (state s)) then backgroundInterval (config s) * 2
  else if negb (isVisible (state s)) then backgroundInterval (config s)
  else if isUserActive (state s) then activeInterval (config s)
  else normalInterval (config s).

(** On a service that is not active [adjustPollingInterval] sets the
    interval and does nothing else. *)
Lemma adjustPollingInterval_inactive (s : Service) :
  isActive (state s) = false →
  adjustPollingInterval s = with_state (set_currentInterval (wanted s)) s.
Proof.
  intros Hact. unfold adjustPollingInterval. cbv zeta. fold (wanted s).
  destruct s as [o [a ci rc on vi ua t lf ls le] at' n tms nt fl tr].
  cbn in Hact. subst a. cbn [state currentInterval with_state set_currentInterval isActive].
  destruct (Z.eqb_spec (wanted {| options := o;
                                  state := {| isActive := false; currentInterval := ci;
                                              retryCount := rc; isOnline := on;
                                              isVisible := vi; isUserActive := ua;
                                              timerId := t; lastFetchTime := lf;
                                              lastSuccessTime := ls; lastError := le |};
                                  activityTimeout := at'; now := n; timers := tms;
                                  nextTimer := nt; inFlight := fl; trace := tr |}) ci)
    as [Heq|Hne]; cbn [negb]; [|done].
  unfold with_state, set_currentInterval. cbn. by rewrite Heq.
Qed.

Lemma orDefault_spec (x : option Z) (d : Z) :
  d ≠ 0 →
  orDefault x d ≠ 0 ∧
  (x = None ∨ x = Some 0 → orDefault x d = d) ∧
  (∀ v, x = Some v → v ≠ 0 → orDefault x d = v).
Proof.
  intros Hd. unfold orDefault. destruct x as [v|].
  - destruct (Z.eqb_spec v 0) as [->|Hv].
    + split_and!; [done | done | by intros ? [= <-]].
    + split_and!; [done | by intros [?|[= ->]] | by intros ? [= <-]].
  - split_and!; [done | done | done].
Qed.

(** X13.  The constructor takes a given interval, delay or retry bound
    that is missing or zero for its default (30 s, 10 s, 60 s, 5 s and 3) and
    keeps any other, so none of the five is zero.  The service it builds is
    not active and has called nothing; its interval follows the precedence of
    its signals, and one inactivity timer is pending, due a minute after the
    construction. *)
Theorem constructor_defaults (fetch success error : bool) (c : ConfigInput)
    (online hidden : bool) (clock : Z) :
  let s := constructor fetch success error c online hidden clock in
  config s =
    {| normalInterval := orDefault (given_normalInterval c) 30000;
       activeInterval := orDefault (given_activeInterval c) 10000;
       backgroundInterval := orDefault (given_backgroundInterval c) 60000;
       retryDelay := orDefault (given_retryDelay c) 5000;
       maxRetries := orDefault (given_maxRetries c) 3 |} ∧
  (∀ x d, d ≠ 0 →
     orDefault x d ≠ 0 ∧
     (x = None ∨ x = Some 0 → orDefault x d = d) ∧
     (∀ v, x = Some v → v ≠ 0 → orDefault x d = v)) ∧
  (normalInterval (config s) ≠ 0 ∧ activeInterval (config s) ≠ 0 ∧
   backgroundInterval (config s) ≠ 0 ∧ retryDelay (config s) ≠ 0 ∧
   maxRetries (config s) ≠ 0) ∧
  isActive (state s) = false ∧ retryCount (state s) = 0 ∧
  timerId (state s) = None ∧ inFlight s = 0%nat ∧ trace s = [] ∧
  isOnline (state s) = online ∧ isVisible (state s) = negb hidden ∧
  isUserActive (state s) = true ∧
  follows_precedence s ∧
  timers s = [{| id := 1%positive; due := clock + 60000; task := UserInactive |}] ∧
  activityTimeout s = Some 1%positive.
Proof.
  cbn zeta.
  pose proof (constructor_precedence fetch success error c online hidden clock) as Hprec.
  revert Hprec. unfold constructor. cbv zeta.
  set (cfg := {| normalInterval := orDefault (given_normalInterval c) 30000;
                 activeInterval := orDefault (given_activeInterval c) 10000;
                 backgroundInterval := orDefault (given_backgroundInterval c) 60000;
                 retryDelay := orDefault (given_retryDelay c) 5000;
                 maxRetries := orDefault (given_maxRetries c) 3 |}).
  set (s0 := {| options := _; state := _; activityTimeout := None; now := clock;
                timers := []; nextTimer := 1%positive; inFlight := 0%nat;
                trace := [] |}).
  unfold handleUserActive. cbv zeta.
  rewrite (adjustPollingInterval_inactive (with_state (set_isUserActive true) s0)) by done.
  set (w1 := wanted (with_state (set_isUserActive true) s0)).
  cbn [activityTimeout with_state s0].
  match goal with
  | |- context [adjustPollingInterval ?x] =>
      rewrite (adjustPollingInterval_inactive x) by done;
      set (w2 := wanted x)
  end.
  intros Hprec.
  split_and!; try done; try (by apply orDefault_spec).
Qed.

(** ** The inactivity timeout *)

(** The timers of a service are in order: their identifiers are
    different, all below the next one to be handed out, and a pending
    inactivity timer is the one that [activityTimeout] names. *)
Definition scheduled (s : Service) : Prop :=
  Forall (λ tm, (id tm < nextTimer s)%positive) (timers s) ∧
  NoDup (id <$> timers s) ∧
  ∀ tm, tm ∈ timers s → task tm = UserInactive → activityTimeout s = Some (id tm).

Lemma scheduled_same (s s' : Service) :
  activityTimeout s' = activityTimeout s → timers s' = timers s →
  nextTimer s' = nextTimer s → scheduled s → scheduled s'.
Proof. unfold scheduled. by intros -> -> ->. Qed.

Lemma scheduled_with_state (f : State → State) (s : Service) :
  scheduled s → scheduled (with_state f s).
Proof. by apply scheduled_same. Qed.

Lemma scheduled_with_options (o : Options) (s : Service) :
  scheduled s → scheduled (with_options o s).
Proof. by apply scheduled_same. Qed.

Lemma scheduled_with_now (t : Z) (s : Service) :
  scheduled s → scheduled (with_now t s).
Proof. by apply scheduled_same. Qed.

Lemma scheduled_with_inFlight (n : nat) (s : Service) :
  scheduled s → scheduled (with_inFlight n s).
Proof. by apply scheduled_same. Qed.

Lemma scheduled_emit (e : Effect) (s : Service) :
  scheduled s → scheduled (emit e s).
Proof. by apply scheduled_same. Qed.

Lemma filter_ids_NoDup (P : Timer → Prop) `{∀ tm, Decision (P tm)} (l : list Timer) :
  NoDup (id <$> l) → NoDup (id <$> filter P l).
Proof.
  intros Hnd. apply (sublist_NoDup _ (id <$> l)); [done|].
  apply fmap_sublist, sublist_filter.
Qed.

Lemma scheduled_clearTimeout (t : positive) (s : Service) :
  scheduled s → scheduled (clearTimeout t s).
Proof.
  intros (Hlt & Hnd & Hone). unfold scheduled, clearTimeout, with_timers.
  cbn [timers nextTimer activityTimeout]. split_and!.
  - apply Forall_forall. intros tm [_ Hin]%list_elem_of_filter.
    rewrite Forall_forall in Hlt. by apply Hlt.
  - by apply filter_ids_NoDup.
  - intros tm [_ Hin]%list_elem_of_filter. by apply Hone.
Qed.

Lemma scheduled_setTimeout (k : Task) (ms : Z) (s : Service) :
  k ≠ UserInactive → scheduled s → scheduled (setTimeout k ms s).
Proof.
  intros Hk (Hlt & Hnd & Hone). unfold scheduled, setTimeout.
  cbn [timers nextTimer activityTimeout]. split_and!.
  - apply Forall_app. split.
    + eapply Forall_impl; [exact Hlt | intros tm ?; simpl in *; lia].
    + constructor; [simpl; lia | constructor].
  - rewrite fmap_app. apply NoDup_app. split_and!; [done | | apply NoDup_singleton].
    intros x [tm [-> Hin]]%list_elem_of_fmap Hx. cbn in Hx.
    apply list_elem_of_singleton in Hx.
    rewrite Forall_forall in Hlt. specialize (Hlt tm Hin). simpl in Hlt. lia.
  - intros tm [Hin| ->%list_elem_of_singleton]%elem_of_app; [by apply Hone | done].
Qed.

(** Goes through a function built from the updates above. *)
Ltac scheduled_steps :=
  repeat first
    [ assumption
    | apply scheduled_with_state
    | apply scheduled_with_options
    | apply scheduled_with_now
    | apply scheduled_with_inFlight
    | apply scheduled_emit
    | apply scheduled_clearTimeout
    | apply scheduled_setTimeout; [discriminate|]
    | match goal with
      | |- scheduled (if ?b then _ else _) => destruct b
      | |- scheduled (match ?x with _ => _ end) => destruct x
      end ].

Lemma scheduled_pause (s : Service) : scheduled s → scheduled (pause s).
Proof. intros H. unfold pause. cbv zeta. scheduled_steps. Qed.

Lemma scheduled_finallyBlock (s : Service) : scheduled s → scheduled (finallyBlock s).
Proof. intros H. unfold finallyBlock. scheduled_steps. Qed.

Lemma scheduled_handleError (error : string) (s : Service) :
  scheduled s → scheduled (handleError error s).2.
Proof.
  intros H. unfold handleError. cbv zeta.
  destruct (_ <=? _); cbn [snd]; [|scheduled_steps].
  assert (∀ s', scheduled s' →
            scheduled (if onError (options (pause s'))
                       then emit (OnError error "max_retries_exceeded") (pause s')
                       else pause s')) as Hp.
  { intros s' Hs'. destruct (onError _); [apply scheduled_emit|]; by apply scheduled_pause. }
  apply Hp. scheduled_steps.
Qed.

Lemma scheduled_cycleFailed (error : string) (s : Service) :
  scheduled s → scheduled (cycleFailed error s).
Proof.
  intros H. unfold cycleFailed. cbv zeta.
  pose proof (scheduled_handleError error (emit (ConsoleError error) s)
                (scheduled_emit _ _ H)) as Hh.
  destruct (handleError error (emit (ConsoleError error) s)) as [[] s']; cbn [snd] in Hh;
    [by apply scheduled_finallyBlock | done].
Qed.

Lemma scheduled_executePollingCycle (s : Service) :
  scheduled s → scheduled (executePollingCycle s).
Proof.
  intros H. unfold executePollingCycle. cbv zeta.
  destruct (negb _); [done|]. destruct (fetchFunction _).
  - scheduled_steps.
  - apply scheduled_cycleFailed. scheduled_steps.
Qed.

Lemma scheduled_resume (s : Service) : scheduled s → scheduled (resume s).
Proof.
  intros H. unfold resume. destruct (negb _); [|done].
  apply scheduled_executePollingCycle. scheduled_steps.
Qed.

Lemma scheduled_adjustPollingInterval (s : Service) :
  scheduled s → scheduled (adjustPollingInterval s).
Proof.
  intros H. unfold adjustPollingInterval. cbv zeta.
  destruct (negb (_ =? _)); [|done].
  destruct (isActive _); [|scheduled_steps].
  unfold restart. apply scheduled_resume, scheduled_pause. scheduled_steps.
Qed.

Lemma scheduled_fetchResolved (data : Json.value) (thrown : option string) (s : Service) :
  scheduled s → scheduled (fetchResolved data thrown s).
Proof.
  intros H. unfold fetchResolved. destruct (inFlight s); [done|]. cbv zeta.
  destruct (onSuccess _); [destruct thrown|];
    first [apply scheduled_cycleFailed | apply scheduled_finallyBlock]; scheduled_steps.
Qed.

Lemma scheduled_fetchRejected (error : string) (s : Service) :
  scheduled s → scheduled (fetchRejected error s).
Proof.
  intros H. unfold fetchRejected. destruct (inFlight s); [done|].
  apply scheduled_cycleFailed. scheduled_steps.
Qed.

(** After [handleUserActive] one inactivity timer is pending: the one it
    has just armed. *)
Lemma handleUserActive_arms_one (s : Service) :
  scheduled s →
  let s1 := adjustPollingInterval (with_state (set_isUserActive true) s) in
  scheduled (handleUserActive s) ∧
  activityTimeout (handleUserActive s) = Some (nextTimer s1) ∧
  filter (λ tm, task tm = UserInactive) (timers (handleUserActive s)) =
    [{| id := nextTimer s1; due := now s1 + 60000; task := UserInactive |}].
Proof.
  intros H. cbn zeta. unfold handleUserActive. cbv zeta.
  set (s1 := adjustPollingInterval (with_state (set_isUserActive true) s)).
  assert (scheduled s1) as H1.
  { apply scheduled_adjustPollingInterval. scheduled_steps. }
  set (s2 := match activityTimeout s1 with
             | Some t => clearTimeout t s1
             | None => s1
             end).
  assert (scheduled s2 ∧ nextTimer s2 = nextTimer s1 ∧ now s2 = now s1 ∧
          Forall (λ tm, task tm ≠ UserInactive) (timers s2)) as (H2 & Hnt & Hnow & Hnone).
  { unfold s2. pose proof H1 as (Hlt & Hnd & Hone).
    destruct (activityTimeout s1) as [t|] eqn:Ht.
    - split_and!; [by apply scheduled_clearTimeout | done | done |].
      apply Forall_forall. intros tm [Hid Hin]%list_elem_of_filter Htask.
      specialize (Hone tm Hin Htask). congruence.
    - split_and!; [done..|].
      apply Forall_forall. intros tm Hin Htask. specialize (Hone tm Hin Htask). congruence. }
  rewrite <- Hnt, <- Hnow. destruct H2 as (Hlt & Hnd & Hone).
  unfold setTimeout, with_activityTimeout, scheduled.
  cbn [timers nextTimer activityTimeout now]. split_and!.
  - apply Forall_app. split.
    + eapply Forall_impl; [exact Hlt | intros tm ?; simpl in *; lia].
    + constructor; [simpl; lia | constructor].
  - rewrite fmap_app. apply NoDup_app. split_and!; [done | | apply NoDup_singleton].
    intros x [tm [-> Hin]]%list_elem_of_fmap Hx. cbn in Hx.
    apply list_elem_of_singleton in Hx.
    rewrite Forall_forall in Hlt. specialize (Hlt tm Hin). simpl in Hlt. lia.
  - intros tm [Hin| ->%list_elem_of_singleton]%elem_of_app; [|done].
    intros Htask. rewrite Forall_forall in Hnone. by destruct (Hnone tm Hin).
  - done.
  - rewrite filter_app, (filter_task_none UserInactive _ Hnone). done.
Qed.

Lemma scheduled_fire (tm : Timer) (s : Service) : scheduled s → scheduled (fire tm s).
Proof.
  intros H. unfold fire. cbv zeta.
  assert (scheduled (with_now (Z.max (now s) (due tm)) (clearTimeout (id tm) s))) as H'
    by scheduled_steps.
  destruct (task tm).
  - by apply scheduled_executePollingCycle.
  - by apply scheduled_finallyBlock.
  - unfold userInactive. apply scheduled_adjustPollingInterval. scheduled_steps.
Qed.

Lemma scheduled_step (e : Event) (s : Service) : scheduled s → scheduled (step s e).
Proof.
  intros H. destruct e; cbn [step].
  - unfold start. destruct (isActive _); [done|].
    apply scheduled_executePollingCycle. scheduled_steps.
  - by apply scheduled_pause.
  - by apply scheduled_resume.
  - by apply scheduled_resume, scheduled_pause.
  - unfold stop. cbv zeta. do 2 apply scheduled_with_state. by apply scheduled_pause.
  - unfold onOnline. apply scheduled_resume. scheduled_steps.
  - unfold onOffline. apply scheduled_pause. scheduled_steps.
  - unfold onVisibilityChange. apply scheduled_adjustPollingInterval. scheduled_steps.
  - by apply handleUserActive_arms_one.
  - unfold updateConfig. cbv zeta. apply scheduled_adjustPollingInterval. scheduled_steps.
  - scheduled_steps.
  - unfold fireNext. destruct (earliest _ _); [by apply scheduled_fire | done].
  - by apply scheduled_fetchResolved.
  - by apply scheduled_fetchRejected.
Qed.

Lemma scheduled_run (events : list Event) (s : Service) :
  scheduled s → scheduled (run s events).
Proof.
  revert s. induction events as [|e events IH]; intros s H; [done|].
  cbn [run foldl]. apply IH. by apply scheduled_step.
Qed.

Lemma scheduled_one (s : Service) :
  scheduled s → (length (filter (λ tm, task tm = UserInactive) (timers s)) ≤ 1)%nat.
Proof.
  intros (_ & Hnd & Hone).
  assert (∀ tm, tm ∈ filter (λ tm, task tm = UserInactive) (timers s) →
            activityTimeout s = Some (id tm)) as Hall.
  { intros tm [Htask Hin]%list_elem_of_filter. by apply Hone. }
  assert (NoDup (id <$> filter (λ tm, task tm = UserInactive) (timers s))) as Hnd'
    by (by apply filter_ids_NoDup).
  destruct (filter _ (timers s)) as [|x [|y l]]; [simpl; lia..|].
  exfalso. assert (id x = id y) as Hxy.
  { assert (Some (id x) = Some (id y)) as [=]; [|done].
    rewrite <- (Hall x), <- (Hall y); [done | right; left | left]. }
  cbn in Hnd'. apply NoDup_cons in Hnd' as [Hx _]. apply Hx. rewrite Hxy. left.
Qed.

Lemma constructor_scheduled (fetch success error : bool) (c : ConfigInput)
    (online hidden : bool) (clock : Z) :
  scheduled (constructor fetch success error c online hidden clock).
Proof.
  unfold constructor. cbv zeta. apply scheduled_adjustPollingInterval.
  apply handleUserActive_arms_one. split_and!; [constructor | constructor |].
  intros tm Hin. by apply elem_of_nil in Hin.
Qed.

Lemma now_pause (s : Service) : now (pause s) = now s.
Proof. unfold pause. cbv zeta. by destruct (timerId _). Qed.

Lemma now_finallyBlock (s : Service) : now (finallyBlock s) = now s.
Proof. unfold finallyBlock. by destruct (isActive _). Qed.

Lemma now_handleError (error : string) (s : Service) :
  now (handleError error s).2 = now s.
Proof.
  unfold handleError. cbv zeta. destruct (_ <=? _); cbn [snd]; [|done].
  destruct (onError _); cbn [emit now]; by rewrite now_pause.
Qed.

Lemma now_cycleFailed (error : string) (s : Service) :
  now (cycleFailed error s) = now s.
Proof.
  unfold cycleFailed. cbv zeta.
  pose proof (now_handleError error (emit (ConsoleError error) s)) as Hh.
  destruct (handleError error (emit (ConsoleError error) s)) as [[] s']; cbn [snd] in Hh;
    [by rewrite now_finallyBlock | done].
Qed.

Lemma now_executePollingCycle (s : Service) : now (executePollingCycle s) = now s.
Proof.
  unfold executePollingCycle. cbv zeta. destruct (negb _); [done|].
  destruct (fetchFunction _); [done|]. by rewrite now_cycleFailed.
Qed.

Lemma now_resume (s : Service) : now (resume s) = now s.
Proof.
  unfold resume. destruct (negb _); [|done]. by rewrite now_executePollingCycle.
Qed.

Lemma now_adjustPollingInterval (s : Service) : now (adjustPollingInterval s) = now s.
Proof.
  unfold adjustPollingInterval. cbv zeta. destruct (negb (_ =? _)); [|done].
  destruct (isActive _); [|done]. unfold restart. by rewrite now_resume, now_pause.
Qed.

Lemma handleUserActive_state (s : Service) :
  state (handleUserActive s) =
    state (adjustPollingInterval (with_state (set_isUserActive true) s)).
Proof. unfold handleUserActive. cbv zeta. by destruct (activityTimeout _). Qed.

(** X14.  The inactivity timeout is debounced.  Whatever has happened
    to a service since its construction, at most one inactivity timer is
    pending; and when the user is active again the timers armed before are
    gone and the one pending is the one just armed, due a minute after this
    activity, so the user counts as inactive a minute after the last
    activity and not earlier. *)
Theorem inactivity_timeout_is_debounced (fetch success error : bool) (c : ConfigInput)
    (online hidden : bool) (clock : Z) (events : list Event) :
  let s := run (constructor fetch success error c online hidden clock) events in
  (length (filter (λ tm, task tm = UserInactive) (timers s)) ≤ 1)%nat ∧
  ∃ t, activityTimeout (handleUserActive s) = Some t ∧
       filter (λ tm, task tm = UserInactive) (timers (handleUserActive s)) =
         [{| id := t; due := now s + 60000; task := UserInactive |}] ∧
       isUserActive (state (handleUserActive s)) = true.
Proof.
  cbn zeta.
  set (s := run (constructor fetch success error c online hidden clock) events).
  assert (scheduled s) as H by apply scheduled_run, constructor_scheduled.
  split; [by apply scheduled_one|].
  destruct (handleUserActive_arms_one s H) as (_ & Ht & Hone). cbn zeta in Ht, Hone.
  eexists. split; [exact Ht|]. split.
  - rewrite Hone. by rewrite now_adjustPollingInterval.
  - rewrite handleUserActive_state.
    by destruct (adjustPollingInterval_sets (with_state (set_isUserActive true) s))
      as (_ & _ & _ & _ & ->).
Qed.

End PollingServiceFacts.

(** * Properties of the cache manager *)

Section CacheManagerFacts.
Import Js CacheManager.

(** A computation that answers on every manager: it never throws. *)
Definition answers {A : Type} (c : M A) : Prop :=
  ∀ m, ∃ a, (c m).1 = Ok a.

(** A computation that takes every manager to one related to it. *)
Definition preserves {A : Type} (R : relation Manager) (c : M A) : Prop :=
  ∀ m, R m (c m).2.

(** The options are the same. *)
Definition same_options : relation Manager :=
  λ m m', options m' = options m.

(** The options, the connection to the store and the initialisation are
    the same. *)
Definition same_setup : relation Manager :=
  λ m m', options m' = options m ∧
          indexedDB (state m') = indexedDB (state m) ∧
          isInitialized (state m') = isInitialized (state m).

Global Instance same_options_preorder : PreOrder same_options.
Proof. split; [by intros m | intros m1 m2 m3; unfold same_options; congruence]. Qed.

Global Instance same_setup_preorder : PreOrder same_setup.
Proof.
  split; [by intros m|].
  intros m1 m2 m3 (? & ? & ?) (? & ? & ?). unfold same_setup. split_and!; congruence.
Qed.

Lemma answers_ret {A : Type} (a : A) : answers (ret a).
Proof. intros m. by exists a. Qed.

Lemma answers_read {A : Type} (f : Manager → A) : answers (read f).
Proof. intros m. by eexists. Qed.

Lemma answers_modify_state (f : State → State) : answers (modify_state f).
Proof. intros m. by eexists. Qed.

Lemma answers_bind {A B : Type} (c : M A) (k : A → M B) :
  answers c → (∀ a, answers (k a)) → answers (bind c k).
Proof.
  intros Hc Hk m. unfold bind. destruct (Hc m) as [a Ha].
  destruct (c m) as [[a'|e] m']; simpl in Ha; [|done].
  apply Hk.
Qed.

Lemma answers_try_catch {A : Type} (c : M A) (handler : string → M A) :
  (∀ e, answers (handler e)) → answers (try_catch c handler).
Proof.
  intros Hh m. unfold try_catch. destruct (c m) as [[a|e] m']; [by exists a|].
  apply Hh.
Qed.

Section Preserves.
Context (R : relation Manager) `{!PreOrder R}.

Lemma preserves_ret {A : Type} (a : A) : preserves R (ret a).
Proof. intros m. simpl. reflexivity. Qed.

Lemma preserves_throw {A : Type} (e : string) : preserves R (throw (A:=A) e).
Proof. intros m. simpl. reflexivity. Qed.

Lemma preserves_read {A : Type} (f : Manager → A) : preserves R (read f).
Proof. intros m. simpl. reflexivity. Qed.

Lemma preserves_bind {A B : Type} (c : M A) (k : A → M B) :
  preserves R c → (∀ a, preserves R (k a)) → preserves R (bind c k).
Proof.
  intros Hc Hk m. unfold bind. specialize (Hc m).
  destruct (c m) as [[a|e] m']; simpl in *; [|done].
  etrans; [exact Hc | apply Hk].
Qed.

Lemma preserves_try_catch {A : Type} (c : M A) (handler : string → M A) :
  preserves R c → (∀ e, preserves R (handler e)) → preserves R (try_catch c handler).
Proof.
  intros Hc Hh m. unfold try_catch. specialize (Hc m).
  destruct (c m) as [[a|e] m']; simpl in *; [done|].
  etrans; [exact Hc | apply Hh].
Qed.

Lemma preserves_when (b : bool) (c : M unit) : preserves R c → preserves R (when b c).
Proof. destruct b; [done | intros _; apply preserves_ret]. Qed.

End Preserves.

(** Goes through a computation built from the pieces above; the changes
    of the state and of the browser are looked at one by one. *)
Ltac preserves_steps :=
  repeat first
    [ apply preserves_ret; tc_solve
    | apply preserves_throw; tc_solve
    | apply preserves_read; tc_solve
    | apply preserves_when; [tc_solve|]
    | apply preserves_bind; [tc_solve| |intros ?]
    | apply preserves_try_catch; [tc_solve| |intros ?]
    | match goal with
      | |- preserves _ (modify_state _) => by intros []
      | |- preserves _ (modify_browser _) => by intros []
      | |- preserves _ (if ?b then _ else _) => destruct b
      | |- preserves _ (match ?x with _ => _ end) => destruct x
      end ].

Lemma preserves_makeSpace (faults : Faults) (now requiredSize : Z) :
  preserves same_setup (makeSpace faults now requiredSize).
Proof.
  unfold makeSpace, cleanupExpiredCache, cleanupLowPriorityItems, cleanupOldestItems,
    deleteWhere, index, subtract, set_records.
  preserves_steps.
Qed.

Lemma preserves_ensureInitialized (faults : Faults) :
  preserves same_options (ensureInitialized faults).
Proof.
  unfold ensureInitialized, init, initIndexedDB, initServiceWorkerCache,
    calculateCacheSize, setupCleanupInterval.
  preserves_steps.
Qed.

(** Unfolds the monad and the accessors on a manager given field by
    field. *)
Ltac manager_compute :=
  cbv beta iota zeta delta
    [bind ret throw try_catch read modify_state modify_browser when
     ensureInitialized isStorageFull storeInIndexedDB getFromIndexedDB
     updateLastAccessed storeInServiceWorkerCache set_records stored
     set_isInitialized set_sizes set_lastCleanup set_memoryCache set_indexedDB
     set_database set_cacheStorage set_cleanupTimers
     options state browser isInitialized currentSize itemCount lastCleanup
     memoryCache indexedDB hasIndexedDB hasServiceWorker database cacheStorage
     cleanupTimers records indexes enableMemoryCache enableIndexedDB
     enableServiceWorker maxSizeMB defaultTTL fst snd negb andb orb] in *.

Lemma init_answers (faults : Faults) (m : Manager) :
  ∃ m', init faults m = (Ok tt, m').
Proof.
  unfold init, try_catch. destruct (bind _ _ m) as [[[]|e] m']; by eexists.
Qed.

Lemma ensureInitialized_answers (faults : Faults) (m : Manager) :
  ∃ m', ensureInitialized faults m = (Ok tt, m').
Proof.
  unfold ensureInitialized, bind, read, when.
  destruct (negb (isInitialized (state m))); [apply init_answers | by eexists].
Qed.

Lemma ensureInitialized_ready (faults : Faults) (m : Manager) :
  isInitialized (state m) = true → ensureInitialized faults m = (Ok tt, m).
Proof. intros H. unfold ensureInitialized, bind, read, when. by rewrite H. Qed.

(** The look of [get] in the memory map finds nothing it can use. *)
Definition memoryMiss (now : Z) (k : string) (m : Manager) : Prop :=
  enableMemoryCache (options m) = false ∨
  memoryCache (state m) !! k = None ∨
  ∃ item, memoryCache (state m) !! k = Some item ∧ isExpired now item = true.

Lemma get_memory_hit (faults : Faults) (now : Z) (k : string) (m : Manager)
    (item : CacheItem) :
  isInitialized (state m) = true →
  enableMemoryCache (options m) = true →
  memoryCache (state m) !! k = Some item →
  isExpired now item = false →
  (get faults now k m).1 = Ok (Some (value item)).
Proof.
  intros Hi He Hl Hx. unfold get. unfold bind at 1.
  rewrite ensureInitialized_ready by done.
  unfold bind, read. rewrite He, Hl, Hx. done.
Qed.

Lemma get_after_memoryMiss (faults : Faults) (now : Z) (k : string) (m : Manager) :
  isInitialized (state m) = true →
  memoryMiss now k m →
  get faults now k m = getFromStore faults now k m.
Proof.
  intros Hi Hmiss. unfold get. unfold bind at 1.
  rewrite ensureInitialized_ready by done.
  unfold bind, read.
  destruct Hmiss as [He|[Hl|(item & Hl & Hx)]].
  - by rewrite He.
  - rewrite Hl. by destruct (enableMemoryCache (options m)).
  - rewrite Hl. destruct (enableMemoryCache (options m)); [by rewrite Hx | done].
Qed.

Lemma getFromStore_hit (faults : Faults) (now : Z) (k : string) (m : Manager)
    (item : CacheItem) :
  indexedDB (state m) = true →
  getFails faults = false → putFails faults = false →
  stored m !! k = Some item →
  isExpired now item = false →
  (getFromStore faults now k m).1 = Ok (Some (value item)).
Proof.
  intros Hc Hg Hp Hl Hx. destruct m as [o [i cs ic lc mc c] b]. simpl in *. subst c.
  unfold getFromStore. manager_compute. rewrite Hg, Hp. manager_compute.
  rewrite Hl, Hx.
  destruct o as [? ? ? [] ? ? ?]; manager_compute; rewrite Hl; done.
Qed.

Lemma getFromStore_none (faults : Faults) (now : Z) (k : string) (m : Manager) :
  (indexedDB (state m) = false ∨ getFails faults = true ∨ stored m !! k = None ∨
   ∃ item, stored m !! k = Some item ∧ isExpired now item = true) →
  (getFromStore faults now k m).1 = Ok None.
Proof.
  intros H. destruct m as [o [i cs ic lc mc c] b]. simpl in *.
  unfold getFromStore. manager_compute.
  destruct c; [|done].
  destruct (getFails faults) eqn:Hg; [done|]. manager_compute.
  destruct H as [?|[?|[Hl|(item & Hl & Hx)]]]; try done.
  - by rewrite Hl.
  - by rewrite Hl, Hx.
Qed.

(** [getFromStore] never throws. *)
Lemma getFromStore_answers (faults : Faults) (now : Z) (k : string) :
  answers (getFromStore faults now k).
Proof.
  unfold getFromStore. apply answers_bind; [apply answers_read|].
  intros []; [|apply answers_ret].
  apply answers_try_catch. intros _. apply answers_ret.
Qed.

Lemma get_answers (faults : Faults) (now : Z) (k : string) :
  answers (get faults now k).
Proof.
  unfold get. intros m. unfold bind at 1.
  destruct (ensureInitialized_answers faults m) as [m' ->].
  revert m'. change (answers
    (let* withMemory := read (λ m, enableMemoryCache (options m)) in
     let* memoryItem :=
       read (λ m, if withMemory then memoryCache (state m) !! k else None) in
     match memoryItem with
     | Some item =>
         if negb (isExpired now item)
         then modify_state
                (λ st, set_memoryCache (<[k:=accessed now item]> (memoryCache st)) st) ;;;
              ret (Some (value item))
         else getFromStore faults now k
     | None => getFromStore faults now k
     end)).
  apply answers_bind; [apply answers_read|]. intros withMemory.
  apply answers_bind; [apply answers_read|]. intros [item|].
  - destruct (negb _); [|apply getFromStore_answers].
    apply answers_bind; [apply answers_modify_state | intros _; apply answers_ret].
  - apply getFromStore_answers.
Qed.

Lemma set_answers (faults : Faults) (now : Z) (k : string) (v : Json.value)
    (given : SetOptions) :
  answers (set faults now k v given).
Proof.
  unfold set. intros m. unfold bind at 1.
  destruct (ensureInitialized_answers faults m) as [m' ->].
  unfold bind at 1, read. apply answers_try_catch. intros _. apply answers_ret.
Qed.

(** The manager when [set] has made sure of the initialisation. *)
Definition initialised (faults : Faults) (m : Manager) : Manager :=
  (ensureInitialized faults m).2.

(** The step of [set] that makes room, at the manager it starts from. *)
Definition makeRoom (faults : Faults) (now : Z) (requiredSize : Z) (m : Manager)
  : Result unit * Manager :=
  when (maxSizeMB (options m) * 1024 * 1024 <? currentSize (state m) + requiredSize)
    (makeSpace faults now requiredSize) m.

Lemma initialised_ready (faults : Faults) (m : Manager) :
  isInitialized (state m) = true → initialised faults m = m.
Proof. intros H. unfold initialised. by rewrite ensureInitialized_ready. Qed.

Lemma makeRoom_keeps (faults : Faults) (now requiredSize : Z) (m : Manager) :
  options (makeRoom faults now requiredSize m).2 = options m ∧
  indexedDB (state (makeRoom faults now requiredSize m).2) = indexedDB (state m) ∧
  isInitialized (state (makeRoom faults now requiredSize m).2) = isInitialized (state m).
Proof. unfold makeRoom. apply preserves_when, preserves_makeSpace. tc_solve. Qed.

Lemma makeRoom_not_full (faults : Faults) (now requiredSize : Z) (m : Manager) :
  (isStorageFull requiredSize m).1 = Ok false →
  makeRoom faults now requiredSize m = (Ok tt, m).
Proof.
  unfold makeRoom, isStorageFull, read. simpl. intros Hfull.
  injection Hfull as ->. done.
Qed.

(** What [set] does, told from the manager [m1] that initialising and
    making room leave: it answers [false] when making room or the write to
    the store throws; else it answers [true], has put the item in the memory
    map and the store, and has added to the two counters. *)
Lemma set_outcome (faults : Faults) (now : Z) (k : string) (v : Json.value)
    (given : SetOptions) (m : Manager) :
  let m0 := initialised faults m in
  let item := newItem now k v given m0 in
  let room := makeRoom faults now (size item) m0 in
  let m1 := room.2 in
  let result := set faults now k v given m in
  match room.1 with
  | Thrown _ => result = (Ok false, m1)
  | Ok _ =>
      if indexedDB (state m1) && putFails faults then result.1 = Ok false
      else
        result.1 = Ok true ∧
        options result.2 = options m1 ∧
        isInitialized (state result.2) = isInitialized (state m1) ∧
        indexedDB (state result.2) = indexedDB (state m1) ∧
        memoryCache (state result.2) =
          (if enableMemoryCache (options m1)
           then <[k := item]> (memoryCache (state m1))
           else memoryCache (state m1)) ∧
        (indexedDB (state m1) = true → stored result.2 = <[k := item]> (stored m1)) ∧
        currentSize (state result.2) = currentSize (state m1) + size item ∧
        itemCount (state result.2) = itemCount (state m1) + 1
  end.
Proof.
  cbn zeta. remember (set faults now k v given m) as result eqn:Hresult.
  unfold set in Hresult. unfold bind at 1 in Hresult.
  unfold initialised, makeRoom.
  destruct (ensureInitialized_answers faults m) as [m0 Hm0].
  rewrite Hm0 in Hresult |- *. clear Hm0. subst result. cbn [fst snd].
  destruct m0 as [[nm mx dt em ei es ci] [i cs ic lc mc c] b].
  manager_compute.
  set (item := newItem now k v given _).
  destruct (mx * 1024 * 1024 <? cs + size item).
  - destruct (makeSpace faults now (size item) _)
      as [[[]|e] [[nm1 mx1 dt1 em1 ei1 es1 ci1] [i1 cs1 ic1 lc1 mc1 c1] b1]]; [|done].
    destruct em1, c1, (putFails faults), es1,
      (String.eqb (type item) "image"), (String.eqb (type item) "html"),
      (cachePutFails faults); manager_compute; done.
  - destruct em, c, (putFails faults), es,
      (String.eqb (type item) "image"), (String.eqb (type item) "html"),
      (cachePutFails faults); manager_compute; done.
Qed.

Lemma isExpired_iff (t : Z) (item : CacheItem) :
  isExpired t item = true ↔ t - timestamp item > ttl item.
Proof. unfold isExpired. rewrite Z.ltb_lt. lia. Qed.

Lemma initialised_options (faults : Faults) (m : Manager) :
  options (initialised faults m) = options m.
Proof. apply preserves_ensureInitialized. Qed.

Lemma newItem_initialised (faults : Faults) (now : Z) (k : string) (v : Json.value)
    (given : SetOptions) (m : Manager) :
  newItem now k v given (initialised faults m) = newItem now k v given m.
Proof. unfold newItem. by rewrite initialised_options. Qed.

(** What a call of [set] that answers [true] leaves behind. *)
Lemma set_true (faults : Faults) (now : Z) (k : string) (v : Json.value)
    (given : SetOptions) (m : Manager) :
  (set faults now k v given m).1 = Ok true →
  let m0 := initialised faults m in
  let item := newItem now k v given m in
  let m1 := (makeRoom faults now (estimateSize v) m0).2 in
  let m' := (set faults now k v given m).2 in
  options m' = options m ∧
  isInitialized (state m') = isInitialized (state m0) ∧
  indexedDB (state m') = indexedDB (state m0) ∧
  memoryCache (state m') =
    (if enableMemoryCache (options m)
     then <[k := item]> (memoryCache (state m1))
     else memoryCache (state m1)) ∧
  (indexedDB (state m0) = true → stored m' = <[k := item]> (stored m1)) ∧
  currentSize (state m') = currentSize (state m1) + estimateSize v ∧
  itemCount (state m') = itemCount (state m1) + 1.
Proof.
  intros Hok. cbn zeta.
  pose proof (set_outcome faults now k v given m) as Hset. cbn zeta in Hset.
  rewrite newItem_initialised in Hset.
  change (size (newItem now k v given m)) with (estimateSize v) in Hset.
  destruct (makeRoom_keeps faults now (estimateSize v) (initialised faults m))
    as (Ho & Hc & Hn).
  rewrite initialised_options in Ho.
  destruct (makeRoom _ _ _ _).1.
  - destruct (indexedDB _ && putFails faults); [congruence|].
    destruct Hset as (_ & Ho' & Hi' & Hc' & Hm & Hs & Hcs & Hic).
    rewrite Ho in Ho', Hm. rewrite Hc in Hc', Hs. rewrite Hn in Hi'.
    split_and!; done.
  - rewrite Hset in Hok. done.
Qed.

(** C6.  An entry is expired exactly when [now - timestamp > ttl].  Once
    [set] has written an entry and the manager is initialised, a [get] one
    millisecond before [timestamp + ttl] answers the stored value, from the
    memory tier when it is enabled and else from the store when its requests
    succeed, and a [get] one millisecond after [timestamp + ttl] answers
    [null]. *)
Theorem ttl_boundary (faults : Faults) (now : Z) (k : string) (v : Json.value)
    (given : SetOptions) (m : Manager) :
  (set faults now k v given m).1 = Ok true →
  isInitialized (state (set faults now k v given m).2) = true →
  let m' := (set faults now k v given m).2 in
  let lifetime := orDefault (given_ttl given) (defaultTTL (options m)) in
  (∀ t item, isExpired t item = true ↔ t - timestamp item > ttl item) ∧
  (enableMemoryCache (options m) = true →
     ∀ later, (get later (now + lifetime - 1) k m').1 = Ok (Some v)) ∧
  (indexedDB (state m') = true →
     ∀ later, getFails later = false → putFails later = false →
       (get later (now + lifetime - 1) k m').1 = Ok (Some v)) ∧
  (∀ later, (get later (now + lifetime + 1) k m').1 = Ok None).
Proof.
  intros Hok Hi'. cbn zeta.
  destruct (set_true faults now k v given m Hok)
    as (Ho & _ & Hc & Hm & Hs & _ & _).
  set (m' := (set faults now k v given m).2) in *.
  set (item := newItem now k v given m) in *.
  set (lifetime := orDefault (given_ttl given) (defaultTTL (options m))).
  assert (isExpired (now + lifetime - 1) item = false) as Hbefore.
  { unfold isExpired, item, lifetime. simpl. apply Z.ltb_ge. lia. }
  assert (isExpired (now + lifetime + 1) item = true) as Hafter.
  { unfold isExpired, item, lifetime. simpl. apply Z.ltb_lt. lia. }
  assert (enableMemoryCache (options m) = true →
          ∀ later, (get later (now + lifetime - 1) k m').1 = Ok (Some v)) as Hmemory.
  { intros He later.
    apply (get_memory_hit later (now + lifetime - 1) k m' item); try done.
    - by rewrite Ho.
    - rewrite Hm, He. apply lookup_insert_eq. }
  split_and!; [apply isExpired_iff | done | |].
  - intros Hconn later Hg Hp.
    destruct (enableMemoryCache (options m)) eqn:He; [by apply Hmemory|].
    rewrite get_after_memoryMiss; [|done | left; by rewrite Ho].
    apply (getFromStore_hit later _ k m' item); try done.
    rewrite Hs by congruence. apply lookup_insert_eq.
  - intros later. rewrite get_after_memoryMiss; [|done|].
    + apply getFromStore_none.
      destruct (indexedDB (state m')) eqn:Hconn; [|by left].
      right; right; right. exists item. split; [|done].
      rewrite Hs by congruence. apply lookup_insert_eq.
    + destruct (enableMemoryCache (options m)) eqn:He; [|left; by rewrite Ho].
      right; right. exists item. split; [|done]. rewrite Hm. apply lookup_insert_eq.
Qed.

(** C7, as the code has it.  [set] and [get] never throw.  [set] answers
    [false] when the step that makes room throws or the write to the store
    fails, and [get] answers [null] when the read of the store fails.  A
    failure of the service worker cache is caught inside
    [storeInServiceWorkerCache]: when making room and the write to the store
    succeed, [set] answers [true] whether or not the write to the service
    worker cache failed. *)
Theorem storage_failures_are_caught (faults : Faults) (now : Z) (k : string)
    (v : Json.value) (given : SetOptions) (m : Manager) :
  (∃ b, (set faults now k v given m).1 = Ok b) ∧
  (∃ r, (get faults now k m).1 = Ok r) ∧
  (indexedDB (state (initialised faults m)) = true → putFails faults = true →
     (set faults now k v given m).1 = Ok false) ∧
  ((makeRoom faults now (estimateSize v) (initialised faults m)).1 ≠ Ok tt →
     (set faults now k v given m).1 = Ok false) ∧
  (isInitialized (state m) = true → memoryMiss now k m →
   indexedDB (state m) = true → getFails faults = true →
     (get faults now k m).1 = Ok None) ∧
  ((makeRoom faults now (estimateSize v) (initialised faults m)).1 = Ok tt →
   indexedDB (state (initialised faults m)) && putFails faults = false →
     (set faults now k v given m).1 = Ok true).
Proof.
  pose proof (set_outcome faults now k v given m) as Hset. cbn zeta in Hset.
  rewrite newItem_initialised in Hset.
  change (size (newItem now k v given m)) with (estimateSize v) in Hset.
  destruct (makeRoom_keeps faults now (estimateSize v) (initialised faults m))
    as (_ & Hc' & _).
  split_and!.
  - apply set_answers.
  - apply get_answers.
  - intros Hc Hp.
    destruct (makeRoom _ _ _ _).1; [|by rewrite Hset].
    by rewrite Hc', Hc, Hp in Hset.
  - intros Hroom.
    destruct (makeRoom _ _ _ _).1 as [[]|e]; [done | by rewrite Hset].
  - intros Hi Hmiss Hc Hg. rewrite get_after_memoryMiss by done.
    apply getFromStore_none. right. by left.
  - intros Hroom Hput. rewrite Hroom, Hc', Hput in Hset. apply Hset.
Qed.

(** C10, as the code has it.  Every call of [set] that answers [true]
    adds 1 to [itemCount] and the estimated size of the value to
    [currentSize], on top of what the two counters are once the call has made
    sure of the initialisation and made room, and whether or not the key is
    already in the cache.  On an initialised manager whose storage is not
    full that is 1 and the size more than before the call; after two such
    calls for one key the counters have counted the key twice, while the
    memory map holds one item for it. *)
Theorem set_counts_every_call (faults : Faults) (now : Z) (k : string)
    (v : Json.value) (given : SetOptions) (m : Manager) :
  (set faults now k v given m).1 = Ok true →
  let m1 := (makeRoom faults now (estimateSize v) (initialised faults m)).2 in
  let m' := (set faults now k v given m).2 in
  itemCount (state m') = itemCount (state m1) + 1 ∧
  currentSize (state m') = currentSize (state m1) + estimateSize v ∧
  (isInitialized (state m) = true →
   (isStorageFull (estimateSize v) m).1 = Ok false →
     itemCount (state m') = itemCount (state m) + 1 ∧
     currentSize (state m') = currentSize (state m) + estimateSize v ∧
     ∀ faults2 now2 v2 given2,
       (isStorageFull (estimateSize v2) m').1 = Ok false →
       (set faults2 now2 k v2 given2 m').1 = Ok true →
       let m'' := (set faults2 now2 k v2 given2 m').2 in
       itemCount (state m'') = itemCount (state m) + 2 ∧
       currentSize (state m'') =
         currentSize (state m) + estimateSize v + estimateSize v2 ∧
       (enableMemoryCache (options m) = true →
          memoryCache (state m'') =
            <[k := newItem now2 k v2 given2 m]> (memoryCache (state m)) ∧
          count (memoryCache (state m'')) ≤ count (memoryCache (state m)) + 1)).
Proof.
  intros Hok. cbn zeta.
  destruct (set_true faults now k v given m Hok) as (Ho & Hi' & _ & Hm & _ & Hcs & Hic).
  split_and!; [done | done |].
  intros Hi Hfull.
  rewrite (initialised_ready faults m Hi) in *.
  rewrite (makeRoom_not_full faults now _ m Hfull) in *. cbn [snd] in *.
  split_and!; [done | done |].
  intros faults2 now2 v2 given2 Hfull2 Hok2. cbn zeta.
  set (m' := (set faults now k v given m).2) in *.
  assert (isInitialized (state m') = true) as Hready by congruence.
  destruct (set_true faults2 now2 k v2 given2 m' Hok2)
    as (Ho2 & _ & _ & Hm2 & _ & Hcs2 & Hic2).
  rewrite (initialised_ready faults2 m' Hready) in *.
  rewrite (makeRoom_not_full faults2 now2 _ m' Hfull2) in *. cbn [snd] in *.
  split_and!; [lia | lia |].
  intros He. rewrite Ho, He in Hm2. rewrite He in Hm.
  assert (newItem now2 k v2 given2 m' = newItem now2 k v2 given2 m) as Hitem.
  { unfold newItem. by rewrite Ho. }
  rewrite Hm2, Hm, Hitem, insert_insert_eq. split; [done|].
  unfold count.
  destruct (memoryCache (state m) !! k) eqn:Hl.
  - rewrite map_size_insert_Some by done. lia.
  - rewrite map_size_insert_None by done. lia.
Qed.

(** ** Entries in the cache *)

(** Two items with the same value, time stamp and time to live: one
    entry, whatever its last access. *)
Definition sameEntry (item item' : CacheItem) : Prop :=
  value item' = value item ∧ timestamp item' = timestamp item ∧ ttl item' = ttl item.

(** The object store has the key path [key]: a record is filed under its
    own [key]. *)
Definition keyedStore (m : Manager) : Prop :=
  ∀ k item, stored m !! k = Some item → key item = k.

Definition stays_keyed : relation Manager :=
  λ m m', keyedStore m → keyedStore m'.

Global Instance stays_keyed_preorder : PreOrder stays_keyed.
Proof.
  split; [intros m H; exact H | intros m1 m2 m3 H12 H23 H; apply H23, H12, H].
Qed.

(** The entry [item] is in the cache under [k]: the manager is
    initialised and each tier it uses holds the entry. *)
Definition holds (m : Manager) (k : string) (item : CacheItem) : Prop :=
  isInitialized (state m) = true ∧
  keyedStore m ∧
  (enableMemoryCache (options m) = true →
     ∃ item', memoryCache (state m) !! k = Some item' ∧ sameEntry item item') ∧
  (indexedDB (state m) = true →
     ∃ item', stored m !! k = Some item' ∧ sameEntry item item').

Lemma isExpired_sameEntry (t : Z) (item item' : CacheItem) :
  sameEntry item item' → isExpired t item' = isExpired t item.
Proof. intros (_ & Hts & Httl). unfold isExpired. by rewrite Hts, Httl. Qed.

Lemma sameEntry_accessed (t : Z) (item item' : CacheItem) :
  sameEntry item item' → sameEntry item (accessed t item').
Proof. by intros (? & ? & ?). Qed.

Lemma stays_keyed_modify_state (f : State → State) :
  preserves stays_keyed (modify_state f).
Proof. intros [o st b] Hkeyed. exact Hkeyed. Qed.

Lemma stays_keyed_set_records (r : gmap string CacheItem) (m : Manager) :
  (∀ k item, r !! k = Some item → key item = k) →
  keyedStore (set_records r m).2.
Proof. by destruct m. Qed.

Lemma stays_keyed_deleteWhere (faults : Faults) (P : CacheItem → bool) :
  preserves stays_keyed (deleteWhere faults P).
Proof.
  intros m Hkeyed. unfold deleteWhere.
  destruct (cursorFails faults); [done|].
  unfold bind at 1, read. unfold bind, ret.
  change ((let (_, m') := set_records (filter (λ kv, P kv.2 = false) (stored m)) m in m') ) with
    (set_records (filter (λ kv, P kv.2 = false) (stored m)) m).2.
  apply stays_keyed_set_records. intros k item [Hl _]%map_lookup_filter_Some.
  by apply Hkeyed.
Qed.

Lemma stays_keyed_index (name : string) :
  preserves stays_keyed (index name).
Proof. intros m. unfold index, bind, read. by destruct (Json.includes _ _). Qed.

Ltac keyed_steps :=
  repeat first
    [ apply preserves_ret; tc_solve
    | apply preserves_throw; tc_solve
    | apply preserves_read; tc_solve
    | apply preserves_when; [tc_solve|]
    | apply preserves_bind; [tc_solve| |intros ?]
    | apply preserves_try_catch; [tc_solve| |intros ?]
    | match goal with
      | |- preserves _ (modify_state _) => apply stays_keyed_modify_state
      | |- preserves _ (deleteWhere _ _) => apply stays_keyed_deleteWhere
      | |- preserves _ (index _) => apply stays_keyed_index
      | |- preserves _ (if ?b then _ else _) => destruct b
      | |- preserves _ (match ?x with _ => _ end) => destruct x
      end ].

Lemma stays_keyed_makeSpace (faults : Faults) (now requiredSize : Z) :
  preserves stays_keyed (makeSpace faults now requiredSize).
Proof.
  unfold makeSpace, cleanupExpiredCache, cleanupLowPriorityItems, cleanupOldestItems,
    subtract.
  keyed_steps.
Qed.

Lemma stays_keyed_ensureInitialized (faults : Faults) :
  preserves stays_keyed (ensureInitialized faults).
Proof.
  unfold ensureInitialized, init, initIndexedDB, initServiceWorkerCache,
    calculateCacheSize, setupCleanupInterval.
  keyed_steps.
  - intros [o st [hi hs [db|] cs ct]] Hkeyed; [exact Hkeyed|].
    intros k item Hl. change ((∅ : gmap string CacheItem) !! k = Some item) in Hl.
    by rewrite lookup_empty in Hl.
  - intros [o st b] Hkeyed. exact Hkeyed.
Qed.

Lemma stays_keyed_storeInIndexedDB (faults : Faults) (cacheItem : CacheItem) :
  preserves stays_keyed (storeInIndexedDB faults cacheItem).
Proof.
  intros m Hkeyed. unfold storeInIndexedDB.
  destruct (putFails faults); [exact Hkeyed|].
  unfold bind, read. apply stays_keyed_set_records.
  intros k item [[<- <-]|[_ Hl]]%lookup_insert_Some; [done | by apply Hkeyed].
Qed.

Lemma stays_keyed_modify_cacheStorage (f : gmap string Json.value → gmap string Json.value) :
  preserves stays_keyed (modify_browser (λ b, set_cacheStorage (f (cacheStorage b)) b)).
Proof. intros [o st b] Hkeyed. exact Hkeyed. Qed.

Lemma stays_keyed_set (faults : Faults) (now : Z) (k : string) (v : Json.value)
    (given : SetOptions) :
  preserves stays_keyed (set faults now k v given).
Proof.
  unfold set. apply preserves_bind; [tc_solve | apply stays_keyed_ensureInitialized|].
  intros _. unfold isStorageFull, storeInServiceWorkerCache.
  repeat first
    [ match goal with
      | |- preserves _ (makeSpace _ _ _) => apply stays_keyed_makeSpace
      | |- preserves _ (storeInIndexedDB _ _) => apply stays_keyed_storeInIndexedDB
      | |- preserves _ (modify_browser _) =>
          apply (stays_keyed_modify_cacheStorage (λ c, <[k := v]> c))
      | |- preserves _ (modify_state _) => apply stays_keyed_modify_state
      | |- preserves _ (if ?b then _ else _) => destruct b
      end
    | apply preserves_ret; tc_solve
    | apply preserves_throw; tc_solve
    | apply preserves_read; tc_solve
    | apply preserves_when; [tc_solve|]
    | apply preserves_bind; [tc_solve| |intros ?]
    | apply preserves_try_catch; [tc_solve| |intros ?] ].
Qed.

Lemma stays_keyed_get (faults : Faults) (now : Z) (k : string) :
  preserves stays_keyed (get faults now k).
Proof.
  unfold get. apply preserves_bind; [tc_solve | apply stays_keyed_ensureInitialized|].
  intros _. unfold getFromStore, updateLastAccessed, getFromIndexedDB.
  repeat first
    [ match goal with
      | |- preserves _ (storeInIndexedDB _ _) => apply stays_keyed_storeInIndexedDB
      | |- preserves _ (modify_state _) => apply stays_keyed_modify_state
      | |- preserves _ (if ?b then _ else _) => destruct b
      | |- preserves _ (match ?x with _ => _ end) => destruct x
      end
    | apply preserves_ret; tc_solve
    | apply preserves_throw; tc_solve
    | apply preserves_read; tc_solve
    | apply preserves_when; [tc_solve|]
    | apply preserves_bind; [tc_solve| |intros ?]
    | apply preserves_try_catch; [tc_solve| |intros ?] ].
Qed.

(** A call of [set] that answers [true] and leaves the manager
    initialised has put its entry in the cache. *)
Lemma set_holds (faults : Faults) (now : Z) (k : string) (v : Json.value)
    (given : SetOptions) (m : Manager) :
  keyedStore m →
  (set faults now k v given m).1 = Ok true →
  isInitialized (state (set faults now k v given m).2) = true →
  holds (set faults now k v given m).2 k (newItem now k v given m).
Proof.
  intros Hkeyed Hok Hready.
  destruct (set_true faults now k v given m Hok) as (Ho & _ & Hc & Hm & Hs & _ & _).
  split_and!; [done | by apply stays_keyed_set | |].
  - rewrite Ho. intros He. exists (newItem now k v given m).
    rewrite Hm, He, lookup_insert_eq. done.
  - intros Hconn. exists (newItem now k v given m).
    rewrite Hs by congruence. rewrite lookup_insert_eq. done.
Qed.

(** What a [get] answers for an entry in the cache, by the time it is
    made at. *)
Lemma get_of_held (faults : Faults) (t : Z) (k : string) (m : Manager)
    (item : CacheItem) :
  holds m k item →
  (isExpired t item = false → enableMemoryCache (options m) = true →
     (get faults t k m).1 = Ok (Some (value item))) ∧
  (isExpired t item = false → indexedDB (state m) = true →
   getFails faults = false → putFails faults = false →
     (get faults t k m).1 = Ok (Some (value item))) ∧
  (isExpired t item = true → (get faults t k m).1 = Ok None).
Proof.
  intros (Hi & _ & Hmem & Hstore).
  assert (isExpired t item = false → enableMemoryCache (options m) = true →
          (get faults t k m).1 = Ok (Some (value item))) as Hhit.
  { intros Hx He. destruct (Hmem He) as (item' & Hl & Hsame).
    rewrite (get_memory_hit faults t k m item'); try done.
    - by destruct Hsame as (-> & _).
    - by rewrite (isExpired_sameEntry t item item'). }
  split_and!; [done | |].
  - intros Hx Hconn Hg Hp.
    destruct (enableMemoryCache (options m)) eqn:He; [by apply Hhit|].
    rewrite get_after_memoryMiss; [|done | by left].
    destruct (Hstore Hconn) as (item' & Hl & Hsame).
    rewrite (getFromStore_hit faults t k m item'); try done.
    + by destruct Hsame as (-> & _).
    + by rewrite (isExpired_sameEntry t item item').
  - intros Hx. rewrite get_after_memoryMiss; [|done|].
    + apply getFromStore_none.
      destruct (indexedDB (state m)) eqn:Hconn; [|by left].
      destruct (Hstore eq_refl) as (item' & Hl & Hsame).
      right; right; right. exists item'. split; [done|].
      by rewrite (isExpired_sameEntry t item item').
    + destruct (enableMemoryCache (options m)) eqn:He; [|by left].
      destruct (Hmem eq_refl) as (item' & Hl & Hsame).
      right; right. exists item'. split; [done|].
      by rewrite (isExpired_sameEntry t item item').
Qed.

(** What the manager is like after a computation, in the terms [holds]
    is written in: the set-up is the same and, in either tier, an item stays as
    it is or is one of the two tiers' items for the same key, marked as
    accessed. *)
Definition touches (t : Z) (m m' : Manager) : Prop :=
  options m' = options m ∧
  isInitialized (state m') = isInitialized (state m) ∧
  indexedDB (state m') = indexedDB (state m) ∧
  (∀ k, memoryCache (state m') !! k = memoryCache (state m) !! k ∨
        ∃ item, memoryCache (state m') !! k = Some (accessed t item) ∧
                ((enableMemoryCache (options m) = true ∧
                  memoryCache (state m) !! k = Some item) ∨
                 (indexedDB (state m) = true ∧ stored m !! k = Some item))) ∧
  (∀ k, stored m' !! k = stored m !! k ∨
        ∃ item, stored m' !! k = Some (accessed t item) ∧
                indexedDB (state m) = true ∧ stored m !! k = Some item).

Lemma touches_refl (t : Z) (m : Manager) : touches t m m.
Proof. split_and!; [done..| |]; intros k; by left. Qed.

(** The manager with the item [found] put in the memory map under
    [k], marked as accessed at [t]. *)
Definition promoted (t : Z) (k : string) (found : CacheItem) (m : Manager) : Manager :=
  {| options := options m;
     state := set_memoryCache (<[k := accessed t found]> (memoryCache (state m))) (state m);
     browser := browser m |}.

(** What a look in the store that finds an item in time leaves. *)
Lemma getFromStore_found (faults : Faults) (t : Z) (k : string) (m : Manager)
    (found : CacheItem) :
  indexedDB (state m) = true → getFails faults = false →
  stored m !! k = Some found → isExpired t found = false →
  let m1 := if enableMemoryCache (options m) then promoted t k found m else m in
  (getFromStore faults t k m).2 =
    if putFails faults then m1
    else (set_records (<[key found := accessed t found]> (stored m)) m1).2.
Proof.
  intros Hc Hg Hl Hx. cbn zeta.
  destruct m as [[nm mx dt em ei es ci] [i cs ic lc mc c] b].
  cbn in Hc, Hl. subst c. unfold getFromStore, promoted.
  manager_compute. rewrite Hg. manager_compute. rewrite Hl, Hx.
  destruct em; manager_compute; rewrite Hl; by destruct (putFails faults).
Qed.

(** What a look in the store that finds nothing it can use leaves. *)
Lemma getFromStore_missed (faults : Faults) (t : Z) (k : string) (m : Manager) :
  (indexedDB (state m) = false ∨ getFails faults = true ∨ stored m !! k = None ∨
   ∃ item, stored m !! k = Some item ∧ isExpired t item = true) →
  (getFromStore faults t k m).2 = m.
Proof.
  intros H. destruct m as [o [i cs ic lc mc c] b]. simpl in *.
  unfold getFromStore. manager_compute.
  destruct c; [|done].
  destruct (getFails faults) eqn:Hg; [done|]. manager_compute.
  destruct H as [?|[?|[Hl|(item & Hl & Hx)]]]; try done.
  - by rewrite Hl.
  - by rewrite Hl, Hx.
Qed.

Lemma touches_promoted (t : Z) (k : string) (found : CacheItem) (m : Manager) :
  indexedDB (state m) = true → stored m !! k = Some found →
  touches t m (promoted t k found m).
Proof.
  intros Hc Hl. destruct m as [o st b]. unfold touches, promoted.
  split_and!; [done..| |by left].
  intros k0. cbn. destruct (decide (k0 = k)) as [->|Hne].
  - right. exists found. rewrite lookup_insert_eq. split; [done|]. by right.
  - left. by rewrite lookup_insert_ne.
Qed.

Lemma touches_refreshed (t : Z) (k : string) (found : CacheItem) (m m1 : Manager) :
  indexedDB (state m) = true → stored m !! k = Some found → key found = k →
  touches t m m1 → stored m1 = stored m →
  touches t m (set_records (<[key found := accessed t found]> (stored m)) m1).2.
Proof.
  intros Hc Hl Hkey (Ho & Hi & Hc' & Hm & Hs) Hst. destruct m1 as [o1 st1 b1].
  unfold touches. cbn in *. split_and!; [done..|].
  intros k0. rewrite Hkey. destruct (decide (k0 = k)) as [->|Hne].
  - right. exists found. by rewrite lookup_insert_eq.
  - left. by rewrite lookup_insert_ne.
Qed.

Lemma getFromStore_touches (faults : Faults) (t : Z) (k' : string) (m : Manager) :
  keyedStore m → touches t m (getFromStore faults t k' m).2.
Proof.
  intros Hkeyed.
  destruct (indexedDB (state m)) eqn:Hc;
    [|rewrite getFromStore_missed by (by left); apply touches_refl].
  destruct (getFails faults) eqn:Hg;
    [rewrite getFromStore_missed by (by right; left); apply touches_refl|].
  destruct (stored m !! k') as [found|] eqn:Hl;
    [|rewrite getFromStore_missed by (by right; right; left); apply touches_refl].
  destruct (isExpired t found) eqn:Hx;
    [rewrite getFromStore_missed by (right; right; right; by exists found);
     apply touches_refl|].
  rewrite (getFromStore_found faults t k' m found) by done.
  assert (touches t m (if enableMemoryCache (options m)
                       then promoted t k' found m else m)) as H1.
  { destruct (enableMemoryCache (options m));
      [by apply touches_promoted | apply touches_refl]. }
  destruct (putFails faults); [done|].
  apply (touches_refreshed t k'); [done | done | by apply Hkeyed | done |].
  by destruct (enableMemoryCache (options m)).
Qed.

(** What a [get] on an initialised manager changes. *)
Lemma get_touches (faults : Faults) (t : Z) (k' : string) (m : Manager) :
  isInitialized (state m) = true → keyedStore m →
  touches t m (get faults t k' m).2.
Proof.
  intros Hi Hkeyed.
  destruct (enableMemoryCache (options m)) eqn:He;
    [|rewrite get_after_memoryMiss; [by apply getFromStore_touches | done | by left]].
  destruct (memoryCache (state m) !! k') as [item|] eqn:Hl;
    [|rewrite get_after_memoryMiss;
      [by apply getFromStore_touches | done | by right; left]].
  destruct (isExpired t item) eqn:Hx;
    [rewrite get_after_memoryMiss;
     [by apply getFromStore_touches | done | right; right; by exists item]|].
  unfold get. unfold bind at 1. rewrite ensureInitialized_ready by done.
  unfold bind, read. rewrite He, Hl, Hx.
  destruct m as [o st b]. split_and!; [done..| |by left].
  intros k. cbn in *. destruct (decide (k = k')) as [->|Hne].
  - right. exists item. rewrite lookup_insert_eq. split; [done|]. by left.
  - left. by rewrite lookup_insert_ne.
Qed.

(** A [get], of any key, at any time and whatever fails in it, leaves in
    the cache the entries that are in it. *)
Lemma get_keeps_held (faults : Faults) (t : Z) (k' : string) (m : Manager)
    (k : string) (item : CacheItem) :
  holds m k item → holds (get faults t k' m).2 k item.
Proof.
  intros (Hi & Hkeyed & Hmem & Hstore).
  destruct (get_touches faults t k' m Hi Hkeyed) as (Ho & Hi' & Hc & Hm & Hs).
  split_and!; [congruence | by apply stays_keyed_get | |].
  - rewrite Ho. intros He. destruct (Hm k) as [->|(item0 & -> & Hfrom)]; [by apply Hmem|].
    exists (accessed t item0). split; [done|]. apply sameEntry_accessed.
    destruct Hfrom as [[_ Hl]|[Hconn Hl]].
    + destruct (Hmem He) as (item' & Hl' & Hsame). congruence.
    + destruct (Hstore Hconn) as (item' & Hl' & Hsame). congruence.
  - rewrite Hc. intros Hconn.
    destruct (Hs k) as [->|(item0 & -> & _ & Hl)]; [by apply Hstore|].
    exists (accessed t item0). split; [done|]. apply sameEntry_accessed.
    destruct (Hstore Hconn) as (item' & Hl' & Hsame). congruence.
Qed.

(** The managers that a sequence of calls of [get] leaves, each call
    with what fails in it, its time and its key. *)
Definition gets (calls : list (Faults * Z * string)) (m : Manager) : Manager :=
  foldl (λ m call, (get call.1.1 call.1.2 call.2 m).2) m calls.

(** X15.  Reading never loses an entry.  A call of [set] that answers
    [true] on an initialised manager puts its entry in every tier the manager
    uses, and an entry that is in the cache stays in it through any calls of
    [get], whatever their keys and times and whatever fails in them.  After
    them a [get] of the key answers the value while the entry has not expired,
    from the memory tier when it is enabled and else from the store when its
    requests succeed, and answers [null] once it has. *)
Theorem reading_keeps_entries (m : Manager) (k : string) (item : CacheItem)
    (calls : list (Faults * Z * string)) :
  holds m k item →
  holds (gets calls m) k item ∧
  (∀ faults t,
     (isExpired t item = false → enableMemoryCache (options m) = true →
        (get faults t k (gets calls m)).1 = Ok (Some (value item))) ∧
     (isExpired t item = false → indexedDB (state m) = true →
      getFails faults = false → putFails faults = false →
        (get faults t k (gets calls m)).1 = Ok (Some (value item))) ∧
     (isExpired t item = true → (get faults t k (gets calls m)).1 = Ok None)) ∧
  (∀ faults now v given m0,
     keyedStore m0 → (set faults now k v given m0).1 = Ok true →
     isInitialized (state (set faults now k v given m0).2) = true →
     holds (set faults now k v given m0).2 k (newItem now k v given m0)).
Proof.
  intros Hheld.
  assert (holds (gets calls m) k item ∧
          options (gets calls m) = options m ∧
          indexedDB (state (gets calls m)) = indexedDB (state m)) as (Hafter & Ho & Hc).
  { unfold gets. revert m Hheld.
    induction calls as [|[[faults t] k'] calls IH]; intros m Hheld; [done|].
    cbn [foldl fst snd].
    destruct (IH (get faults t k' m).2 (get_keeps_held faults t k' m k item Hheld))
      as (H1 & H2 & H3).
    destruct Hheld as (Hi & Hkeyed & _).
    destruct (get_touches faults t k' m Hi Hkeyed) as (Ho & _ & Hc & _).
    split_and!; [done | congruence | congruence]. }
  split; [done|]. split.
  - intros faults t.
    destruct (get_of_held faults t k (gets calls m) item Hafter) as (H1 & H2 & H3).
    rewrite Ho, Hc in *. done.
  - intros faults now v given m0. apply set_holds.
Qed.

(** ** Deleting and clearing *)

(** What [delete] leaves when nothing fails in the store, and when the
    request to the store fails. *)
Lemma delete_outcome (faults : Faults) (k : string) (m : Manager) :
  let m' := (delete faults k m).2 in
  options m' = options m ∧
  isInitialized (state m') = isInitialized (state m) ∧
  indexedDB (state m') = indexedDB (state m) ∧
  memoryCache (state m') =
    (if enableMemoryCache (options m) then base.delete k (memoryCache (state m))
     else memoryCache (state m)) ∧
  (let counted := if enableMemoryCache (options m) then memoryCache (state m) !! k else None in
   itemCount (state m') = itemCount (state m) - (if bool_decide (is_Some counted) then 1 else 0) ∧
   currentSize (state m') = currentSize (state m) - from_option size 0 counted) ∧
  (if indexedDB (state m) && deleteFails faults
   then (delete faults k m).1 = Thrown "delete" ∧ stored m' = stored m
   else (delete faults k m).1 = Ok true ∧
        stored m' = if indexedDB (state m) then base.delete k (stored m) else stored m).
Proof.
  destruct m as [[nm mx dt em ei es ci] [i cs ic lc mc c] b].
  unfold delete, deleteFromIndexedDB, deleteFromServiceWorkerCache. cbn zeta.
  manager_compute.
  destruct em; [destruct (mc !! k) as [item|] eqn:Hl|];
    destruct c; destruct (deleteFails faults); manager_compute;
    destruct es; try destruct (cacheDeleteFails faults); manager_compute;
    rewrite ?Z.sub_0_r; split_and!; try done;
    by rewrite delete_id.
Qed.

(** X16.  [delete] removes the entry of the key from the memory map
    and from the store and leaves the other keys alone; it answers [true], and
    on an initialised manager every later [get] of the key answers [null].
    Unlike [set] and [get] it does not catch a failure of the store: when the
    request to delete fails, [delete] throws, after the entry is gone from
    the memory map and while it is still in the store. *)
Theorem delete_forgets_the_key (faults : Faults) (k : string) (m : Manager) :
  let m' := (delete faults k m).2 in
  (indexedDB (state m) && deleteFails faults = false →
     (delete faults k m).1 = Ok true ∧
     (enableMemoryCache (options m) = true → memoryCache (state m') !! k = None) ∧
     (indexedDB (state m) = true → stored m' !! k = None) ∧
     (∀ k', k' ≠ k →
        memoryCache (state m') !! k' = memoryCache (state m) !! k' ∧
        stored m' !! k' = stored m !! k') ∧
     (isInitialized (state m) = true →
        ∀ later t, (get later t k m').1 = Ok None)) ∧
  (indexedDB (state m) = true → deleteFails faults = true →
     (delete faults k m).1 = Thrown "delete" ∧
     stored m' = stored m ∧
     (enableMemoryCache (options m) = true → memoryCache (state m') !! k = None)).
Proof.
  cbn zeta.
  destruct (delete_outcome faults k m) as (Ho & Hi & Hc & Hm & _ & Hs). cbn zeta in Hs.
  split.
  - intros Hok. rewrite Hok in Hs. destruct Hs as [Hr Hs].
    assert (enableMemoryCache (options m) = true →
            memoryCache (state (delete faults k m).2) !! k = None) as Hgone.
    { intros He. rewrite Hm, He. apply lookup_delete_eq. }
    assert (indexedDB (state m) = true → stored (delete faults k m).2 !! k = None) as Hgone'.
    { intros Hconn. rewrite Hs, Hconn. apply lookup_delete_eq. }
    split_and!; [done | done | done | |].
    + intros k' Hne. rewrite Hm, Hs. split.
      * destruct (enableMemoryCache (options m)); [by rewrite lookup_delete_ne|done].
      * destruct (indexedDB (state m)); [by rewrite lookup_delete_ne|done].
    + intros Hinit later t. rewrite get_after_memoryMiss; [|congruence|].
      * apply getFromStore_none. rewrite Hc.
        destruct (indexedDB (state m)); [right; right; left; by apply Hgone' | by left].
      * unfold memoryMiss. rewrite Ho.
        destruct (enableMemoryCache (options m)); [right; left; by apply Hgone | by left].
  - intros Hconn Hfail. rewrite Hconn, Hfail in Hs. destruct Hs as [Hr Hs].
    split_and!; [done | done |]. intros He. rewrite Hm, He. apply lookup_delete_eq.
Qed.

(** What [clear] leaves. *)
Lemma clear_outcome (faults : Faults) (m : Manager) :
  let m' := (clear faults m).2 in
  options m' = options m ∧
  isInitialized (state m') = isInitialized (state m) ∧
  indexedDB (state m') = indexedDB (state m) ∧
  (enableMemoryCache (options m) = true → memoryCache (state m') = ∅) ∧
  (indexedDB (state m) = true → stored m' = ∅) ∧
  (if enableServiceWorker (options m) && cacheDeleteFails faults
   then (clear faults m).1 = Thrown "caches" ∧
        currentSize (state m') = currentSize (state m) ∧
        itemCount (state m') = itemCount (state m)
   else (clear faults m).1 = Ok true ∧
        currentSize (state m') = 0 ∧ itemCount (state m') = 0 ∧
        (enableServiceWorker (options m) = true → cacheStorage (browser m') = ∅)).
Proof.
  destruct m as [[nm mx dt em ei es ci] [i cs ic lc mc c] b].
  unfold clear. cbn zeta. manager_compute.
  destruct em, c, es; try destruct (cacheDeleteFails faults); manager_compute;
    split_and!; done.
Qed.

(** X17.  [clear] empties the memory map and the store and sets both
    counters to zero; it answers [true], and on an initialised manager every
    later [get] answers [null] for every key.  A failure of the Service Worker
    cache is not caught: [clear] then throws after the memory map and the
    store are emptied, and the counters keep their values. *)
Theorem clear_forgets_everything (faults : Faults) (m : Manager) :
  let m' := (clear faults m).2 in
  (enableMemoryCache (options m) = true → memoryCache (state m') = ∅) ∧
  (indexedDB (state m) = true → stored m' = ∅) ∧
  (isInitialized (state m) = true →
     ∀ later t k, (get later t k m').1 = Ok None) ∧
  (enableServiceWorker (options m) && cacheDeleteFails faults = false →
     (clear faults m).1 = Ok true ∧
     currentSize (state m') = 0 ∧ itemCount (state m') = 0) ∧
  (enableServiceWorker (options m) = true → cacheDeleteFails faults = true →
     (clear faults m).1 = Thrown "caches" ∧
     currentSize (state m') = currentSize (state m) ∧
     itemCount (state m') = itemCount (state m)).
Proof.
  cbn zeta.
  destruct (clear_outcome faults m) as (Ho & Hi & Hc & Hm & Hs & Hr). cbn zeta in Hr.
  split_and!; [done | done | | |].
  - intros Hinit later t k. rewrite get_after_memoryMiss; [|congruence|].
    + apply getFromStore_none. rewrite Hc.
      destruct (indexedDB (state m)); [|by left].
      right; right; left. by rewrite Hs.
    + unfold memoryMiss. rewrite Ho.
      destruct (enableMemoryCache (options m)); [|by left].
      right; left. by rewrite Hm.
  - intros Hok. rewrite Hok in Hr. tauto.
  - intros He Hf. rewrite He, Hf in Hr. exact Hr.
Qed.

(** ** When the database cannot be opened, and when the cache is full *)

(** An initialisation in which the database cannot be opened changes
    nothing and is caught. *)
Lemma ensureInitialized_open_fails (faults : Faults) (m : Manager) :
  isInitialized (state m) = false →
  enableIndexedDB (options m) = true → hasIndexedDB (browser m) = true →
  openFails faults = true →
  ensureInitialized faults m = (Ok tt, m).
Proof.
  intros Hi He Hh Ho.
  destruct m as [[nm mx dt em ei es ci] [i cs ic lc mc c] [hi hs db cst ct]].
  cbn in Hi, He, Hh. subst i ei hi.
  unfold ensureInitialized, init, initIndexedDB. manager_compute. by rewrite Ho.
Qed.

(** What the browser offers is the same. *)
Definition same_platform : relation Manager :=
  λ m m', hasIndexedDB (browser m') = hasIndexedDB (browser m) ∧
          hasServiceWorker (browser m') = hasServiceWorker (browser m).

Global Instance same_platform_preorder : PreOrder same_platform.
Proof.
  split; [by intros m|].
  intros m1 m2 m3 [? ?] [? ?]. unfold same_platform. split; congruence.
Qed.

Lemma same_platform_set (faults : Faults) (now : Z) (k : string) (v : Json.value)
    (given : SetOptions) :
  preserves same_platform (set faults now k v given).
Proof.
  unfold set, ensureInitialized, init, initIndexedDB, initServiceWorkerCache,
    calculateCacheSize, setupCleanupInterval, isStorageFull, makeSpace,
    cleanupExpiredCache, cleanupLowPriorityItems, cleanupOldestItems,
    deleteWhere, index, subtract, storeInIndexedDB, storeInServiceWorkerCache,
    set_records.
  preserves_steps.
  by intros [o st [hi hs [db|] cs ct]].
Qed.

(** A call of [set] on a manager that is not connected leaves the
    records of the store alone. *)
Lemma set_unconnected (faults : Faults) (now : Z) (k : string) (v : Json.value)
    (given : SetOptions) (m : Manager) :
  let m1 := (makeRoom faults now (estimateSize v) (initialised faults m)).2 in
  indexedDB (state m1) = false →
  stored (set faults now k v given m).2 = stored m1.
Proof.
  cbn zeta. unfold set. unfold bind at 1. unfold initialised, makeRoom.
  destruct (ensureInitialized_answers faults m) as [m0 Hm0].
  rewrite Hm0. clear Hm0. cbn [fst snd].
  destruct m0 as [[nm mx dt em ei es ci] [i cs ic lc mc c] b].
  manager_compute.
  set (item := newItem now k v given _).
  change (size item) with (estimateSize v).
  destruct (mx * 1024 * 1024 <? cs + estimateSize v).
  - destruct (makeSpace faults now (estimateSize v) _)
      as [[[]|e] [[nm1 mx1 dt1 em1 ei1 es1 ci1] [i1 cs1 ic1 lc1 mc1 c1] b1]];
      manager_compute; [|done].
    intros ->.
    destruct em1, es1, (String.eqb (type item) "image"), (String.eqb (type item) "html"),
      (cachePutFails faults); manager_compute; done.
  - intros ->.
    destruct em, es, (String.eqb (type item) "image"), (String.eqb (type item) "html"),
      (cachePutFails faults); manager_compute; done.
Qed.

(** X18.  When the database cannot be opened, [set] still answers
    [true]: the failed initialisation is caught, the manager stays
    uninitialised and unconnected, nothing reaches the store, and the entry is
    kept in the memory map only.  With the memory tier enabled a later [get]
    finds it there; with the memory tier disabled nothing was stored at all,
    and a [get] for which the database still cannot be opened answers
    [null]. *)
Theorem set_without_database (faults : Faults) (now : Z) (k : string)
    (v : Json.value) (given : SetOptions) (m : Manager) :
  isInitialized (state m) = false →
  indexedDB (state m) = false →
  enableIndexedDB (options m) = true → hasIndexedDB (browser m) = true →
  openFails faults = true →
  (isStorageFull (estimateSize v) m).1 = Ok false →
  let m' := (set faults now k v given m).2 in
  let written := newItem now k v given m in
  (set faults now k v given m).1 = Ok true ∧
  isInitialized (state m') = false ∧
  indexedDB (state m') = false ∧
  stored m' = stored m ∧
  memoryCache (state m') =
    (if enableMemoryCache (options m) then <[k := written]> (memoryCache (state m))
     else memoryCache (state m)) ∧
  itemCount (state m') = itemCount (state m) + 1 ∧
  (∀ later t, openFails later = true →
     (get later t k m').1 =
       if enableMemoryCache (options m) && negb (isExpired t written)
       then Ok (Some v) else Ok None).
Proof.
  intros Hi Hc He Hh Ho Hfull. cbn zeta.
  pose proof (set_outcome faults now k v given m) as Hset. cbn zeta in Hset.
  unfold initialised in Hset.
  rewrite (ensureInitialized_open_fails faults m Hi He Hh Ho) in Hset. cbn [snd] in Hset.
  change (size (newItem now k v given m)) with (estimateSize v) in Hset.
  rewrite (makeRoom_not_full faults now (estimateSize v) m Hfull) in Hset.
  cbn [fst snd] in Hset. rewrite Hc in Hset. cbn [andb] in Hset.
  destruct Hset as (Hr & Hopt & Hinit & Hconn & Hmem & _ & _ & Hcount).
  assert (stored (set faults now k v given m).2 = stored m) as Hstored.
  { pose proof (set_unconnected faults now k v given m) as Hs. cbn zeta in Hs.
    unfold initialised in Hs.
    rewrite (ensureInitialized_open_fails faults m Hi He Hh Ho) in Hs. cbn [snd] in Hs.
    rewrite (makeRoom_not_full faults now (estimateSize v) m Hfull) in Hs.
    by apply Hs. }
  split_and!; [done | congruence | congruence | done | done | done |].
  intros later t Ho'.
  set (m' := (set faults now k v given m).2) in *.
  assert (get later t k m' =
          (let* withMemory := read (λ m, enableMemoryCache (options m)) in
           let* memoryItem :=
             read (λ m, if withMemory then memoryCache (state m) !! k else None) in
           match memoryItem with
           | Some item =>
               if negb (isExpired t item) then
                 modify_state
                   (λ st, set_memoryCache (<[k := accessed t item]> (memoryCache st)) st) ;;;
                 ret (Some (value item))
               else getFromStore later t k
           | None => getFromStore later t k
           end) m') as ->.
  { unfold get. unfold bind at 1.
    destruct (same_platform_set faults now k v given m) as [Hplatform _].
    fold m' in Hplatform.
    rewrite (ensureInitialized_open_fails later m') by congruence. done. }
  unfold bind at 1, read at 1. unfold bind at 1, read at 1. rewrite Hopt, Hmem.
  destruct (enableMemoryCache (options m)) eqn:Hem; cbn [andb].
  - rewrite lookup_insert_eq. destruct (isExpired t (newItem now k v given m)) eqn:Hx;
      cbn [negb]; [|done].
    apply getFromStore_none. left. congruence.
  - apply getFromStore_none. left. congruence.
Qed.

Lemma bind_ok {A B : Type} (c : M A) (f : A → M B) (m m' : Manager) (a : A) :
  c m = (Ok a, m') → bind c f m = f a m'.
Proof. intros H. unfold bind. by rewrite H. Qed.

Lemma bind_thrown {A B : Type} (c : M A) (f : A → M B) (m m' : Manager) (e : string) :
  c m = (Thrown e, m') → bind c f m = (Thrown e, m').
Proof. intros H. unfold bind. by rewrite H. Qed.

(** The items that [cleanupExpiredCache] drops at the time [now]: from
    the memory map those that are expired, from the store those whose time
    stamp is at least the default time to live in the past. *)
Definition expiredInMemory (now : Z) (m : Manager) : gmap string CacheItem :=
  if enableMemoryCache (options m)
  then filter (λ kv, isExpired now kv.2 = true) (memoryCache (state m))
  else ∅.

Definition oldInStore (now : Z) (m : Manager) : gmap string CacheItem :=
  if indexedDB (state m)
  then filter (λ kv, (timestamp kv.2 <=? now - defaultTTL (options m)) = true) (stored m)
  else ∅.

(** What [cleanupExpiredCache] answers and leaves when the store, if
    connected, has its [timestamp] index and its cursor works. *)
Lemma cleanupExpiredCache_outcome (faults : Faults) (now : Z) (m : Manager) :
  (indexedDB (state m) = true →
     Json.includes (storeIndexes m) "timestamp" = true ∧ cursorFails faults = false) →
  let cleanedCount := count (expiredInMemory now m) + count (oldInStore now m) in
  let cleanedSize := totalSize (expiredInMemory now m) + totalSize (oldInStore now m) in
  let m' := (cleanupExpiredCache faults now m).2 in
  (cleanupExpiredCache faults now m).1 = Ok (cleanedCount, cleanedSize) ∧
  options m' = options m ∧
  isInitialized (state m') = isInitialized (state m) ∧
  indexedDB (state m') = indexedDB (state m) ∧
  storeIndexes m' = storeIndexes m ∧
  memoryCache (state m') =
    (if enableMemoryCache (options m)
     then filter (λ kv, isExpired now kv.2 = false) (memoryCache (state m))
     else memoryCache (state m)) ∧
  stored m' =
    (if indexedDB (state m)
     then filter (λ kv, (timestamp kv.2 <=? now - defaultTTL (options m)) = false) (stored m)
     else stored m) ∧
  itemCount (state m') = itemCount (state m) - cleanedCount ∧
  currentSize (state m') = currentSize (state m) - cleanedSize ∧
  lastCleanup (state m') = Some now.
Proof.
  intros Hstore. cbn zeta.
  destruct m as [[nm mx dt em ei es ci] [i cs ic lc mc c] [hi hs db cst ct]].
  unfold cleanupExpiredCache, deleteWhere, index, subtract, expiredInMemory, oldInStore.
  destruct c.
  - destruct (Hstore eq_refl) as [Hidx Hcur]. clear Hstore.
    destruct db as [[recs idx]|].
    + change (Json.includes idx "timestamp" = true) in Hidx.
      unfold storeIndexes. cbn [browser database indexes].
      destruct em; manager_compute; rewrite Hidx, Hcur; manager_compute;
        split_and!; done.
    + change (Json.includes [] "timestamp" = true) in Hidx. done.
  - clear Hstore. unfold storeIndexes.
    destruct em; manager_compute; rewrite ?Z.add_0_r; split_and!; done.
Qed.

(** The store has the indexes that [initIndexedDB] creates with it. *)
Definition createdIndexes (m : Manager) : Prop :=
  storeIndexes m = ["timestamp"; "size"; "type"].

Lemma cleanupLowPriorityItems_throws (faults : Faults) (m : Manager) :
  indexedDB (state m) = true → createdIndexes m →
  cleanupLowPriorityItems faults m = (Thrown "NotFoundError", m).
Proof.
  intros Hc Hidx. unfold cleanupLowPriorityItems, index.
  unfold bind at 1, read at 1. rewrite Hc. cbn [negb].
  unfold bind at 1. unfold bind at 1, read at 1. by rewrite Hidx.
Qed.

(** X19.  A full cache refuses what is new.  When the manager is
    connected to a store with the indexes that [initIndexedDB] creates, and
    the cache is full and still above 70 % of its bound once the expired
    entries are dropped, [set] answers [false] and writes nothing: the step
    that should drop the entries of low priority asks the store for an index
    [priority], which was never created, and the error is caught by [set].
    The manager is left as [cleanupExpiredCache] left it. *)
Theorem full_cache_refuses (faults : Faults) (now : Z) (k : string)
    (v : Json.value) (given : SetOptions) (m : Manager) :
  isInitialized (state m) = true →
  indexedDB (state m) = true →
  createdIndexes m →
  cursorFails faults = false →
  0 ≤ maxSizeMB (options m) →
  (isStorageFull (estimateSize v) m).1 = Ok true →
  aboveTarget (estimateSize v) (cleanupExpiredCache faults now m).2 = true →
  set faults now k v given m = (Ok false, (cleanupExpiredCache faults now m).2).
Proof.
  intros Hi Hc Hidx Hcur Hmax Hfull Habove.
  assert (Json.includes (storeIndexes m) "timestamp" = true) as Hts by (by rewrite Hidx).
  destruct (cleanupExpiredCache_outcome faults now m (λ _, conj Hts Hcur))
    as (Hr & Ho & _ & Hc' & Hidx' & _).
  cbn zeta in *.
  destruct (cleanupExpiredCache faults now m) as [r cleaned] eqn:Hclean.
  cbn [fst snd] in *. subst r.
  assert (aboveTarget (estimateSize v) m = true) as Hm.
  { unfold isStorageFull, read in Hfull. cbn [fst] in Hfull. injection Hfull as Hfull.
    apply Z.ltb_lt in Hfull. unfold aboveTarget. apply Z.ltb_lt. lia. }
  assert (makeSpace faults now (estimateSize v) m = (Thrown "NotFoundError", cleaned))
    as Hspace.
  { unfold makeSpace. unfold bind at 1, read at 1. rewrite Hm. cbn [negb].
    rewrite (bind_ok _ _ m cleaned _ Hclean).
    unfold bind at 1, read at 1. rewrite Habove.
    apply bind_thrown. unfold when. apply cleanupLowPriorityItems_throws.
    - congruence.
    - unfold createdIndexes. congruence. }
  unfold set. unfold bind at 1. rewrite ensureInitialized_ready by done.
  unfold bind at 1, read at 1. unfold try_catch.
  change (size (newItem now k v given m)) with (estimateSize v).
  unfold bind at 1. unfold isStorageFull, read in Hfull |- *. cbn [fst] in Hfull.
  injection Hfull as ->. unfold when at 1.
  by rewrite (bind_thrown _ _ m cleaned _ Hspace).
Qed.

(** X20.  [cleanupExpiredCache] judges the two tiers by different
    clocks.  From the memory map it drops exactly the entries that are
    expired by their own time to live; from the store it drops exactly the
    records whose time stamp is at least the default time to live in the
    past, whatever their own time to live is.  So a record with a longer time
    to live is dropped from the store while it is still valid and still in
    the memory map.  The counters go down by what was dropped from the memory
    map plus what was dropped from the store, so an entry dropped from both is
    counted twice. *)
Theorem cleanup_uses_two_clocks (faults : Faults) (now : Z) (m : Manager) :
  (indexedDB (state m) = true →
     Json.includes (storeIndexes m) "timestamp" = true ∧ cursorFails faults = false) →
  let m' := (cleanupExpiredCache faults now m).2 in
  let dropped := count (expiredInMemory now m) + count (oldInStore now m) in
  (cleanupExpiredCache faults now m).1 =
    Ok (dropped, totalSize (expiredInMemory now m) + totalSize (oldInStore now m)) ∧
  itemCount (state m') = itemCount (state m) - dropped ∧
  lastCleanup (state m') = Some now ∧
  (enableMemoryCache (options m) = true →
     ∀ k item, memoryCache (state m') !! k = Some item ↔
               memoryCache (state m) !! k = Some item ∧ isExpired now item = false) ∧
  (indexedDB (state m) = true →
     ∀ k item, stored m' !! k = Some item ↔
               stored m !! k = Some item ∧
               now - defaultTTL (options m) < timestamp item) ∧
  (enableMemoryCache (options m) = true → indexedDB (state m) = true →
     ∀ k item, memoryCache (state m) !! k = Some item → stored m !! k = Some item →
       defaultTTL (options m) ≤ now - timestamp item ≤ ttl item →
       memoryCache (state m') !! k = Some item ∧ stored m' !! k = None).
Proof.
  intros Hstore. cbn zeta.
  destruct (cleanupExpiredCache_outcome faults now m Hstore)
    as (Hr & _ & _ & _ & _ & Hm & Hs & Hcount & _ & Hlast).
  cbn zeta in *.
  assert (enableMemoryCache (options m) = true →
          ∀ k item, memoryCache (state (cleanupExpiredCache faults now m).2) !! k = Some item ↔
                    memoryCache (state m) !! k = Some item ∧ isExpired now item = false)
    as Hmem.
  { intros He k item. rewrite Hm, He, map_lookup_filter_Some. done. }
  assert (indexedDB (state m) = true →
          ∀ k item, stored (cleanupExpiredCache faults now m).2 !! k = Some item ↔
                    stored m !! k = Some item ∧
                    now - defaultTTL (options m) < timestamp item) as Hsto.
  { intros Hc k item. rewrite Hs, Hc, map_lookup_filter_Some. cbn [snd].
    rewrite Z.leb_gt. done. }
  split_and!; [done..|].
  intros He Hc k item Hk Hk' [Hold Hvalid]. split.
  - apply Hmem; [done|]. split; [done|]. unfold isExpired. apply Z.ltb_ge. lia.
  - destruct (stored (cleanupExpiredCache faults now m).2 !! k) as [item'|] eqn:Hl; [|done].
    apply Hsto in Hl as [Hl Hyoung]; [|done]. assert (item' = item) as -> by congruence. lia.
Qed.

(** ** The counters, and what [destroy] leaves *)

(** X21.  [delete] takes an entry off the counters only when it finds
    it in the memory map.  After a [set] on an initialised cache with room,
    a [delete] of the key brings both counters back when the memory tier is
    enabled, and leaves them one entry too high when it is disabled.  When
    the key was written twice before, one [delete] takes off the second write
    only: no entry of the key is left, and the counters stay above by the
    first write. *)
Theorem delete_takes_one_count_off (faults later : Faults) (now : Z) (k : string)
    (v : Json.value) (given : SetOptions) (m : Manager) :
  isInitialized (state m) = true →
  (isStorageFull (estimateSize v) m).1 = Ok false →
  (set faults now k v given m).1 = Ok true →
  let m1 := (set faults now k v given m).2 in
  let m2 := (delete later k m1).2 in
  (enableMemoryCache (options m) = true →
     itemCount (state m2) = itemCount (state m) ∧
     currentSize (state m2) = currentSize (state m)) ∧
  (enableMemoryCache (options m) = false →
     itemCount (state m2) = itemCount (state m) + 1 ∧
     currentSize (state m2) = currentSize (state m) + estimateSize v) ∧
  (enableMemoryCache (options m) = true →
     ∀ faults2 now2 v2 given2,
       (isStorageFull (estimateSize v2) m1).1 = Ok false →
       (set faults2 now2 k v2 given2 m1).1 = Ok true →
       let m3 := (delete later k (set faults2 now2 k v2 given2 m1).2).2 in
       memoryCache (state m3) !! k = None ∧
       itemCount (state m3) = itemCount (state m) + 1 ∧
       currentSize (state m3) = currentSize (state m) + estimateSize v).
Proof.
  intros Hi Hroom Hok. cbn zeta.
  destruct (set_true faults now k v given m Hok) as (Ho & Hi1 & _ & Hm & _ & Hsize & Hcount).
  cbn zeta in *. rewrite (initialised_ready faults m Hi) in *.
  rewrite (makeRoom_not_full faults now (estimateSize v) m Hroom) in *. cbn [snd] in *.
  set (m1 := (set faults now k v given m).2) in *.
  destruct (delete_outcome later k m1) as (_ & _ & _ & _ & [Hc2 Hs2] & _). cbn zeta in *.
  rewrite Ho, Hm in Hc2, Hs2. split_and!.
  - intros He. rewrite He, lookup_insert_eq in Hc2, Hs2.
    rewrite bool_decide_eq_true_2 in Hc2 by eauto.
    cbn [from_option size newItem] in Hs2. split; lia.
  - intros He. rewrite He in Hc2, Hs2.
    assert (memoryCache (state m) !! k = memoryCache (state m) !! k) as _ by done.
    cbn [from_option] in Hs2.
    rewrite bool_decide_eq_false_2 in Hc2 by apply is_Some_None. split; lia.
  - intros He faults2 now2 v2 given2 Hroom2 Hok2.
    destruct (set_true faults2 now2 k v2 given2 m1 Hok2)
      as (Ho' & _ & _ & Hm' & _ & Hsize' & Hcount').
    cbn zeta in *. rewrite (initialised_ready faults2 m1) in * by congruence.
    rewrite (makeRoom_not_full faults2 now2 (estimateSize v2) m1 Hroom2) in *.
    cbn [snd] in *.
    set (m2 := (set faults2 now2 k v2 given2 m1).2) in *.
    destruct (delete_outcome later k m2) as (_ & _ & _ & Hm3 & [Hc3 Hs3] & _).
    cbn zeta in *. rewrite Ho', Ho, He in *. rewrite Hm' in Hm3, Hc3, Hs3.
    rewrite lookup_insert_eq in Hc3, Hs3.
    rewrite bool_decide_eq_true_2 in Hc3 by eauto.
    cbn [from_option size newItem] in Hs3.
    split_and!; [|lia|lia]. rewrite Hm3. apply lookup_delete_eq.
Qed.

(** An initialisation in which nothing fails. *)
Lemma ensureInitialized_connects (faults : Faults) (m : Manager) :
  isInitialized (state m) = false →
  enableIndexedDB (options m) = true → hasIndexedDB (browser m) = true →
  openFails faults = false → countFails faults = false →
  let m' := (ensureInitialized faults m).2 in
  isInitialized (state m') = true ∧
  indexedDB (state m') = true ∧
  options m' = options m ∧
  memoryCache (state m') = memoryCache (state m) ∧
  stored m' = stored m ∧
  cleanupTimers (browser m') = S (cleanupTimers (browser m)).
Proof.
  intros Hi He Hh Ho Hcount. cbn zeta.
  destruct m as [[nm mx dt em ei es ci] [i cs ic lc mc c] [hi hs db cst ct]].
  cbn in Hi, He, Hh. subst i ei hi.
  unfold ensureInitialized, init, initIndexedDB, initServiceWorkerCache,
    calculateCacheSize, setupCleanupInterval.
  manager_compute. rewrite Ho. manager_compute.
  destruct es, hs, (registerFails faults); manager_compute;
    rewrite ?Hcount; manager_compute;
    destruct em; manager_compute; rewrite ?Hcount; manager_compute;
    destruct db as [[recs idx]|]; done.
Qed.

(** X22.  [destroy] empties the memory map and drops the connection,
    and that is all: the records of the store stay, and the cleanup interval
    is not cleared.  So after [destroy] a [get] initialises the manager
    again, which arms a second cleanup interval beside the first, and answers
    the value of an entry written before the [destroy] from the store. *)
Theorem destroy_keeps_the_store (faults : Faults) (t : Z) (k : string)
    (item : CacheItem) (m : Manager) :
  holds m k item →
  indexedDB (state m) = true →
  enableIndexedDB (options m) = true → hasIndexedDB (browser m) = true →
  openFails faults = false → countFails faults = false →
  getFails faults = false → putFails faults = false →
  isExpired t item = false →
  let destroyed := destroy m in
  memoryCache (state destroyed) = ∅ ∧
  isInitialized (state destroyed) = false ∧
  indexedDB (state destroyed) = false ∧
  stored destroyed = stored m ∧
  cleanupTimers (browser destroyed) = cleanupTimers (browser m) ∧
  (get faults t k destroyed).1 = Ok (Some (value item)) ∧
  cleanupTimers (browser (get faults t k destroyed).2) = S (cleanupTimers (browser m)).
Proof.
  intros (_ & Hkeyed & _ & Hstore) Hc He Hh Ho Hcount Hg Hp Hx. cbn zeta.
  destruct (Hstore Hc) as (item' & Hl & Hsame).
  assert (isExpired t item' = false) as Hx' by (by rewrite (isExpired_sameEntry t item item')).
  destruct (ensureInitialized_connects faults (destroy m)) as (Hi & Hc' & Ho' & Hm & Hs & Ht);
    [done..|]. cbn zeta in *.
  assert (get faults t k (destroy m)
          = getFromStore faults t k (ensureInitialized faults (destroy m)).2) as Hget.
  { unfold get. unfold bind at 1.
    destruct (ensureInitialized_answers faults (destroy m)) as [m0 Hm0].
    rewrite Hm0 in *. cbn [snd] in *.
    pose proof (get_after_memoryMiss faults t k m0 Hi) as Hget.
    unfold get in Hget. unfold bind at 1 in Hget.
    rewrite (ensureInitialized_ready faults m0 Hi) in Hget.
    apply Hget. right; left. by rewrite Hm. }
  set (m0 := (ensureInitialized faults (destroy m)).2) in *.
  assert (stored m0 !! k = Some item') as Hl0 by (by rewrite Hs).
  split_and!; [done..| |].
  - rewrite Hget, (getFromStore_hit faults t k m0 item'); try done.
    by destruct Hsame as (-> & _).
  - rewrite Hget, (getFromStore_found faults t k m0 item') by done.
    rewrite Hp. change (cleanupTimers (browser (destroy m))) with (cleanupTimers (browser m)) in Ht.
    rewrite <- Ht. generalize (<[key item' := accessed t item']> (stored m0)).
    generalize m0. intros [o0 st0 b0] r. cbn [options].
    destruct (enableMemoryCache o0); reflexivity.
Qed.

End CacheManagerFacts.

(** * Properties of the state store *)

Section RealTimeStateFacts.
Import Js RealTimeState.
Context {State Action : Type}.
Context (reduce : Action → State → Z → Result State).
Context (stamp : Z → State → State).

Local Abbreviation Store := (RealTimeState.Store State Action).
Local Abbreviation Entry := (RealTimeState.Entry State Action).

(** The history is within the bound of 50 that the constructor sets. *)
Definition bounded (s : Store) : Prop :=
  maxHistorySize s = 50%nat ∧ (length (history s) ≤ 50)%nat.

Lemma slice_last_length (n : nat) (l : list Entry) :
  (n < length l)%nat → n ≠ 0%nat → length (slice_last n l) = n.
Proof.
  intros Hlt Hn. destruct n as [|n]; [done|]. unfold slice_last.
  rewrite length_drop. lia.
Qed.

Lemma record_length (now : Z) (processed : Action) (newState : State) (s : Store) :
  bounded s → (length (record now processed newState s) ≤ 50)%nat.
Proof.
  intros [Hmax Hlen]. unfold record. cbn zeta. rewrite Hmax.
  match goal with
  | |- context [Nat.ltb 50 (length ?l)] =>
      destruct (Nat.ltb_spec 50 (length l)) as [Hlt|Hge]; [|done]
  end.
  rewrite slice_last_length; [done | done | done].
Qed.

Lemma dispatch_bounded (argument : Argument Action) (now : Z) (s : Store) :
  bounded s → bounded (dispatch reduce stamp argument now s).2.
Proof.
  intros Hb. unfold dispatch.
  destruct (isDispatching s); [done|].
  destruct argument as [| |action]; [done | done |].
  destruct (runMiddleware _ _ _) as [processed|e]; [|done].
  destruct (reduce _ _ _) as [reduced|e]; [|done].
  split; [apply Hb|]. simpl. by apply record_length.
Qed.

Lemma resetState_bounded (newState : option State) (now : Z) (s : Store) :
  bounded s → bounded (resetState stamp newState now s).
Proof. intros [Hmax _]. split; [done | simpl; lia]. Qed.

Lemma timeTravelTo_bounded (index : Z) (s : Store) :
  bounded s → bounded (timeTravelTo index s).
Proof.
  intros Hb. unfold timeTravelTo.
  destruct (_ && _); [|done]. by destruct (history s !! _).
Qed.

Lemma run_bounded (calls : list (Call State Action * Z)) (s : Store) :
  bounded s → bounded (run reduce stamp s calls).
Proof.
  revert s. induction calls as [|[c now] calls IH]; intros s Hb; [done|].
  simpl. apply IH. unfold call. simpl. destruct c.
  - by apply dispatch_bounded.
  - by apply resetState_bounded.
  - by apply timeTravelTo_bounded.
Qed.

(** Between two calls no dispatch is under way. *)
Lemma run_idle (calls : list (Call State Action * Z)) (s : Store) :
  isDispatching s = false → isDispatching (run reduce stamp s calls) = false.
Proof.
  revert s. induction calls as [|[c now] calls IH]; intros s Hs; [done|].
  cbn [run foldl]. apply IH. unfold call. cbn [fst snd].
  destruct c as [argument|newState|index].
  - unfold dispatch. rewrite Hs. destruct argument; try done.
    destruct (runMiddleware _ _ _); [|done]. by destruct (reduce _ _ _).
  - done.
  - unfold timeTravelTo. destruct (_ && _); [|done]. by destruct (history s !! _).
Qed.

(** C9.  After any sequence of calls of [dispatch], [resetState] and
    [timeTravelTo] on a store the history holds at most 50 records.  A
    [dispatch] that goes through makes one record of the processed action, the
    resulting state and the time, and puts it last; the list stays as it is
    up to 50 records, and beyond them its oldest records are dropped so that
    the 50 most recent ones are kept; [resetState] leaves one record and
    [timeTravelTo] leaves the history alone. *)
Theorem history_bounded (initial : State) (restored : option State)
    (chain : list (Action → State → Result Action)) (start : Z)
    (calls : list (Call State Action * Z)) :
  let s := run reduce stamp (constructor initial restored chain start) calls in
  (length (history s) ≤ 50)%nat ∧
  (∀ action now processed reduced,
     runMiddleware (middleware s) action (current s) = Ok processed →
     reduce processed (current s) now = Ok reduced →
     let made := {| timestamp := now; action := Dispatched processed;
                    state := stamp now reduced |} in
     let after := dispatch reduce stamp (Plain action) now s in
     after.1 = Ok (stamp now reduced) ∧
     current after.2 = stamp now reduced ∧
     history after.2 =
       drop (length (history s ++ [made]) - 50) (history s ++ [made])%list ∧
     last (history after.2) = Some made ∧
     ((length (history s) < 50)%nat →
        history after.2 = (history s ++ [made])%list) ∧
     (length (history s) = 50%nat →
        history after.2 = (drop 1 (history s) ++ [made])%list)) ∧
  (∀ newState now, length (history (resetState stamp newState now s)) = 1%nat) ∧
  (∀ index, history (timeTravelTo index s) = history s).
Proof.
  cbn zeta.
  set (s := run reduce stamp (constructor initial restored chain start) calls).
  assert (bounded s) as [Hmax Hlen].
  { apply run_bounded. split; [done | simpl; lia]. }
  assert (isDispatching s = false) as Hidle by (by apply run_idle).
  split_and!.
  - done.
  - intros action now processed reduced Hmw Hred. cbn zeta.
    unfold dispatch. rewrite Hidle, Hmw, Hred. simpl.
    set (made := {| timestamp := now; action := Dispatched processed;
                    state := stamp now reduced |}).
    assert (record now processed (stamp now reduced) s =
            drop (length (history s ++ [made]) - 50) (history s ++ [made])%list)
      as Hrec.
    { unfold record. cbn zeta. fold made. rewrite Hmax.
      destruct (Nat.ltb_spec 50 (length (history s ++ [made]))) as [Hlt|Hge]; [done|].
      replace (length (history s ++ [made]) - 50)%nat with 0%nat by lia. done. }
    rewrite Hrec. rewrite length_app. simpl.
    split_and!; [done | done | done | | |].
    + rewrite drop_app_le by lia. apply last_snoc.
    + intros Hlt. by replace (length (history s) + 1 - 50)%nat with 0%nat by lia.
    + intros Heq. rewrite Heq. simpl. by rewrite drop_app_le by lia.
  - done.
  - intros index. unfold timeTravelTo.
    destruct (_ && _); [|done]. by destruct (history s !! _).
Qed.

End RealTimeStateFacts.

(** * Properties of the shared state tree *)

Section StateTreeFacts.
Import Js StateTree.
Context {Average : Type} (zero : Average) (average : Average → Z → Val → Average).

Local Abbreviation Store := (StateTree.Store Average).
Local Abbreviation Heap := (StateTree.Heap Average).
Local Abbreviation Tree := (StateTree.Tree Average).
Local Abbreviation M := (@StateTree.M Average).

(** The six references of a state object. *)
Definition refs (top : Top) : loc * loc * loc * loc * loc * loc :=
  (polling top, data top, user top, cache top, performance top, ui top).

(** The six objects as a reader of a state finds them. *)
Definition nested (t : Tree) :=
  (treePolling t, treeData t, treeUser t, treeCache t, treePerformance t, treeUi t).

(** The state that a store shows. *)
Definition shown (s : Store) : Tree := read (heap s) (getState s).

(** The six objects of the state are in the heap. *)
Definition allocated (h : Heap) (top : Top) : Prop :=
  is_Some (pollingAt h !! polling top) ∧ is_Some (dataAt h !! data top) ∧
  is_Some (userAt h !! user top) ∧ is_Some (cacheAt h !! cache top) ∧
  is_Some (performanceAt h !! performance top) ∧ is_Some (uiAt h !! ui top).

(** The state, the initial state and every record of the history refer to
    the same six objects; nothing is being dispatched and there is no
    middleware. *)
Definition sharing (s : Store) : Prop :=
  refs (initialState s) = refs (state s) ∧
  Forall (λ e, refs (entryState e) = refs (state s)) (history s) ∧
  allocated (heap s) (state s) ∧
  isDispatching s = false ∧ middleware s = [] ∧ maxHistorySize s = 50%nat.

Lemma nested_refs (h : Heap) (a b : Top) :
  refs a = refs b → nested (read h a) = nested (read h b).
Proof.
  unfold refs, nested, read. cbn. intros [=-> -> -> -> -> ->]. reflexivity.
Qed.

(** A computation that changes no reference: the objects that were in the
    heap are in it afterwards. *)
Definition same_objects (h h' : Heap) : Prop :=
  (∀ l, is_Some (pollingAt h !! l) → is_Some (pollingAt h' !! l)) ∧
  (∀ l, is_Some (dataAt h !! l) → is_Some (dataAt h' !! l)) ∧
  (∀ l, is_Some (userAt h !! l) → is_Some (userAt h' !! l)) ∧
  (∀ l, is_Some (cacheAt h !! l) → is_Some (cacheAt h' !! l)) ∧
  (∀ l, is_Some (performanceAt h !! l) → is_Some (performanceAt h' !! l)) ∧
  (∀ l, is_Some (uiAt h !! l) → is_Some (uiAt h' !! l)).

Lemma same_objects_refl (h : Heap) : same_objects h h.
Proof. repeat split; auto. Qed.

Lemma same_objects_trans (h1 h2 h3 : Heap) :
  same_objects h1 h2 → same_objects h2 h3 → same_objects h1 h3.
Proof.
  intros (?&?&?&?&?&?) (?&?&?&?&?&?). repeat split; auto.
Qed.

Lemma same_objects_allocated (h h' : Heap) (top : Top) :
  same_objects h h' → allocated h top → allocated h' top.
Proof.
  intros (?&?&?&?&?&?) (?&?&?&?&?&?). repeat split; auto.
Qed.

Definition keeps {A : Type} (c : M A) : Prop := ∀ h, same_objects h (c h).2.

Lemma keeps_ret {A : Type} (a : A) : keeps (ret a).
Proof. intros h. apply same_objects_refl. Qed.

Lemma keeps_throw {A : Type} (e : string) : keeps (throw (A := A) e).
Proof. intros h. apply same_objects_refl. Qed.

Lemma keeps_bind {A B : Type} (c : M A) (k : A → M B) :
  keeps c → (∀ a, keeps (k a)) → keeps (bind c k).
Proof.
  intros Hc Hk h. unfold bind. specialize (Hc h).
  destruct (c h) as [[a|e] h']; cbn in *; [|done].
  eapply same_objects_trans; [exact Hc|apply Hk].
Qed.

Lemma keeps_payloadField (action : Action) (name : string) :
  keeps (payloadField action name).
Proof.
  unfold payloadField. destruct (payload action) as [[]|];
    first [apply keeps_ret | apply keeps_throw].
Qed.

Lemma insert_keeps {X : Type} (m : gmap loc X) (l l' : loc) (x : X) :
  is_Some (m !! l') → is_Some (<[l := x]> m !! l').
Proof.
  intros H. destruct (decide (l = l')) as [->|Hne].
  - rewrite lookup_insert_eq. eauto.
  - rewrite lookup_insert_ne; done.
Qed.

Lemma keeps_writePolling l f : keeps (writePolling l f).
Proof.
  intros h. unfold writePolling. destruct (pollingAt h !! l); cbn;
    [|apply same_objects_refl].
  repeat split; auto. intros l'. apply insert_keeps.
Qed.

Lemma keeps_writeData l f : keeps (writeData l f).
Proof.
  intros h. unfold writeData. destruct (dataAt h !! l); cbn;
    [|apply same_objects_refl].
  repeat split; auto. intros l'. apply insert_keeps.
Qed.

Lemma keeps_writeUser l f : keeps (writeUser l f).
Proof.
  intros h. unfold writeUser. destruct (userAt h !! l); cbn;
    [|apply same_objects_refl].
  repeat split; auto. intros l'. apply insert_keeps.
Qed.

Lemma keeps_writeCache l f : keeps (writeCache l f).
Proof.
  intros h. unfold writeCache. destruct (cacheAt h !! l); cbn;
    [|apply same_objects_refl].
  repeat split; auto. intros l'. apply insert_keeps.
Qed.

Lemma keeps_writePerformance l f : keeps (writePerformance (Average := Average) l f).
Proof.
  intros h. unfold writePerformance. destruct (performanceAt h !! l); cbn;
    [|apply same_objects_refl].
  repeat split; auto. intros l'. apply insert_keeps.
Qed.

Lemma keeps_writeUi l f : keeps (writeUi l f).
Proof.
  intros h. unfold writeUi. destruct (uiAt h !! l); cbn;
    [|apply same_objects_refl].
  repeat split; auto. intros l'. apply insert_keeps.
Qed.

Ltac keeps_steps :=
  repeat first
    [ apply keeps_ret | apply keeps_throw | apply keeps_payloadField
    | apply keeps_writePolling | apply keeps_writeData | apply keeps_writeUser
    | apply keeps_writeCache | apply keeps_writePerformance | apply keeps_writeUi
    | apply keeps_bind; [|intros ?] ].

Lemma keeps_reduceCase name action top now :
  keeps (reduceCase average name action top now).
Proof.
  unfold reduceCase.
  repeat match goal with
         | |- keeps (if ?b then _ else _) => destruct b
         end; keeps_steps.
  destruct a as [[]|]; keeps_steps.
  repeat match goal with
         | |- keeps (if ?b then _ else _) => destruct b
         end; keeps_steps.
Qed.

(** The reducer answers the copy of the state it was given, or throws;
    either way the objects stay where they are. *)
Lemma reduce_outcome action top now (h : Heap) :
  ((reduce average action top now h).1 = Ok top ∨
   ∃ e, (reduce average action top now h).1 = Thrown e) ∧
  same_objects h (reduce average action top now h).2.
Proof.
  unfold reduce, bind.
  assert (Hk : ∀ h0, same_objects h0
             ((match type action with
               | Json.VStr name => reduceCase average name action top now
               | _ => ret tt
               end) h0).2).
  { intros h0. destruct (type action); try apply same_objects_refl.
    apply keeps_reduceCase. }
  specialize (Hk h).
  destruct (match type action with
            | Json.VStr name => reduceCase average name action top now
            | _ => ret tt
            end h) as [[[]|e] h']; cbn in *; split; eauto.
Qed.

(** The history that a dispatch leaves. *)
Definition recorded (now : Z) (action : Action) (s : Store) : list Entry :=
  let pushed :=
    (history s ++ [{| entryTimestamp := now; entryAction := Dispatched action;
                      entryState := with_timestamp now (state s) |}])%list in
  if (maxHistorySize s <? length pushed)%nat
  then slice_last (maxHistorySize s) pushed
  else pushed.

(** A dispatch on a store that is not dispatching and has no middleware:
    the reducer has thrown, having left the heap [h], or the state is the
    copy with its new time stamp. *)
Lemma dispatch_plain (action : Action) (now : Z) (s : Store) :
  isDispatching s = false → middleware s = [] →
  dispatch average (Plain action) now s =
    match (reduce average action (state s) now (heap s)).1 with
    | Thrown e =>
        (Thrown e,
         with_isDispatching false
           (with_heap (reduce average action (state s) now (heap s)).2 s))
    | Ok _ =>
        (Ok (with_timestamp now (state s)),
         with_isDispatching false
           (with_history (recorded now action s)
              (with_state (with_timestamp now (state s))
                 (with_heap (reduce average action (state s) now (heap s)).2 s))))
    end.
Proof.
  intros Hidle Hchain. unfold dispatch, recorded. rewrite Hidle, Hchain. cbn [runMiddleware].
  destruct (reduce_outcome action (state s) now (heap s)) as [[Hok|[e He]] _].
  - destruct (reduce average action (state s) now (heap s)) as [r h]. cbn in *. subst r.
    reflexivity.
  - destruct (reduce average action (state s) now (heap s)) as [r h]. cbn in *. subst r.
    reflexivity.
Qed.

Lemma sharing_constructor (online hidden : bool) (now : Z) :
  sharing (constructor zero online hidden now).
Proof.
  unfold sharing, constructor, getDefaultState, allocated. cbn.
  split_and!; try done; try (by repeat constructor);
    rewrite lookup_singleton_eq; eauto.
Qed.

Lemma slice_last_Forall (P : Entry → Prop) (n : nat) (l : list Entry) :
  Forall P l → Forall P (slice_last n l).
Proof.
  intros H. destruct n; [done|]. cbn. by apply Forall_drop.
Qed.

Lemma recorded_Forall (P : Entry → Prop) now action (s : Store) :
  Forall P (history s) →
  P {| entryTimestamp := now; entryAction := Dispatched action;
       entryState := with_timestamp now (state s) |} →
  Forall P (recorded now action s).
Proof.
  intros Hall Hnew. unfold recorded.
  assert (Forall P (history s ++ [{| entryTimestamp := now;
                                     entryAction := Dispatched action;
                                     entryState := with_timestamp now (state s) |}])%list)
    as Hpushed by (apply Forall_app; split; [done|by constructor]).
  destruct (_ <? _)%nat; [by apply slice_last_Forall|done].
Qed.

(** A call keeps the sharing and the references of the state. *)
Lemma sharing_dispatch argument now (s : Store) :
  sharing s →
  sharing (dispatch average argument now s).2 ∧
  refs (state (dispatch average argument now s).2) = refs (state s).
Proof.
  intros (Hinit & Hhist & Halloc & Hidle & Hchain & Hmax).
  destruct argument as [| |action].
  - unfold dispatch. rewrite Hidle. cbn. split; [unfold sharing; split_and!; done|done].
  - unfold dispatch. rewrite Hidle. cbn. split; [unfold sharing; split_and!; done|done].
  - rewrite dispatch_plain by done.
    destruct (reduce_outcome action (state s) now (heap s)) as [_ Hsame].
    destruct (reduce average action (state s) now (heap s)).1; cbn.
    + split; [|done]. unfold sharing. cbn. split_and!; try done.
      * apply recorded_Forall; [exact Hhist|done].
      * by eapply same_objects_allocated.
    + split; [|done]. unfold sharing. cbn. split_and!; try done.
      by eapply same_objects_allocated.
Qed.

Lemma sharing_resetState now (s : Store) :
  sharing s →
  sharing (resetState None now s) ∧
  refs (state (resetState None now s)) = refs (state s).
Proof.
  intros (Hinit & Hhist & Halloc & Hidle & Hchain & Hmax).
  unfold resetState, sharing. cbn. split_and!; try done.
  - by repeat constructor.
  - destruct Halloc as (?&?&?&?&?&?). unfold allocated. cbn.
    unfold refs in Hinit. injection Hinit as -> -> -> -> -> ->. done.
Qed.

Lemma sharing_timeTravelTo index (s : Store) :
  sharing s →
  sharing (timeTravelTo index s) ∧
  refs (state (timeTravelTo index s)) = refs (state s).
Proof.
  intros (Hinit & Hhist & Halloc & Hidle & Hchain & Hmax). unfold timeTravelTo.
  destruct (_ && _); [|split; [unfold sharing; split_and!; done|done]].
  destruct (history s !! Z.to_nat index) as [entry|] eqn:Hentry;
    [|split; [unfold sharing; split_and!; done|done]].
  assert (refs (entryState entry) = refs (state s)) as Href.
  { rewrite Forall_forall in Hhist. apply Hhist. by eapply list_elem_of_lookup_2. }
  split; [|done]. unfold sharing. cbn. split_and!; try done.
  - congruence.
  - eapply Forall_impl; [exact Hhist|]. cbn. intros e He. congruence.
  - destruct Halloc as (?&?&?&?&?&?). unfold allocated.
    unfold refs in Href. injection Href as -> -> -> -> -> ->. done.
Qed.

Lemma sharing_call (s : Store) (c : Call * Z) :
  sharing s →
  sharing (call average s c) ∧ refs (state (call average s c)) = refs (state s).
Proof.
  intros Hs. unfold call. destruct c as [[argument| |index] now]; cbn.
  - by apply sharing_dispatch.
  - by apply sharing_resetState.
  - by apply sharing_timeTravelTo.
Qed.

Lemma sharing_run (s : Store) (calls : list (Call * Z)) :
  sharing s →
  sharing (run average s calls) ∧ refs (state (run average s calls)) = refs (state s).
Proof.
  revert s. induction calls as [|c calls IH]; intros s Hs; [done|].
  unfold run. cbn [foldl].
  destruct (sharing_call s c Hs) as [Hc Href].
  destruct (IH _ Hc) as [Hrun Hrefs]. unfold run in *. split; [done|congruence].
Qed.

(** X23.  Earlier states follow the store.  On a store that is built
    without options, a state that was handed out earlier, and the state of
    every record of the history, show after any further dispatches, calls of
    [resetState()] without a state and time travels the nested objects as
    the state of the store shows them then, and so does the state that
    [timeTravelTo] puts back: the copies share the six objects that the
    reducer writes into.  A call [resetState(newState)] is what ends this:
    after it the store shows the nested objects of [newState]. *)
Theorem earlier_states_follow_the_store (online hidden : bool) (t0 : Z)
    (calls more : list (Call * Z)) :
  let s := run average (constructor zero online hidden t0) calls in
  let s' := run average s more in
  nested (read (heap s') (getState s)) = nested (shown s') ∧
  (∀ e, e ∈ history s' → nested (read (heap s') (entryState e)) = nested (shown s')) ∧
  (∀ index, nested (shown (timeTravelTo index s')) = nested (shown s')) ∧
  (∀ newState now,
     nested (shown (resetState (Some newState) now s')) = nested (read (heap s') newState)).
Proof.
  intros s s'.
  destruct (sharing_run _ calls (sharing_constructor online hidden t0)) as [Hs _].
  fold s in Hs. destruct (sharing_run s more Hs) as [Hs' Href]. fold s' in Hs', Href.
  split_and!.
  - apply nested_refs. unfold getState. done.
  - intros e He. apply nested_refs. destruct Hs' as (_ & Hhist & _).
    rewrite Forall_forall in Hhist. unfold getState. by apply Hhist.
  - intros index. destruct (sharing_timeTravelTo index s' Hs') as [_ Hr].
    unfold shown, getState.
    assert (heap (timeTravelTo index s') = heap s') as ->.
    { unfold timeTravelTo. destruct (_ && _); [|done].
      by destruct (history s' !! Z.to_nat index). }
    by apply nested_refs.
  - intros newState now. reflexivity.
Qed.

Lemma resetState_heap (newState : option Top) now (s : Store) :
  heap (resetState newState now s) = heap s.
Proof. reflexivity. Qed.

(** The heap that the two writes of POLLING_STARTED leave. *)
Lemma reduce_POLLING_STARTED payload top now (h : Heap) x :
  pollingAt h !! polling top = Some x →
  pollingAt (reduce average {| type := Json.VStr "POLLING_STARTED"; payload := payload |}
               top now h).2 !! polling top
    = Some (set_lastPollTime (Some now) (set_isActive true x)) ∧
  (reduce average {| type := Json.VStr "POLLING_STARTED"; payload := payload |}
     top now h).1 = Ok top.
Proof.
  intros Hx. unfold reduce. cbn [type]. unfold reduceCase.
  change (String.eqb "POLLING_STARTED" "POLLING_STARTED") with true. cbv iota.
  unfold bind, writePolling. rewrite Hx. cbn [pollingAt].
  rewrite lookup_insert_eq. cbn [pollingAt fst snd ret].
  rewrite lookup_insert_eq. done.
Qed.

(** X24.  [resetState()] restores the time stamp only.  On a store that is built
    without options, [resetState()] leaves every nested object as it was,
    sets the time stamp and starts the history anew with one record: the
    initial state that it copies shares its six objects with the state.  So
    the polling that a POLLING_STARTED has marked active, and that was not
    active at first, is active after the reset as well. *)
Theorem resetState_keeps_the_nested_state (online hidden : bool) (t0 : Z)
    (calls : list (Call * Z)) (now later : Z) :
  let s := run average (constructor zero online hidden t0) calls in
  let s' := resetState None now s in
  let started :=
    (dispatch average
       (Plain {| type := Json.VStr "POLLING_STARTED"; payload := None |}) now s).2 in
  nested (shown s') = nested (shown s) ∧
  treeTimestamp (shown s') = now ∧
  (entryAction <$> history s') = [Reset] ∧
  isActive <$> treePolling (shown (constructor zero online hidden t0)) = Some false ∧
  isActive <$> treePolling (shown (resetState None later started)) = Some true.
Proof.
  intros s s' started.
  destruct (sharing_run _ calls (sharing_constructor online hidden t0)) as [Hs _].
  fold s in Hs. split_and!.
  - destruct (sharing_resetState now s Hs) as [_ Href]. unfold shown, getState.
    fold s'. rewrite (resetState_heap None now s : heap s' = heap s).
    by apply nested_refs.
  - reflexivity.
  - reflexivity.
  - unfold shown, getState, constructor, getDefaultState, read. cbn.
    by rewrite lookup_singleton_eq.
  - destruct (sharing_dispatch
                (Plain {| type := Json.VStr "POLLING_STARTED"; payload := None |})
                now s Hs) as [Hstarted Hrefs]. fold started in Hstarted, Hrefs.
    destruct (sharing_resetState later started Hstarted) as [_ Href].
    unfold shown, getState, read. cbn [treePolling]. rewrite resetState_heap.
    assert (polling (state (resetState None later started)) = polling (state s)) as ->.
    { unfold refs in Href, Hrefs. congruence. }
    destruct Hs as (_ & _ & Halloc & Hidle & Hchain & _).
    destruct Halloc as ([x Hx] & _).
    destruct (reduce_POLLING_STARTED None (state s) now (heap s) x Hx) as [Hheap Hok].
    unfold started. rewrite dispatch_plain by done. rewrite Hok. cbn [snd heap with_isDispatching with_history with_state with_heap].
    rewrite Hheap. reflexivity.
Qed.

(** The actions whose case of the reducer reads the payload. *)
Definition needsPayload : list string :=
  ["POLLING_FAILED"; "DATA_UPDATED"; "DATA_UPDATE_CHECKED"; "NETWORK_STATUS_CHANGED";
   "VISIBILITY_CHANGED"; "CACHE_UPDATED"; "PERFORMANCE_METRIC_RECORDED";
   "AUTO_REFRESH_TOGGLED"; "THEME_CHANGED"].

Lemma reduce_without_payload name top now (h : Heap) :
  name ∈ needsPayload → name ≠ "POLLING_FAILED" →
  reduce average {| type := Json.VStr name; payload := None |} top now h
    = (Thrown "TypeError", h).
Proof.
  intros Hin Hne. unfold needsPayload in Hin.
  repeat (apply elem_of_cons in Hin as [->|Hin]); try done;
    try (by apply elem_of_nil in Hin); reflexivity.
Qed.

Lemma reduce_POLLING_FAILED_without_payload top now (h : Heap) x :
  pollingAt h !! polling top = Some x →
  (reduce average {| type := Json.VStr "POLLING_FAILED"; payload := None |}
     top now h).1 = Thrown "TypeError" ∧
  pollingAt (reduce average {| type := Json.VStr "POLLING_FAILED"; payload := None |}
               top now h).2 !! polling top
    = Some (set_retryCount (retryCount x + 1) x).
Proof.
  intros Hx. unfold reduce. cbn [type]. unfold reduceCase.
  change (String.eqb "POLLING_FAILED" "POLLING_STARTED") with false.
  change (String.eqb "POLLING_FAILED" "POLLING_STOPPED") with false.
  change (String.eqb "POLLING_FAILED" "POLLING_COMPLETED") with false.
  change (String.eqb "POLLING_FAILED" "POLLING_FAILED") with true. cbv iota.
  unfold bind, writePolling, payloadField. rewrite Hx. cbn.
  by rewrite lookup_insert_eq.
Qed.

(** X25.  A failed dispatch keeps what the reducer wrote.  An action of one
    of the nine types whose case reads the payload, dispatched without a
    payload, throws a TypeError; the state object, the history and the flag
    are as before.  For eight of them the nested objects are as before as
    well; POLLING_FAILED has counted the retry before it reads the payload,
    and the count stays raised. *)
Theorem failed_dispatch_keeps_its_writes (online hidden : bool) (t0 : Z)
    (calls : list (Call * Z)) (name : string) (now : Z) :
  let s := run average (constructor zero online hidden t0) calls in
  let failed :=
    dispatch average (Plain {| type := Json.VStr name; payload := None |}) now s in
  (name ∈ needsPayload →
     failed.1 = Thrown "TypeError" ∧ state failed.2 = state s ∧
     history failed.2 = history s ∧ isDispatching failed.2 = false) ∧
  (name ∈ needsPayload → name ≠ "POLLING_FAILED" → heap failed.2 = heap s) ∧
  (name = "POLLING_FAILED" →
     is_Some (treePolling (shown s)) ∧
     retryCount <$> treePolling (shown failed.2)
       = Z.succ <$> (retryCount <$> treePolling (shown s)) ∧
     treeData (shown failed.2) = treeData (shown s)).
Proof.
  intros s failed.
  destruct (sharing_run _ calls (sharing_constructor online hidden t0)) as [Hs _].
  fold s in Hs. destruct Hs as (_ & _ & Halloc & Hidle & Hchain & _).
  destruct Halloc as ([x Hx] & _).
  assert (Hplain := dispatch_plain {| type := Json.VStr name; payload := None |}
                      now s Hidle Hchain). fold failed in Hplain.
  destruct (reduce_POLLING_FAILED_without_payload (state s) now (heap s) x Hx)
    as [Hthrown Hcount].
  split_and!.
  - intros Hin. destruct (decide (name = "POLLING_FAILED")) as [->|Hne].
    + rewrite Hplain, Hthrown. done.
    + rewrite Hplain, (reduce_without_payload name _ _ _ Hin Hne). done.
  - intros Hin Hne. rewrite Hplain, (reduce_without_payload name _ _ _ Hin Hne). done.
  - intros ->. rewrite Hplain, Hthrown.
    unfold shown, getState, read. cbn [treePolling treeData snd state heap
      with_isDispatching with_heap].
    rewrite Hcount, Hx. split_and!; [eauto|done|].
    unfold reduce. cbn [type]. unfold reduceCase.
    change (String.eqb "POLLING_FAILED" "POLLING_STARTED") with false.
    change (String.eqb "POLLING_FAILED" "POLLING_STOPPED") with false.
    change (String.eqb "POLLING_FAILED" "POLLING_COMPLETED") with false.
    change (String.eqb "POLLING_FAILED" "POLLING_FAILED") with true. cbv iota.
    unfold bind, writePolling, payloadField. rewrite Hx. reflexivity.
Qed.

Lemma reduceCase_unknown name action top now :
  name ∉ knownTypes → reduceCase average name action top now = ret tt.
Proof.
  intros Hnot. unfold reduceCase.
  repeat match goal with
         | |- (if String.eqb name ?k then _ else _) = _ =>
             destruct (String.eqb_spec name k) as [->|_];
               [exfalso; apply Hnot; apply list_elem_of_In; cbn; auto 30|]
         end.
  reflexivity.
Qed.

Lemma slice_last_last (n : nat) (l : list Entry) :
  n ≠ 0%nat → (n < length l)%nat → last (slice_last n l) = last l.
Proof.
  intros Hn Hlt. destruct n as [|n]; [done|]. unfold slice_last.
  rewrite !last_lookup, length_drop, lookup_drop. f_equal. lia.
Qed.

(** X26.  An action that the reducer does not know.  An action whose type is
    none of the twenty-one that the reducer has a case for is dispatched
    without an error: no nested object changes, the state gets the time of
    the dispatch, and the record of the action is the last of the
    history. *)
Theorem unknown_action_marks_the_time_only (online hidden : bool) (t0 : Z)
    (calls : list (Call * Z)) (action : Action) (now : Z) :
  (∀ name, type action = Json.VStr name → name ∉ knownTypes) →
  let s := run average (constructor zero online hidden t0) calls in
  let s' := (dispatch average (Plain action) now s).2 in
  (dispatch average (Plain action) now s).1 = Ok (with_timestamp now (state s)) ∧
  heap s' = heap s ∧
  nested (shown s') = nested (shown s) ∧
  treeTimestamp (shown s') = now ∧
  last (history s') =
    Some {| entryTimestamp := now; entryAction := Dispatched action;
            entryState := with_timestamp now (state s) |}.
Proof.
  intros Hunknown s s'.
  destruct (sharing_run _ calls (sharing_constructor online hidden t0)) as [Hs _].
  fold s in Hs. destruct Hs as (_ & _ & _ & Hidle & Hchain & Hmax).
  assert (reduce average action (state s) now (heap s) = (Ok (state s), heap s))
    as Hreduce.
  { unfold reduce. destruct (type action) as [| | |name| |] eqn:Htype; try reflexivity.
    rewrite reduceCase_unknown by (by apply Hunknown). reflexivity. }
  assert (Hplain := dispatch_plain action now s Hidle Hchain).
  rewrite Hreduce in Hplain. cbn [fst snd] in Hplain.
  unfold s'. rewrite Hplain. cbn [fst snd]. split_and!; try reflexivity.
  cbn [history with_isDispatching with_history]. unfold recorded. rewrite Hmax.
  rewrite length_app. cbn [length].
  destruct (_ <? _)%nat eqn:Hlong.
  - apply Nat.ltb_lt in Hlong. rewrite slice_last_last.
    + by rewrite last_snoc.
    + done.
    + rewrite length_app. cbn. lia.
  - by rewrite last_snoc.
Qed.

(** What no case of the reducer writes. *)
Definition fixedPolling (x : Polling) : Prop :=
  interval x = 30000 ∧ nextPollTime x = None ∧ maxRetries x = 3 ∧ 0 ≤ retryCount x.

Definition fixedCache (x : Cache) : Prop := maxSize x = 52428800.

Definition fixedHeap (h : Heap) : Prop :=
  (∀ l x, pollingAt h !! l = Some x → fixedPolling x) ∧
  (∀ l x, cacheAt h !! l = Some x → fixedCache x).

Definition through {A : Type} (c : M A) : Prop := ∀ h, fixedHeap h → fixedHeap (c h).2.

Lemma through_ret {A : Type} (a : A) : through (ret a).
Proof. by intros h. Qed.

Lemma through_throw {A : Type} (e : string) : through (throw (A := A) e).
Proof. by intros h. Qed.

Lemma through_bind {A B : Type} (c : M A) (k : A → M B) :
  through c → (∀ a, through (k a)) → through (bind c k).
Proof.
  intros Hc Hk h Hh. unfold bind. specialize (Hc h Hh).
  destruct (c h) as [[a|e] h']; cbn in *; [|done]. by apply Hk.
Qed.

Lemma through_payloadField (action : Action) (name : string) :
  through (payloadField action name).
Proof.
  unfold payloadField. destruct (payload action) as [[]|];
    first [apply through_ret | apply through_throw].
Qed.

Lemma through_writePolling l f :
  (∀ x, fixedPolling x → fixedPolling (f x)) → through (writePolling l f).
Proof.
  intros Hf h [Hp Hc]. unfold writePolling.
  destruct (pollingAt h !! l) as [x|] eqn:Hx; cbn; [|done].
  split; [|done]. cbn. intros l' x'. destruct (decide (l = l')) as [->|Hne].
  - rewrite lookup_insert_eq. intros [= <-]. eauto.
  - rewrite lookup_insert_ne by done. eauto.
Qed.

Lemma through_writeCache l f :
  (∀ x, fixedCache x → fixedCache (f x)) → through (writeCache l f).
Proof.
  intros Hf h [Hp Hc]. unfold writeCache.
  destruct (cacheAt h !! l) as [x|] eqn:Hx; cbn; [|done].
  split; [done|]. cbn. intros l' x'. destruct (decide (l = l')) as [->|Hne].
  - rewrite lookup_insert_eq. intros [= <-]. eauto.
  - rewrite lookup_insert_ne by done. eauto.
Qed.

Lemma through_writeData l f : through (writeData l f).
Proof. intros h Hh. unfold writeData. by destruct (dataAt h !! l). Qed.

Lemma through_writeUser l f : through (writeUser l f).
Proof. intros h Hh. unfold writeUser. by destruct (userAt h !! l). Qed.

Lemma through_writePerformance l f : through (writePerformance (Average := Average) l f).
Proof. intros h Hh. unfold writePerformance. by destruct (performanceAt h !! l). Qed.

Lemma through_writeUi l f : through (writeUi l f).
Proof. intros h Hh. unfold writeUi. by destruct (uiAt h !! l). Qed.

Ltac through_steps :=
  repeat first
    [ apply through_ret | apply through_throw | apply through_payloadField
    | apply through_writeData | apply through_writeUser
    | apply through_writePerformance | apply through_writeUi
    | apply through_writePolling;
        [intros ? (? & ? & ? & ?); unfold fixedPolling; cbn; split_and!; (done || lia)]
    | apply through_writeCache; [intros ? ?; done]
    | apply through_bind; [|intros ?] ].

Lemma through_reduceCase name action top now :
  through (reduceCase average name action top now).
Proof.
  unfold reduceCase.
  repeat match goal with
         | |- through (if ?b then _ else _) => destruct b
         end; through_steps.
  destruct a as [[]|]; through_steps.
  repeat match goal with
         | |- through (if ?b then _ else _) => destruct b
         end; through_steps.
Qed.

Lemma through_reduce action top now : through (reduce average action top now).
Proof.
  unfold reduce. apply through_bind; [|intros ?; apply through_ret].
  destruct (type action); first [apply through_reduceCase | apply through_ret].
Qed.

(** The version of every state object of a store. *)
Definition versioned (s : Store) : Prop :=
  version (initialState s) = "1.0.0" ∧ version (state s) = "1.0.0" ∧
  Forall (λ e, version (entryState e) = "1.0.0") (history s).

Lemma fixed_call (s : Store) (c : Call * Z) :
  sharing s → fixedHeap (heap s) → versioned s →
  fixedHeap (heap (call average s c)) ∧ versioned (call average s c).
Proof.
  intros (_ & _ & _ & Hidle & Hchain & _) Hfixed (Hinit & Hstate & Hhist).
  unfold call. destruct c as [[argument| |index] now]; cbn [fst snd].
  - destruct argument as [| |action].
    + unfold dispatch. rewrite Hidle. done.
    + unfold dispatch. rewrite Hidle. done.
    + rewrite dispatch_plain by done.
      assert (Hh := through_reduce action (state s) now (heap s) Hfixed).
      destruct (reduce average action (state s) now (heap s)).1; cbn.
      * split; [done|]. unfold versioned. cbn. split_and!; try done.
        by apply recorded_Forall.
      * done.
  - split; [done|]. unfold versioned, resetState. cbn. split_and!; try done.
    by repeat constructor.
  - unfold timeTravelTo. destruct (_ && _); [|done].
    destruct (history s !! Z.to_nat index) as [entry|] eqn:Hentry; [|done].
    split; [done|]. unfold versioned. cbn. split_and!; try done.
    rewrite Forall_forall in Hhist. apply Hhist. by eapply list_elem_of_lookup_2.
Qed.

Lemma fixed_run (s : Store) (calls : list (Call * Z)) :
  sharing s → fixedHeap (heap s) → versioned s →
  fixedHeap (heap (run average s calls)) ∧ versioned (run average s calls).
Proof.
  revert s. induction calls as [|c calls IH]; intros s Hs Hfixed Hversion; [done|].
  unfold run. cbn [foldl].
  destruct (sharing_call s c Hs) as [Hc _].
  destruct (fixed_call s c Hs Hfixed Hversion) as [Hf Hv].
  exact (IH _ Hc Hf Hv).
Qed.

(** What a dispatch leaves of an object: the fields that no case of the
    reducer writes. *)
Definition samePolling (x x' : Polling) : Prop :=
  interval x' = interval x ∧ nextPollTime x' = nextPollTime x ∧
  maxRetries x' = maxRetries x.

Definition framed (h h' : Heap) : Prop :=
  (∀ l x, pollingAt h !! l = Some x →
     ∃ x', pollingAt h' !! l = Some x' ∧ samePolling x x') ∧
  (∀ l x, cacheAt h !! l = Some x →
     ∃ x', cacheAt h' !! l = Some x' ∧ maxSize x' = maxSize x).

Lemma framed_refl (h : Heap) : framed h h.
Proof. split; intros l x Hx; exists x; by repeat split. Qed.

Lemma framed_same (h h' : Heap) :
  pollingAt h' = pollingAt h → cacheAt h' = cacheAt h → framed h h'.
Proof.
  intros Hp Hc. split; intros l x Hx; exists x.
  - rewrite Hp. by repeat split.
  - by rewrite Hc.
Qed.

Lemma framed_trans (h1 h2 h3 : Heap) : framed h1 h2 → framed h2 h3 → framed h1 h3.
Proof.
  intros [Hp12 Hc12] [Hp23 Hc23]. split.
  - intros l x Hx. destruct (Hp12 l x Hx) as (x2 & Hx2 & ? & ? & ?).
    destruct (Hp23 l x2 Hx2) as (x3 & Hx3 & ? & ? & ?).
    exists x3. unfold samePolling. split_and!; congruence.
  - intros l x Hx. destruct (Hc12 l x Hx) as (x2 & Hx2 & ?).
    destruct (Hc23 l x2 Hx2) as (x3 & Hx3 & ?). exists x3. split; congruence.
Qed.

Definition frames {A : Type} (c : M A) : Prop := ∀ h, framed h (c h).2.

Lemma frames_ret {A : Type} (a : A) : frames (ret a).
Proof. intros h. apply framed_refl. Qed.

Lemma frames_throw {A : Type} (e : string) : frames (throw (A := A) e).
Proof. intros h. apply framed_refl. Qed.

Lemma frames_bind {A B : Type} (c : M A) (k : A → M B) :
  frames c → (∀ a, frames (k a)) → frames (bind c k).
Proof.
  intros Hc Hk h. unfold bind. specialize (Hc h).
  destruct (c h) as [[a|e] h']; cbn in *; [|done].
  eapply framed_trans; [exact Hc|apply Hk].
Qed.

Lemma frames_payloadField (action : Action) (name : string) :
  frames (payloadField action name).
Proof.
  unfold payloadField. destruct (payload action) as [[]|];
    first [apply frames_ret | apply frames_throw].
Qed.

Lemma frames_writePolling l f :
  (∀ x, samePolling x (f x)) → frames (writePolling l f).
Proof.
  intros Hf h. unfold writePolling.
  destruct (pollingAt h !! l) as [x|] eqn:Hx; cbn; [|apply framed_refl].
  split; cbn.
  - intros l' x'. destruct (decide (l = l')) as [->|Hne].
    + rewrite Hx. intros [= <-]. exists (f x). by rewrite lookup_insert_eq.
    + intros Hx'. exists x'. rewrite lookup_insert_ne by done. by repeat split.
  - intros l' x' Hx'. by exists x'.
Qed.

Lemma frames_writeCache l f :
  (∀ x, maxSize (f x) = maxSize x) → frames (writeCache l f).
Proof.
  intros Hf h. unfold writeCache.
  destruct (cacheAt h !! l) as [x|] eqn:Hx; cbn; [|apply framed_refl].
  split; cbn.
  - intros l' x' Hx'. exists x'. by repeat split.
  - intros l' x'. destruct (decide (l = l')) as [->|Hne].
    + rewrite Hx. intros [= <-]. exists (f x). by rewrite lookup_insert_eq.
    + intros Hx'. exists x'. by rewrite lookup_insert_ne.
Qed.

Lemma frames_writeData l f : frames (writeData l f).
Proof.
  intros h. unfold writeData.
  destruct (dataAt h !! l); cbn; [by apply framed_same | apply framed_refl].
Qed.

Lemma frames_writeUser l f : frames (writeUser l f).
Proof.
  intros h. unfold writeUser.
  destruct (userAt h !! l); cbn; [by apply framed_same | apply framed_refl].
Qed.

Lemma frames_writePerformance l f : frames (writePerformance (Average := Average) l f).
Proof.
  intros h. unfold writePerformance.
  destruct (performanceAt h !! l); cbn; [by apply framed_same | apply framed_refl].
Qed.

Lemma frames_writeUi l f : frames (writeUi l f).
Proof.
  intros h. unfold writeUi.
  destruct (uiAt h !! l); cbn; [by apply framed_same | apply framed_refl].
Qed.

Ltac frames_steps :=
  repeat first
    [ apply frames_ret | apply frames_throw | apply frames_payloadField
    | apply frames_writeData | apply frames_writeUser
    | apply frames_writePerformance | apply frames_writeUi
    | apply frames_writePolling; [intros ?; by repeat split]
    | apply frames_writeCache; [intros ?; done]
    | apply frames_bind; [|intros ?] ].

Lemma frames_reduceCase name action top now :
  frames (reduceCase average name action top now).
Proof.
  unfold reduceCase.
  repeat match goal with
         | |- frames (if ?b then _ else _) => destruct b
         end; frames_steps.
  destruct a as [[]|]; frames_steps.
  repeat match goal with
         | |- frames (if ?b then _ else _) => destruct b
         end; frames_steps.
Qed.

Lemma frames_reduce action top now : frames (reduce average action top now).
Proof.
  unfold reduce. apply frames_bind; [|intros ?; apply frames_ret].
  destruct (type action); first [apply frames_reduceCase | apply frames_ret].
Qed.

(** X27.  What the store never writes.  No dispatch, on any store and
    with any outcome, changes the interval, the next poll time or the retry
    bound of a polling object, the bound of a cache object, or the version of
    the state: no case of the reducer writes them.  So on a store that is
    built without options, whatever is dispatched or travelled to and however
    often [resetState()] is called without a state, the state shows a polling
    object whose interval is 30000, whose next poll time is [null] and whose
    retry bound is 3, a cache object whose bound is 50 MB, and the version
    1.0.0; the retry count is never negative, and the six nested objects are
    all there.  (A call [resetState(newState)] puts in what [newState]
    holds.) *)
Theorem fields_never_written :
  (∀ (s : Store) (argument : Argument) (now : Z),
     let s' := (dispatch average argument now s).2 in
     (∀ l x, pollingAt (heap s) !! l = Some x →
        ∃ x', pollingAt (heap s') !! l = Some x' ∧
              interval x' = interval x ∧ nextPollTime x' = nextPollTime x ∧
              maxRetries x' = maxRetries x) ∧
     (∀ l x, cacheAt (heap s) !! l = Some x →
        ∃ x', cacheAt (heap s') !! l = Some x' ∧ maxSize x' = maxSize x) ∧
     version (state s') = version (state s) ∧
     refs (state s') = refs (state s)) ∧
  (∀ (online hidden : bool) (t0 : Z) (calls : list (Call * Z)),
     let s := run average (constructor zero online hidden t0) calls in
     (∃ p c, treePolling (shown s) = Some p ∧ treeCache (shown s) = Some c ∧
             interval p = 30000 ∧ nextPollTime p = None ∧ maxRetries p = 3 ∧
             0 ≤ retryCount p ∧ maxSize c = 50 * 1024 * 1024) ∧
     treeVersion (shown s) = "1.0.0" ∧
     is_Some (treeData (shown s)) ∧ is_Some (treeUser (shown s)) ∧
     is_Some (treePerformance (shown s)) ∧ is_Some (treeUi (shown s))).
Proof.
  split.
  - intros s argument now. cbn zeta.
    assert (framed (heap s) (heap (dispatch average argument now s).2)
            ∧ version (state (dispatch average argument now s).2) = version (state s)
            ∧ refs (state (dispatch average argument now s).2) = refs (state s))
      as (Hframed & Hversion & Hrefs).
    { unfold dispatch. destruct (isDispatching s); [split; [apply framed_refl|done]|].
      destruct argument as [| |action]; try (split; [apply framed_refl|done]).
      destruct (runMiddleware (middleware s) action (state s) (heap s))
        as [processed|e]; [|split; [apply framed_refl|done]].
      pose proof (frames_reduce processed (state s) now (heap s)) as Hr.
      destruct (reduce_outcome processed (state s) now (heap s)) as [[Hok|[e He]] _].
      - destruct (reduce average processed (state s) now (heap s)) as [r h].
        cbn in *. subst r. cbn. done.
      - destruct (reduce average processed (state s) now (heap s)) as [r h].
        cbn in *. subst r. cbn. done. }
    destruct Hframed as [Hp Hc]. split_and!; [exact Hp | exact Hc | done | done].
  - intros online hidden t0 calls s.
    assert (sharing (constructor zero online hidden t0)) as H0
      by apply sharing_constructor.
    destruct (sharing_run _ calls H0) as [Hs _]. fold s in Hs.
    assert (fixedHeap (heap (constructor zero online hidden t0))) as Hf0.
    { unfold fixedHeap, constructor, getDefaultState. cbn. split.
      - intros l x [<- <-]%lookup_singleton_Some. unfold fixedPolling. cbn.
        split_and!; (done || lia).
      - intros l x [<- <-]%lookup_singleton_Some. reflexivity. }
    assert (versioned (constructor zero online hidden t0)) as Hv0.
    { unfold versioned, constructor, getDefaultState. cbn. by repeat constructor. }
    destruct (fixed_run _ calls H0 Hf0 Hv0) as [[Hp Hc] (_ & Hv & _)].
    fold s in Hp, Hc, Hv.
    destruct Hs as (_ & _ & ([p Hpx] & Hd & Hu & [c Hcx] & Hperf & Hui) & _).
    split_and!; try done.
    exists p, c. destruct (Hp _ _ Hpx) as (? & ? & ? & ?).
    specialize (Hc _ _ Hcx). unfold fixedCache in Hc.
    unfold shown, getState, read. cbn. split_and!; done.
Qed.

End StateTreeFacts.

(** * The properties at sample inputs *)

(** ** Two reports and their diff *)

Section DetectorSamples.
Import Js.

Definition insight (n : Z) (title : string) : Json.value :=
  Json.VObj [("id", Json.VNum n); ("title", Json.VStr title)].

Definition oldReport : list Json.value := [insight 1 "A"; insight 2 "B"].
Definition newReport : list Json.value := [insight 1 "A2"; insight 3 "C"].

(** An item that has no [id]. *)
Definition untitled : Json.value := Json.VObj [("title", Json.VStr "draft")].

Example diff_of_reports :
  let cs := ChangeDetector.detectChanges ChangeDetector.defaultOptions oldReport newReport in
  addedKeys cs = ["3"] ∧ updatedKeys cs = ["1"] ∧ removedKeys cs = ["2"] ∧
  unchangedKeys cs = [] ∧ ChangeSet.hasChanges cs = true.
Proof. by vm_compute. Qed.

Lemma detectChanges_partition_reports :
  total_comparison ChangeDetector.defaultOptions ∧
  NoDup (addedKeys (ChangeDetector.detectChanges ChangeDetector.defaultOptions
                      oldReport newReport)
         ++ updatedKeys (ChangeDetector.detectChanges ChangeDetector.defaultOptions
                           oldReport newReport)
         ++ removedKeys (ChangeDetector.detectChanges ChangeDetector.defaultOptions
                           oldReport newReport)
         ++ unchangedKeys (ChangeDetector.detectChanges ChangeDetector.defaultOptions
                             oldReport newReport))%list ∧
  "3" ∈ addedKeys (ChangeDetector.detectChanges ChangeDetector.defaultOptions
                     oldReport newReport) ∧
  "2" ∈ removedKeys (ChangeDetector.detectChanges ChangeDetector.defaultOptions
                       oldReport newReport) ∧
  "1" ∈ (updatedKeys (ChangeDetector.detectChanges ChangeDetector.defaultOptions
                        oldReport newReport)
         ++ unchangedKeys (ChangeDetector.detectChanges ChangeDetector.defaultOptions
                             oldReport newReport))%list ∧
  "4" ∉ (addedKeys (ChangeDetector.detectChanges ChangeDetector.defaultOptions
                      oldReport newReport)
         ++ updatedKeys (ChangeDetector.detectChanges ChangeDetector.defaultOptions
                           oldReport newReport)
         ++ removedKeys (ChangeDetector.detectChanges ChangeDetector.defaultOptions
                           oldReport newReport)
         ++ unchangedKeys (ChangeDetector.detectChanges ChangeDetector.defaultOptions
                             oldReport newReport))%list.
Proof.
  assert (total_comparison ChangeDetector.defaultOptions) as Htotal.
  { intros compare Hcompare. discriminate Hcompare. }
  pose proof (detectChanges_partition ChangeDetector.defaultOptions
                oldReport newReport Htotal) as H.
  cbn zeta in H. destruct H as (Hdistinct & Hall & Hadded & Hremoved & Hboth & _).
  assert (∀ k, keyOf ChangeDetector.defaultOptions oldReport k → k = "1" ∨ k = "2")
    as Hold.
  { intros k (_ & item & Hin & _ & Hid).
    apply elem_of_cons in Hin as [->|Hin]; [left; by rewrite <- Hid|].
    apply elem_of_cons in Hin as [->|Hin]; [right; by rewrite <- Hid|].
    by apply elem_of_nil in Hin. }
  assert (∀ k, keyOf ChangeDetector.defaultOptions newReport k → k = "1" ∨ k = "3")
    as Hnew.
  { intros k (_ & item & Hin & _ & Hid).
    apply elem_of_cons in Hin as [->|Hin]; [left; by rewrite <- Hid|].
    apply elem_of_cons in Hin as [->|Hin]; [right; by rewrite <- Hid|].
    by apply elem_of_nil in Hin. }
  split_and!.
  - exact Htotal.
  - exact Hdistinct.
  - apply Hadded. split.
    + split; [discriminate|]. exists (insight 3 "C"). split_and!; [|reflexivity..].
      unfold newReport. apply elem_of_cons. right. apply elem_of_cons. by left.
    + intros [?|?]%Hold; discriminate.
  - apply Hremoved. split.
    + split; [discriminate|]. exists (insight 2 "B"). split_and!; [|reflexivity..].
      unfold oldReport. apply elem_of_cons. right. apply elem_of_cons. by left.
    + intros [?|?]%Hnew; discriminate.
  - apply Hboth. split.
    + split; [discriminate|]. exists (insight 1 "A"). split_and!; [|reflexivity..].
      unfold oldReport. apply elem_of_cons. by left.
    + split; [discriminate|]. exists (insight 1 "A2"). split_and!; [|reflexivity..].
      unfold newReport. apply elem_of_cons. by left.
  - intros [[?|?]%Hold|[?|?]%Hnew]%Hall; discriminate.
Defined.

(** The quick check says that something changed although the full diff
    finds nothing: the new report has one item more, which has no key. *)
Lemma hasChanges_without_change :
  ChangeDetector.hasChanges ChangeDetector.defaultOptions
    [insight 1 "A"] [insight 1 "A"; untitled] = Ok true ∧
  ChangeSet.hasChanges
    (ChangeDetector.detectChanges ChangeDetector.defaultOptions
       [insight 1 "A"] [insight 1 "A"; untitled]) = false ∧
  ChangeDetector.hasChanges ChangeDetector.defaultOptions
    [insight 1 "A"; insight 1 "A"] [insight 1 "A"] = Ok true ∧
  ChangeSet.hasChanges
    (ChangeDetector.detectChanges ChangeDetector.defaultOptions
       [insight 1 "A"; insight 1 "A"] [insight 1 "A"]) = false.
Proof. by vm_compute. Qed.

Lemma hasChanges_characterisation_reports :
  total_comparison ChangeDetector.defaultOptions ∧
  ChangeDetector.hasChanges ChangeDetector.defaultOptions oldReport newReport =
    Ok (negb (length oldReport =? length newReport)%nat
        || ChangeSet.hasChanges
             (ChangeDetector.detectChanges ChangeDetector.defaultOptions
                oldReport newReport)).
Proof.
  assert (total_comparison ChangeDetector.defaultOptions) as Htotal.
  { intros compare Hcompare. discriminate Hcompare. }
  split; [exact Htotal|].
  exact (proj1 (hasChanges_characterisation ChangeDetector.defaultOptions
                  oldReport newReport Htotal)).
Defined.

Lemma defaultOptions_total : total_comparison ChangeDetector.defaultOptions.
Proof. intros compare Hcompare. discriminate Hcompare. Defined.

Lemma entries_point_into_their_collection_reports :
  total_comparison ChangeDetector.defaultOptions ∧
  ∀ e, e ∈ ChangeSet.removed
             (ChangeDetector.detectChanges ChangeDetector.defaultOptions
                oldReport newReport) →
    firstWithKey ChangeDetector.defaultOptions oldReport (Entry.key e) (Entry.position e) ∧
    lastWithKey ChangeDetector.defaultOptions oldReport (Entry.key e) (Entry.data e) ∧
    (well_keyed ChangeDetector.defaultOptions oldReport →
       oldReport !! Z.to_nat (Entry.position e) = Some (Entry.data e)).
Proof.
  split; [exact defaultOptions_total|].
  exact (proj2 (proj2 (entries_point_into_their_collection
                         ChangeDetector.defaultOptions oldReport newReport
                         defaultOptions_total))).
Defined.



Lemma added_and_removed_swap_reports :
  total_comparison ChangeDetector.defaultOptions ∧
  ChangeSet.added
    (ChangeDetector.detectChanges ChangeDetector.defaultOptions oldReport newReport)
    = ChangeSet.removed
        (ChangeDetector.detectChanges ChangeDetector.defaultOptions newReport oldReport).
Proof.
  split; [exact defaultOptions_total|].
  exact (proj1 (added_and_removed_swap ChangeDetector.defaultOptions oldReport newReport
                  defaultOptions_total)).
Defined.

Lemma specific_changes_are_the_differing_fields_reports :
  Forall (λ k, k ∉ Json.inherited) ["id"; "title"] ∧
  "title" ∈ FieldChange.field <$>
              ChangeDetector.getSpecificChanges ChangeDetector.defaultOptions
                (insight 1 "A") (insight 1 "A2") ∧
  "id" ∉ FieldChange.field <$>
           ChangeDetector.getSpecificChanges ChangeDetector.defaultOptions
             (insight 1 "A") (insight 1 "A2").
Proof.
  assert (Forall (λ k, k ∉ Json.inherited) ["id"; "title"]) as Hown.
  { repeat (constructor;
              [intros Hin; apply list_elem_of_In in Hin; cbn in Hin;
               intuition discriminate|]).
    constructor. }
  pose proof (specific_changes_are_the_differing_fields ChangeDetector.defaultOptions
                [("id", Json.VNum 1); ("title", Json.VStr "A")]
                [("id", Json.VNum 1); ("title", Json.VStr "A2")] Hown Hown) as H.
  cbn zeta in H. destruct H as (_ & Hlisted & _).
  split; [exact Hown|]. split.
  - apply Hlisted. split_and!; [|reflexivity..].
    left. apply elem_of_cons. right. apply elem_of_cons. by left.
  - intros Hin. apply Hlisted in Hin as (_ & _ & Hdiffer).
    vm_compute in Hdiffer. discriminate Hdiffer.
Defined.

End DetectorSamples.

(** ** A polling service with the default configuration *)

Section PollingSamples.
Import PollingService.

(** Online, visible, with the three callbacks, built at time 0. *)
Definition service : Service := constructor true true true noConfig true false 0.

(** Started: the first fetch is in flight. *)
Definition started : Service := run service [Start].

Example service_interval : currentInterval (state service) = 10000.
Proof. reflexivity. Qed.

(** The offline listener leaves the interval of an active user, 10 s,
    where the precedence asks for twice the background interval, 120 s. *)
Lemma offline_keeps_interval :
  isOnline (state (onOffline service)) = false ∧
  currentInterval (state (onOffline service)) = 10000 ∧
  backgroundInterval (config (onOffline service)) * 2 = 120000.
Proof. by vm_compute. Qed.

Lemma started_polling : polling started.
Proof.
  unfold polling. split_and!; [reflexivity..|].
  vm_compute. constructor; [|constructor]. split; reflexivity.
Defined.

Lemma retries_exhausted_default :
  let before := foldl failedRound started ["timeout"; "timeout"] in
  let after := failedRound before "offline" in
  polling started ∧
  isActive (state before) = true ∧
  errorCalls before = [] ∧
  isActive (state after) = false ∧
  timerId (state after) = None ∧
  errorCalls after = [(30000, "offline", "max_retries_exceeded")].
Proof.
  pose proof (retries_exhausted started ["timeout"; "timeout"] "offline"
                started_polling eq_refl eq_refl eq_refl) as H.
  cbn zeta in H. destruct H as (Hearlier & Hactive & Htimer & _ & _ & Hcalls & _).
  destruct (Hearlier 2%nat (le_n _)) as (Hb & _ & _ & He).
  split_and!; [exact started_polling | exact Hb | exact He | exact Hactive
              | exact Htimer | exact Hcalls].
Defined.

(** After a failure at time 0 the next fetch is called at 15 s, the retry
    delay of 5 s and then the interval of 10 s, not at 5 s. *)
Lemma retry_not_after_delay_alone :
  retryDelay (config started) = 5000 ∧
  trace (run started [FetchRejects "timeout"; TimerFires RetryDelayElapsed]) =
    [(0, FetchCalled); (0, ConsoleError "timeout")] ∧
  now (run started [FetchRejects "timeout"; TimerFires RetryDelayElapsed]) = 5000 ∧
  trace (run started [FetchRejects "timeout"; TimerFires RetryDelayElapsed;
                      TimerFires PollingCycle]) =
    [(0, FetchCalled); (0, ConsoleError "timeout"); (15000, FetchCalled)].
Proof. by vm_compute. Qed.

Lemma retry_waits_delay_then_interval_default :
  polling started ∧
  Forall (λ tm, now started + retryDelay (config started)
                + currentInterval (state started) < due tm) (timers started) ∧
  trace (fireDue (fireDue (fetchRejected "timeout" started))) =
    (trace (fetchRejected "timeout" started)
     ++ [(now started + retryDelay (config started)
          + currentInterval (state started), FetchCalled)])%list.
Proof.
  assert (Forall (λ tm, now started + retryDelay (config started)
                        + currentInterval (state started) < due tm) (timers started))
    as Hlater by (vm_compute; repeat constructor).
  split; [exact started_polling|]. split; [exact Hlater|].
  assert (retryCount (state started) + 1 < maxRetries (config started)) as Hleft
    by (by vm_compute).
  assert (0 < retryDelay (config started) ≤ 2147483647) as Hdelay
    by (by vm_compute).
  assert (0 < currentInterval (state started) ≤ 2147483647) as Hinterval
    by (by vm_compute).
  pose proof (retry_waits_delay_then_interval started "timeout" started_polling
                Hleft Hdelay Hinterval Hlater) as H.
  cbn zeta in H. destruct H as (_ & _ & _ & _ & _ & _ & _ & _ & _ & _ & _ & Htrace).
  exact Htrace.
Defined.

(** The retry beside the inactivity timeout: the user was last active at
    the start, the fetch fails at 50 s, and the timeout, due at 60 s, comes
    before the cycle armed for 65 s.  It changes the interval, which restarts
    the service: the next fetch is called at 60 s. *)
Example inactivity_restarts_during_retry :
  let failed := run started [Elapse 50000; FetchRejects "timeout"] in
  (task <$> dueFirst (timers (fireDue failed))) = Some UserInactive ∧
  trace (fireDue (fireDue failed)) =
    [(0, FetchCalled); (50000, ConsoleError "timeout"); (60000, FetchCalled)] ∧
  currentInterval (state (fireDue (fireDue failed))) = 30000.
Proof. by vm_compute. Qed.

Lemma activation_fetches_at_once_default :
  fetchFunction (options service) = true ∧
  isActive (state (stop service)) = false ∧
  destroy service = stop service ∧
  isActive (state (onOnline (destroy service))) = true ∧
  inFlight (onOnline (destroy service)) = S (inFlight service) ∧
  trace (onOnline (destroy service)) =
    (trace service ++ [(now service, FetchCalled)])%list.
Proof.
  split; [reflexivity|].
  exact (proj2 (proj2 (activation_fetches_at_once service eq_refl))).
Defined.

Lemma started_interval : 0 < currentInterval (state started) ≤ 2147483647.
Proof. by vm_compute. Defined.

Lemma started_later :
  Forall (λ tm, now started + currentInterval (state started) < due tm) (timers started).
Proof. vm_compute. repeat constructor. Defined.

Lemma success_arms_next_cycle_default :
  polling started ∧
  0 < currentInterval (state started) ≤ 2147483647 ∧
  Forall (λ tm, now started + currentInterval (state started) < due tm)
    (timers started) ∧
  trace (fireDue (fetchResolved (Json.VStr "report") None started)) =
    (trace (fetchResolved (Json.VStr "report") None started)
     ++ [(now started + currentInterval (state started), FetchCalled)])%list.
Proof.
  split; [exact started_polling|]. split; [exact started_interval|].
  split; [exact started_later|].
  pose proof (success_arms_next_cycle started (Json.VStr "report")
                started_polling started_interval started_later) as H.
  cbn zeta in H.
  destruct H as (_ & _ & _ & _ & _ & _ & _ & _ & _ & _ & Htrace). exact Htrace.
Defined.

Lemma pause_leaves_the_fetch_in_flight_default :
  inFlight started ≠ 0%nat ∧
  inFlight (pause started) = inFlight started.
Proof.
  assert (inFlight started ≠ 0%nat) as Hflight by (vm_compute; discriminate).
  split; [exact Hflight|].
  exact (proj1 (pause_leaves_the_fetch_in_flight started (Json.VStr "report") "timeout"
                  Hflight)).
Defined.

Lemma restart_overlaps_the_fetch_in_flight_default :
  polling started ∧
  0 < currentInterval (state started) ≤ 2147483647 ∧
  Forall (λ tm, now started + currentInterval (state started) < due tm)
    (timers started) ∧
  inFlight (restart started) = 2%nat ∧
  inFlight (fireDue (fireDue (fetchResolved (Json.VStr "second") None
                                (fetchResolved (Json.VStr "first") None
                                   (restart started))))) = 2%nat.
Proof.
  split; [exact started_polling|]. split; [exact started_interval|].
  split; [exact started_later|].
  pose proof (restart_overlaps_the_fetch_in_flight started (Json.VStr "first")
                (Json.VStr "second") started_polling started_interval started_later)
    as H.
  cbn zeta in H. destruct H as (_ & Hflight & _ & _ & _ & _ & Hfired).
  split; [exact Hflight | exact Hfired].
Defined.

End PollingSamples.

(** ** A cache manager in a browser with a store *)

Section CacheSamples.
Import Js CacheManager.

Definition emptyBrowser : Browser :=
  {| hasIndexedDB := true; hasServiceWorker := true; database := None;
     cacheStorage := ∅; cleanupTimers := 0 |}.

(** A manager with the default options, and one with the service worker
    tier and no store. *)
Definition manager : Manager :=
  constructor None None None None None None None emptyBrowser.

Definition workerManager : Manager :=
  constructor None None None None (Some false) (Some true) None emptyBrowser.

Definition greeting : Json.value := Json.VStr "hello".

Example first_set :
  (set noFaults 1000 "latest_data" greeting noOptions manager).1 = Ok true ∧
  isInitialized (state (set noFaults 1000 "latest_data" greeting noOptions manager).2)
    = true.
Proof. by vm_compute. Qed.

Lemma ttl_boundary_default :
  (set noFaults 1000 "latest_data" greeting noOptions manager).1 = Ok true ∧
  (get noFaults (1000 + 300000 - 1) "latest_data"
     (set noFaults 1000 "latest_data" greeting noOptions manager).2).1
    = Ok (Some greeting) ∧
  (get noFaults (1000 + 300000 + 1) "latest_data"
     (set noFaults 1000 "latest_data" greeting noOptions manager).2).1
    = Ok None.
Proof.
  assert ((set noFaults 1000 "latest_data" greeting noOptions manager).1 = Ok true)
    as Hset by (by vm_compute).
  assert (isInitialized
            (state (set noFaults 1000 "latest_data" greeting noOptions manager).2)
          = true) as Hready by (by vm_compute).
  pose proof (ttl_boundary noFaults 1000 "latest_data" greeting noOptions manager
                Hset Hready) as H.
  cbn zeta in H. destruct H as (_ & Hbefore & _ & Hafter).
  split_and!; [exact Hset | exact (Hbefore eq_refl noFaults) | exact (Hafter noFaults)].
Defined.

(** The write to the service worker cache fails and nothing is written
    there, yet [set] answers [true]. *)
Definition cacheQuotaExceeded : Faults :=
  {| openFails := false; countFails := false; cursorFails := false;
     putFails := false; getFails := false; deleteFails := false;
     registerFails := false; cachePutFails := true; cacheDeleteFails := false |}.

Definition asImage : SetOptions :=
  {| given_ttl := None; given_type := Some "image"; given_priority := None |}.

Lemma set_true_despite_cache_failure :
  enableServiceWorker (options workerManager) = true ∧
  cachePutFails cacheQuotaExceeded = true ∧
  (set cacheQuotaExceeded 1000 "logo" greeting asImage workerManager).1 = Ok true ∧
  cacheStorage (browser (set cacheQuotaExceeded 1000 "logo" greeting asImage
                           workerManager).2) !! "logo" = None.
Proof. by vm_compute. Qed.

Lemma set_counts_every_call_default :
  (set noFaults 1000 "latest_data" greeting noOptions manager).1 = Ok true ∧
  itemCount (state (set noFaults 1000 "latest_data" greeting noOptions manager).2) =
    itemCount (state (makeRoom noFaults 1000 (estimateSize greeting)
                        (initialised noFaults manager)).2) + 1.
Proof.
  assert ((set noFaults 1000 "latest_data" greeting noOptions manager).1 = Ok true)
    as Hset by (by vm_compute).
  split; [exact Hset|].
  exact (proj1 (set_counts_every_call noFaults 1000 "latest_data" greeting noOptions
                  manager Hset)).
Defined.

(** The same key set twice: two counted, one kept. *)
Example set_twice :
  let once := (set noFaults 1000 "latest_data" greeting noOptions manager).2 in
  let twice := (set noFaults 2000 "latest_data" greeting noOptions once).2 in
  itemCount (state twice) = 2 ∧ currentSize (state twice) = 14 ∧
  count (memoryCache (state twice)) = 1.
Proof. by vm_compute. Qed.

(** The manager after the first [set], and the entry that it wrote. *)
Definition cached : Manager :=
  (set noFaults 1000 "latest_data" greeting noOptions manager).2.

Definition entry : CacheItem := newItem 1000 "latest_data" greeting noOptions manager.

Lemma manager_keyed : keyedStore manager.
Proof.
  intros k item Hstored.
  change ((∅ : gmap string CacheItem) !! k = Some item) in Hstored.
  by rewrite lookup_empty in Hstored.
Defined.

Lemma cached_holds : holds cached "latest_data" entry.
Proof.
  apply set_holds; [exact manager_keyed | by vm_compute | by vm_compute].
Defined.

Lemma reading_keeps_entries_default :
  holds cached "latest_data" entry ∧
  holds (gets [(noFaults, 2000, "other"); (noFaults, 400000, "latest_data")] cached)
    "latest_data" entry.
Proof.
  split; [exact cached_holds|].
  exact (proj1 (reading_keeps_entries cached "latest_data" entry
                  [(noFaults, 2000, "other"); (noFaults, 400000, "latest_data")]
                  cached_holds)).
Defined.

(** The database cannot be opened. *)
Definition cannotOpen : Faults :=
  {| openFails := true; countFails := false; cursorFails := false;
     putFails := false; getFails := false; deleteFails := false;
     registerFails := false; cachePutFails := false; cacheDeleteFails := false |}.

Lemma set_without_database_default :
  isInitialized (state manager) = false ∧
  indexedDB (state manager) = false ∧
  enableIndexedDB (options manager) = true ∧
  hasIndexedDB (browser manager) = true ∧
  openFails cannotOpen = true ∧
  (isStorageFull (estimateSize greeting) manager).1 = Ok false ∧
  (set cannotOpen 1000 "latest_data" greeting noOptions manager).1 = Ok true ∧
  isInitialized (state (set cannotOpen 1000 "latest_data" greeting noOptions manager).2)
    = false.
Proof.
  pose proof (set_without_database cannotOpen 1000 "latest_data" greeting noOptions
                manager eq_refl eq_refl eq_refl eq_refl eq_refl eq_refl) as H.
  cbn zeta in H. destruct H as (Hset & Hinit & _).
  split_and!; [reflexivity..| exact Hset | exact Hinit].
Defined.

(** A manager whose count of bytes has reached the bound of 50 MB, with
    the store that [initIndexedDB] creates. *)
Definition fullManager : Manager :=
  {| options := options manager;
     state := {| isInitialized := true; currentSize := 50 * 1024 * 1024;
                 itemCount := 0; lastCleanup := None; memoryCache := ∅;
                 indexedDB := true |};
     browser := {| hasIndexedDB := true; hasServiceWorker := true;
                   database := Some {| records := ∅;
                                       indexes := ["timestamp"; "size"; "type"] |};
                   cacheStorage := ∅; cleanupTimers := 1 |} |}.

Lemma full_cache_refuses_default :
  isInitialized (state fullManager) = true ∧
  indexedDB (state fullManager) = true ∧
  createdIndexes fullManager ∧
  cursorFails noFaults = false ∧
  0 ≤ maxSizeMB (options fullManager) ∧
  (isStorageFull (estimateSize greeting) fullManager).1 = Ok true ∧
  aboveTarget (estimateSize greeting) (cleanupExpiredCache noFaults 1000 fullManager).2
    = true ∧
  set noFaults 1000 "latest_data" greeting noOptions fullManager =
    (Ok false, (cleanupExpiredCache noFaults 1000 fullManager).2).
Proof.
  assert (0 ≤ maxSizeMB (options fullManager)) as Hbound by (vm_compute; discriminate).
  assert (aboveTarget (estimateSize greeting)
            (cleanupExpiredCache noFaults 1000 fullManager).2 = true) as Habove
    by (by vm_compute).
  split_and!; [reflexivity | reflexivity | reflexivity | reflexivity | exact Hbound
              | reflexivity | exact Habove |].
  exact (full_cache_refuses noFaults 1000 "latest_data" greeting noOptions fullManager
           eq_refl eq_refl eq_refl eq_refl Hbound eq_refl Habove).
Defined.

Lemma cached_indexed :
  indexedDB (state cached) = true →
  Json.includes (storeIndexes cached) "timestamp" = true ∧ cursorFails noFaults = false.
Proof. intros _. by vm_compute. Defined.

Lemma cleanup_uses_two_clocks_default :
  (indexedDB (state cached) = true →
     Json.includes (storeIndexes cached) "timestamp" = true ∧
     cursorFails noFaults = false) ∧
  indexedDB (state cached) = true ∧
  lastCleanup (state (cleanupExpiredCache noFaults 400000 cached).2) = Some 400000.
Proof.
  split; [exact cached_indexed|]. split; [by vm_compute|].
  pose proof (cleanup_uses_two_clocks noFaults 400000 cached cached_indexed) as H.
  cbn zeta in H. destruct H as (_ & _ & Hlast & _). exact Hlast.
Defined.

Lemma delete_takes_one_count_off_default :
  isInitialized (state cached) = true ∧
  (isStorageFull (estimateSize greeting) cached).1 = Ok false ∧
  (set noFaults 2000 "other" greeting noOptions cached).1 = Ok true ∧
  (enableMemoryCache (options cached) = true →
     itemCount (state (delete noFaults "other"
                         (set noFaults 2000 "other" greeting noOptions cached).2).2)
       = itemCount (state cached) ∧
     currentSize (state (delete noFaults "other"
                           (set noFaults 2000 "other" greeting noOptions cached).2).2)
       = currentSize (state cached)).
Proof.
  assert (isInitialized (state cached) = true) as Hready by (by vm_compute).
  assert ((isStorageFull (estimateSize greeting) cached).1 = Ok false) as Hroom
    by (by vm_compute).
  assert ((set noFaults 2000 "other" greeting noOptions cached).1 = Ok true) as Hset
    by (by vm_compute).
  split_and!; [exact Hready | exact Hroom | exact Hset |].
  exact (proj1 (delete_takes_one_count_off noFaults noFaults 2000 "other" greeting
                  noOptions cached Hready Hroom Hset)).
Defined.

Lemma destroy_keeps_the_store_default :
  holds cached "latest_data" entry ∧
  indexedDB (state cached) = true ∧
  enableIndexedDB (options cached) = true ∧
  hasIndexedDB (browser cached) = true ∧
  isExpired 2000 entry = false ∧
  memoryCache (state (destroy cached)) = ∅ ∧
  (get noFaults 2000 "latest_data" (destroy cached)).1 = Ok (Some (value entry)).
Proof.
  assert (indexedDB (state cached) = true) as Hconnected by (by vm_compute).
  assert (enableIndexedDB (options cached) = true) as Henabled by (by vm_compute).
  assert (hasIndexedDB (browser cached) = true) as Hhas by (by vm_compute).
  assert (isExpired 2000 entry = false) as Hfresh by (by vm_compute).
  pose proof (destroy_keeps_the_store noFaults 2000 "latest_data" entry cached
                cached_holds Hconnected Henabled Hhas eq_refl eq_refl eq_refl eq_refl
                Hfresh) as H.
  cbn zeta in H. destruct H as (Hmemory & _ & _ & _ & _ & Hget & _).
  split_and!; [exact cached_holds | exact Hconnected | exact Henabled | exact Hhas
              | exact Hfresh | exact Hmemory | exact Hget].
Defined.

End CacheSamples.

(** ** A store that counts *)

Section StoreSamples.
Import Js RealTimeState.

(** A state that is a number, actions that add to it, a stamp that
    leaves it alone. *)
Definition add (action : Z) (st : Z) (now : Z) : Result Z := Ok (st + action).
Definition unstamped (now : Z) (st : Z) : Z := st.

Definition sixty : list (Call Z Z * Z) :=
  (λ n, (Dispatch (Plain (Z.of_nat n)), Z.of_nat n)) <$> seq 1 60.

Example sixty_dispatches :
  let s := run add unstamped (constructor 0 None [] 0) sixty in
  length (history s) = 50%nat ∧
  action <$> head (history s) = Some (Dispatched 11) ∧
  action <$> last (history s) = Some (Dispatched 60) ∧
  current s = 1830.
Proof. by vm_compute. Qed.

End StoreSamples.

(** ** A store with the default state tree *)

Section TreeSamples.
Import Js StateTree.

(** The samples leave the two averages out. *)
Definition unaveraged (oldAvg : unit) (newCount : Z) (duration : Val) : unit := tt.

(** The store built at time 0, online and visible. *)
Definition store : Store unit := constructor tt true false 0.

(** The action that the engine dispatches when a poll fails. *)
Definition loadingFailed : Action :=
  {| type := Json.VStr "DATA_LOADING_FAILED";
     payload := Some (Json.VObj [("error", Json.VStr "timeout");
                                 ("reason", Json.VStr "polling_error")]) |}.

Definition pollingStarted : Action :=
  {| type := Json.VStr "POLLING_STARTED"; payload := None |}.

(** Polling is started at time 5; a travel back to the first record of the
    history, made before the start, still shows it active. *)
Example travel_back_shows_the_present :
  let s := run unaveraged store [(Dispatch (Plain pollingStarted), 5);
                                 (TimeTravelTo 0, 6)] in
  isActive <$> treePolling (shown store) = Some false ∧
  isActive <$> treePolling (shown s) = Some true ∧
  lastPollTime <$> treePolling (shown s) = Some (Some 5) ∧
  treeTimestamp (shown s) = 0.
Proof. by vm_compute. Qed.

Lemma loadingFailed_unknown :
  ∀ name, type loadingFailed = Json.VStr name → name ∉ knownTypes.
Proof.
  intros name [= <-] Hin. apply list_elem_of_In in Hin. cbn in Hin.
  intuition discriminate.
Defined.

Lemma unknown_action_marks_the_time_only_default :
  (∀ name, type loadingFailed = Json.VStr name → name ∉ knownTypes) ∧
  (dispatch unaveraged (Plain loadingFailed) 5 store).1
    = Ok (with_timestamp 5 (state store)) ∧
  heap (dispatch unaveraged (Plain loadingFailed) 5 store).2 = heap store.
Proof.
  split; [exact loadingFailed_unknown|].
  pose proof (unknown_action_marks_the_time_only tt unaveraged true false 0 []
                loadingFailed 5 loadingFailed_unknown) as H.
  cbn zeta in H. destruct H as (Hok & Hheap & _).
  split; [exact Hok | exact Hheap].
Defined.

End TreeSamples.
